(** * Workspace symbol index and diagnostic aggregator

    A shallow embedding of the TypeScript classes [SymbolIndex]
    (import/symbolIndex.ts) and [DiagnosticAggregator]
    (alpha/DiagnosticAggregator.ts), followed by the properties the
    specification states about them.

    Conventions of the embedding:
    - a JavaScript [Map] is an association list kept in insertion order
      with unique keys ([JsMap]): [set] on a present key replaces the value
      in place, [set] on an absent key appends, iteration follows the list;
    - a JavaScript string is a [string]; a number that holds a line, a
      column or a time stamp is a [Z];
    - mutation of the singleton objects is explicit state passing;
    - the declaration scanner ([ImportParser], [ModuleResolver]) and Node's
      [path.normalize] are not part of the embedded classes: they are the
      operations of the classes [Scanner] and [PathLib]. *)

From Stdlib Require Import List String Ascii ZArith Bool Arith Lia.
From Stdlib Require Import Permutation Sorted.
From Stdlib Require Import DecimalString DecimalZ.
Import ListNotations.

Open Scope string_scope.
Open Scope list_scope.

(* ================================================================== *)
(** ** JavaScript containers *)

Module JsMap.
Section WithKey.
  Context {K V : Type} (keq : K -> K -> bool).

Definition t := list (K * V).

Definition empty : t := [].

Fixpoint get (m : t) (k : K) : option V :=
  match m with
  | [] => None
  | (k', v) :: m' => if keq k' k then Some v else get m' k
  end.

Definition has (m : t) (k : K) : bool :=
  match get m k with Some _ => true | None => false end.

(** [Map.prototype.set]: an existing key keeps its position. *)
Fixpoint set (m : t) (k : K) (v : V) : t :=
  match m with
  | [] => [(k, v)]
  | (k', v') :: m' =>
      if keq k' k then (k', v) :: m' else (k', v') :: set m' k v
  end.

(** [Map.prototype.delete]. *)
Definition delete (m : t) (k : K) : t :=
  filter (fun kv => negb (keq (fst kv) k)) m.

Definition keys (m : t) : list K := map fst m.
Definition values (m : t) : list V := map snd m.
Definition entries (m : t) : list (K * V) := m.
End WithKey.
End JsMap.

Definition StrMap (V : Type) : Type := list (string * V).

(** [Array.prototype.includes] and [indexOf] on arrays of strings. *)
Definition includes (l : list string) (x : string) : bool :=
  existsb (String.eqb x) l.

Fixpoint indexOf (l : list string) (x : string) : nat :=
  match l with
  | [] => 0
  | y :: l' => if String.eqb y x then 0 else S (indexOf l' x)
  end.

(** [Array.prototype.some]. *)
Definition some {A : Type} (f : A -> bool) (l : list A) : bool := existsb f l.

(** Truthiness of an optional string: [undefined] and the empty string are
    falsy. *)
Definition truthy (s : option string) : bool :=
  match s with
  | Some s' => negb (String.eqb s' EmptyString)
  | None => false
  end.

(** [a || b] where [b] is a string. *)
Definition or_else (a : option string) (b : string) : string :=
  match a with
  | Some s => if String.eqb s EmptyString then b else s
  | None => b
  end.

(* ================================================================== *)
(** ** Data model *)

Record Position := { line : Z; character : Z }.
Record Range := { start : Position; range_end : Position }.
Record Uri := { fsPath : string }.
Record Location := { loc_uri : Uri; loc_range : Range }.

(** The fields of [ExportStatement] and [ImportStatement] the two classes
    read. *)
Record ExportStatement := {
  symbolName : string;
  symbolType : string;
  export_range : Range
}.

Record ImportedSymbol := { imported_name : string; alias : option string }.

Record ImportStatement := {
  import_type : string;
  import_moduleName : string;
  symbols : list ImportedSymbol;
  isWildcard : bool
}.

Record ModuleInfo := {
  mod_uri : Uri;
  mod_name : string;
  mod_exports : list ExportStatement;
  mod_imports : list ImportStatement;
  indexed : bool;
  lastModified : Z
}.

Record SymbolInfo := {
  sym_name : string;
  sym_moduleName : string;
  sym_moduleUri : Uri;
  sym_type : string;
  sym_location : Location
}.

(** The declaration scanner and the module resolver, as [indexFile] and
    [getUnusedImports] call them. *)
Class Scanner (TextDocument : Type) := {
  getText : TextDocument -> string;
  getModuleDirectiveName : TextDocument -> option string;
  getModuleName : string -> string;
  parseExports : TextDocument -> list ExportStatement;
  parseImports : TextDocument -> list ImportStatement
}.

(* ================================================================== *)
(** ** SymbolIndex *)

Record SymbolIndex := {
  modules : StrMap ModuleInfo;
  symbolsByModule : StrMap (list SymbolInfo);
  symbolsByName : StrMap (list SymbolInfo);
  wildcardImportsByDocument : StrMap (list string)
}.

Definition emptyIndex : SymbolIndex :=
  {| modules := []; symbolsByModule := []; symbolsByName := [];
     wildcardImportsByDocument := [] |}.

Definition smap_get {V} (m : StrMap V) (k : string) : option V :=
  JsMap.get String.eqb m k.
Definition smap_has {V} (m : StrMap V) (k : string) : bool :=
  JsMap.has String.eqb m k.
Definition smap_set {V} (m : StrMap V) (k : string) (v : V) : StrMap V :=
  JsMap.set String.eqb m k v.
Definition smap_delete {V} (m : StrMap V) (k : string) : StrMap V :=
  JsMap.delete String.eqb m k.

Definition get_or_nil {A} (o : option (list A)) : list A :=
  match o with Some l => l | None => [] end.

Definition mkSymbol (moduleInfo : ModuleInfo) (exportStmt : ExportStatement)
  : SymbolInfo :=
  {| sym_name := symbolName exportStmt;
     sym_moduleName := mod_name moduleInfo;
     sym_moduleUri := mod_uri moduleInfo;
     sym_type := symbolType exportStmt;
     sym_location := {| loc_uri := mod_uri moduleInfo;
                        loc_range := export_range exportStmt |} |}.

(** One turn of the loop of [indexSymbols] on the name-based index:
    create the bucket when absent, then push the symbol on it. *)
Definition addByName (byName : StrMap (list SymbolInfo)) (symbol : SymbolInfo)
  : StrMap (list SymbolInfo) :=
  let byName1 :=
    if smap_has byName (sym_name symbol) then byName
    else smap_set byName (sym_name symbol) [] in
  smap_set byName1 (sym_name symbol)
    (get_or_nil (smap_get byName1 (sym_name symbol)) ++ [symbol]).

Definition indexSymbols (idx : SymbolIndex) (moduleInfo : ModuleInfo)
  : SymbolIndex :=
  let symbols := map (mkSymbol moduleInfo) (mod_exports moduleInfo) in
  {| modules := modules idx;
     symbolsByModule := smap_set (symbolsByModule idx) (mod_name moduleInfo) symbols;
     symbolsByName := fold_left addByName symbols (symbolsByName idx);
     wildcardImportsByDocument := wildcardImportsByDocument idx |}.

Definition indexWildcardImports (idx : SymbolIndex) (uri : Uri)
  (imports : list ImportStatement) : SymbolIndex :=
  let wildcardModules :=
    map import_moduleName (filter isWildcard imports) in
  {| modules := modules idx;
     symbolsByModule := symbolsByModule idx;
     symbolsByName := symbolsByName idx;
     wildcardImportsByDocument :=
       if (0 <? List.length wildcardModules)%nat
       then smap_set (wildcardImportsByDocument idx) (fsPath uri) wildcardModules
       else smap_delete (wildcardImportsByDocument idx) (fsPath uri) |}.

Section Indexing.
  Context {TextDocument : Type} `{Scanner TextDocument}.

(** [indexFile].  [document] is what [openTextDocument] resolved to, [None]
    when it threw (the [catch] logs and leaves the index as it was);
    [now] is the value of [Date.now()]. *)
Definition indexFile (idx : SymbolIndex) (uri : Uri)
  (document : option TextDocument) (now : Z) : SymbolIndex :=
  match document with
  | None => idx
  | Some document =>
      let moduleName :=
        or_else (getModuleDirectiveName document) (getModuleName (fsPath uri)) in
      let exports := parseExports document in
      let imports := parseImports document in
      let moduleInfo :=
        {| mod_uri := uri; mod_name := moduleName; mod_exports := exports;
           mod_imports := imports; indexed := true; lastModified := now |} in
      let idx1 :=
        {| modules := smap_set (modules idx) (fsPath uri) moduleInfo;
           symbolsByModule := symbolsByModule idx;
           symbolsByName := symbolsByName idx;
           wildcardImportsByDocument := wildcardImportsByDocument idx |} in
      let idx2 := indexSymbols idx1 moduleInfo in
      indexWildcardImports idx2 uri imports
  end.
End Indexing.

(** One turn of the loop of [removeFile] on the name-based index. *)
Definition removeByName (fs : string) (byName : StrMap (list SymbolInfo))
  (exportStmt : ExportStatement) : StrMap (list SymbolInfo) :=
  match smap_get byName (symbolName exportStmt) with
  | Some syms =>
      let filtered :=
        filter (fun s => negb (String.eqb (fsPath (sym_moduleUri s)) fs)) syms in
      if (0 <? List.length filtered)%nat
      then smap_set byName (symbolName exportStmt) filtered
      else smap_delete byName (symbolName exportStmt)
  | None => byName
  end.

Definition removeFile (idx : SymbolIndex) (uri : Uri) : SymbolIndex :=
  match smap_get (modules idx) (fsPath uri) with
  | None => idx
  | Some moduleInfo =>
      {| modules := smap_delete (modules idx) (fsPath uri);
         symbolsByModule := smap_delete (symbolsByModule idx) (mod_name moduleInfo);
         symbolsByName :=
           fold_left (removeByName (fsPath uri)) (mod_exports moduleInfo)
                     (symbolsByName idx);
         wildcardImportsByDocument := wildcardImportsByDocument idx |}
  end.

Definition getModuleExports (idx : SymbolIndex) (moduleName : string)
  : list SymbolInfo :=
  get_or_nil (smap_get (symbolsByModule idx) moduleName).

Definition getSymbolsByName (idx : SymbolIndex) (name : string)
  : list SymbolInfo :=
  get_or_nil (smap_get (symbolsByName idx) name).

Definition getModuleByName (idx : SymbolIndex) (moduleName : string)
  : option ModuleInfo :=
  find (fun m => String.eqb (mod_name m) moduleName)
       (JsMap.values (modules idx)).

Definition getModuleByUri (idx : SymbolIndex) (uri : Uri) : option ModuleInfo :=
  smap_get (modules idx) (fsPath uri).

Definition isSymbolExportedBy (idx : SymbolIndex) (symbolName moduleName : string)
  : bool :=
  some (fun s => String.eqb (sym_name s) symbolName)
       (getModuleExports idx moduleName).

Definition findModuleExportingSymbol (idx : SymbolIndex) (symbolName : string)
  : list string :=
  map fst
    (filter (fun e => some (fun s => String.eqb (sym_name s) symbolName) (snd e))
            (JsMap.entries (symbolsByModule idx))).

Definition getAllModules (idx : SymbolIndex) : list ModuleInfo :=
  JsMap.values (modules idx).

Definition getWildcardImportedSymbols (idx : SymbolIndex) (uri : Uri)
  : list SymbolInfo :=
  match smap_get (wildcardImportsByDocument idx) (fsPath uri) with
  | None => []
  | Some wildcardModules =>
      if (List.length wildcardModules =? 0)%nat then []
      else flat_map (getModuleExports idx) wildcardModules
  end.

Definition isSymbolFromWildcardImport (idx : SymbolIndex) (uri : Uri)
  (symbolName : string) : bool :=
  some (fun s => String.eqb (sym_name s) symbolName)
       (getWildcardImportedSymbols idx uri).

Definition getWildcardImportSourceModule (idx : SymbolIndex) (uri : Uri)
  (symbolName : string) : option string :=
  match smap_get (wildcardImportsByDocument idx) (fsPath uri) with
  | None => None
  | Some wildcardModules =>
      find (fun moduleName => isSymbolExportedBy idx symbolName moduleName)
           wildcardModules
  end.

(** *** Circular dependencies

    [detectCircularDependencies] runs the local closure [dfs] over three
    mutable locals: [cycles], [visited] and [path].  The closure recurses
    through the imports of each module it enters, so the embedding carries
    a recursion budget: [None] means the budget ran out. *)

Record DfsState := {
  cycles : list (list string);
  visited : list string;
  path : list string
}.

Fixpoint dfs (fuel : nat) (idx : SymbolIndex) (moduleName : string)
  (st : DfsState) : option DfsState :=
  match fuel with
  | O => None
  | S fuel' =>
      if includes (path st) moduleName then
        let cycleStart := indexOf (path st) moduleName in
        Some {| cycles := cycles st ++ [skipn cycleStart (path st) ++ [moduleName]];
                visited := visited st;
                path := path st |}
      else if includes (visited st) moduleName then Some st
      else
        let st1 := {| cycles := cycles st;
                      visited := visited st ++ [moduleName];
                      path := path st ++ [moduleName] |} in
        let after_imports :=
          match getModuleByName idx moduleName with
          | Some module =>
              fold_left
                (fun acc importStmt =>
                   match acc with
                   | Some s => dfs fuel' idx (import_moduleName importStmt) s
                   | None => None
                   end)
                (mod_imports module) (Some st1)
          | None => Some st1
          end in
        match after_imports with
        | Some s => Some {| cycles := cycles s; visited := visited s;
                            path := removelast (path s) |}
        | None => None
        end
  end.

(** Every module on [path] but the last entered one is an indexed module
    with a distinct name, and the call that reports a cycle is one level
    deeper: the number of indexed modules plus two bounds the depth. *)
Definition dfs_budget (idx : SymbolIndex) : nat :=
  List.length (modules idx) + 2.

Definition detectCircularDependencies (idx : SymbolIndex) (startModule : string)
  : option (list (list string)) :=
  match dfs (dfs_budget idx) idx startModule
            {| cycles := []; visited := []; path := [] |} with
  | Some st => Some (cycles st)
  | None => None
  end.

(* ================================================================== *)
(** ** The regular expressions of the two classes

    [\w] is [[A-Za-z0-9_]]; [\b] holds between two neighbouring
    positions exactly one of which holds a word character (the outside of
    the text counts as a non-word character). *)

Definition is_word_char (c : ascii) : bool :=
  let n := nat_of_ascii c in
  ((48 <=? n) && (n <=? 57) || (65 <=? n) && (n <=? 90)
   || (97 <=? n) && (n <=? 122) || (n =? 95))%nat.

Definition head_is_word (s : string) : bool :=
  match s with
  | String c _ => is_word_char c
  | EmptyString => false
  end.

Fixpoint all_word (s : string) : bool :=
  match s with
  | String c s' => is_word_char c && all_word s'
  | EmptyString => true
  end.

(** A name the pattern [\w+] matches as a whole. *)
Definition is_identifier (s : string) : bool :=
  negb (String.eqb s EmptyString) && all_word s.

Fixpoint str_drop (n : nat) (s : string) : string :=
  match n, s with
  | S n', String _ s' => str_drop n' s'
  | _, _ => s
  end.

(** [String.prototype.includes]. *)
Fixpoint str_includes (needle hay : string) : bool :=
  String.prefix needle hay
  || match hay with
     | String _ rest => str_includes needle rest
     | EmptyString => false
     end.

(** The longest run of word characters that starts [s], and what follows. *)
Fixpoint word_run (s : string) : string * string :=
  match s with
  | String c s' =>
      if is_word_char c
      then let (w, r) := word_run s' in (String c w, r)
      else (EmptyString, s)
  | EmptyString => (EmptyString, EmptyString)
  end.

(** [/Variable '(\w+)'/] anchored at the start of [s]: the greedy [\w+]
    takes the whole run, and giving characters back cannot help, since the
    character after a shorter run is a word character and not a quote. *)
Definition match_variable_here (s : string) : option string :=
  if String.prefix "Variable '" s then
    let (w, r) := word_run (str_drop 10 s) in
    if negb (String.eqb w EmptyString) && String.prefix "'" r then Some w else None
  else None.

(** [message.match(/Variable '(\w+)'/)]: capture group 1 of the leftmost
    match. *)
Fixpoint match_variable (s : string) : option string :=
  match match_variable_here s with
  | Some w => Some w
  | None =>
      match s with
      | String _ s' => match_variable s'
      | EmptyString => None
      end
  end.

Definition boundary (prev : bool) (s : string) : bool :=
  xorb prev (head_is_word s).

Fixpoint last_is_word (prev : bool) (s : string) : bool :=
  match s with
  | String c s' => last_is_word (is_word_char c) s'
  | EmptyString => prev
  end.

(** The source splices a name into a pattern as it is, without escaping
    it.  A name made of word characters stands for itself in the pattern.
    A name with any other character may be read as regular-expression
    syntax (a dot matches any character, a bracket opens a class) or make
    [new RegExp] throw; such patterns are not modelled, and [None] stands
    for them. *)
Definition splicedName (name : string) : option string :=
  if is_identifier name then Some name else None.

(** The pattern [\b name \b], for a [name] of word characters, at the
    start of [s]; [prev] tells whether the character before [s] is a word
    character. *)
Definition word_match_here (name : string) (prev : bool) (s : string) : bool :=
  boundary prev s && String.prefix name s
  && boundary (last_is_word prev name) (str_drop (String.length name) s).

(** [text.match(regex)] with the [g] flag: the number of matches, each
    search resuming where the previous match ended ([skip] characters of
    the current match are still to be passed). *)
Fixpoint count_matches (name : string) (prev : bool) (skip : nat) (s : string)
  : nat :=
  match s with
  | EmptyString =>
      if (skip =? 0)%nat && word_match_here name prev EmptyString then 1 else 0
  | String c s' =>
      match skip with
      | S k => count_matches name (is_word_char c) k s'
      | O =>
          if word_match_here name prev s
          then S (count_matches name (is_word_char c) (String.length name - 1) s')
          else count_matches name (is_word_char c) 0 s'
      end
  end.

Definition match_count (name text : string) : nat :=
  count_matches name false 0 text.

(** [regex.test(text)] for the pattern [\b moduleName \.], with a
    [moduleName] of word characters: some position of the text is at a
    word boundary and followed by the name and a dot. *)
Fixpoint test_access_from (moduleName : string) (prev : bool) (s : string)
  : bool :=
  boundary prev s && String.prefix (moduleName ++ ".") s
  || match s with
     | String c s' => test_access_from moduleName (is_word_char c) s'
     | EmptyString => false
     end.

Definition test_access (moduleName text : string) : bool :=
  test_access_from moduleName false text.

(** *** Unused imports *)

(** [symbol.alias || symbol.name]. *)
Definition usedName (symbol : ImportedSymbol) : string :=
  or_else (alias symbol) (imported_name symbol).

(** The inner loop of [getUnusedImports], with its pattern
    [new RegExp(`\\b${symbolName}\\b`, 'g')]: the value of [allUnused] when
    the loop ends, [break] included; [None] when a pattern built on the
    way is outside the model. *)
Fixpoint allUnused (text : string) (syms : list ImportedSymbol) : option bool :=
  match syms with
  | [] => Some true
  | symbol :: rest =>
      match splicedName (usedName symbol) with
      | Some name =>
          if (1 <? match_count name text)%nat then Some false
          else allUnused text rest
      | None => None
      end
  end.

(** Whether one turn of the outer loop pushes [importStmt] on [unused];
    the pattern of a default import is
    [new RegExp(`\\b${importStmt.moduleName}\\\.`, 'g')]. *)
Definition reportsUnused (text : string) (importStmt : ImportStatement)
  : option bool :=
  if isWildcard importStmt then Some false
  else if String.eqb (import_type importStmt) "default"
  then option_map (fun name => negb (test_access name text))
                  (splicedName (import_moduleName importStmt))
  else if String.eqb (import_type importStmt) "named"
  then allUnused text (symbols importStmt)
  else Some false.

(** The outer loop of [getUnusedImports] over [imports]. *)
Fixpoint unusedAmong (text : string) (imports : list ImportStatement)
  : option (list ImportStatement) :=
  match imports with
  | [] => Some []
  | importStmt :: rest =>
      match reportsUnused text importStmt with
      | Some report =>
          option_map (fun unused => if report then importStmt :: unused else unused)
                     (unusedAmong text rest)
      | None => None
      end
  end.

Section UnusedImports.
  Context {TextDocument : Type} `{Scanner TextDocument}.

(** [getUnusedImports]: [Some unused] is the array the promise resolves
    to. *)
Definition getUnusedImports (document : TextDocument)
  : option (list ImportStatement) :=
  let imports := parseImports document in
  let text := getText document in
  unusedAmong text imports.
End UnusedImports.

(* ================================================================== *)
(** ** DiagnosticAggregator *)

Inductive DiagnosticSource := alpha | lsp | static | custom.

Definition source_eqb (a b : DiagnosticSource) : bool :=
  match a, b with
  | alpha, alpha | lsp, lsp | static, static | custom, custom => true
  | _, _ => false
  end.

(** Lower number = higher priority. *)
Definition SOURCE_PRIORITY (s : DiagnosticSource) : Z :=
  match s with
  | alpha => 1
  | lsp => 2
  | static => 3
  | custom => 4
  end.

(** [vscode.DiagnosticSeverity]. *)
Inductive VsSeverity := Error | Warning | Information | Hint.

Record DiagnosticCode := { code_value : string; code_target : string }.

(** [Position.isBefore] of the editor API. *)
Definition isBefore (a b : Position) : bool :=
  ((line a <? line b) || (line a =? line b) && (character a <? character b))%Z.

(** [new vscode.Range(startLine, startCharacter, endLine, endCharacter)].
    The editor API orders the two positions it is given: when the first is
    not before the second, the range holds them swapped. *)
Definition newRange (startLine startCharacter endLine endCharacter : Z) : Range :=
  let first := {| line := startLine; character := startCharacter |} in
  let second := {| line := endLine; character := endCharacter |} in
  if isBefore first second
  then {| start := first; range_end := second |}
  else {| start := second; range_end := first |}.

(** [vscode.Diagnostic]. *)
Record Diagnostic := {
  range : Range;
  message : string;
  severity : VsSeverity;
  source : string;
  code : option DiagnosticCode
}.

(** The raw diagnostic of the interpreter, [AlphaDiagnostic]: positions are
    1-based, [severity] is the interpreter's own word. *)
Record AlphaDiagnostic := {
  a_file : string;
  a_line : Z;
  a_column : Z;
  a_endLine : Z;
  a_endColumn : Z;
  a_message : string;
  a_severity : string;
  a_extra : option string;
  a_source : option string;
  a_code : option string
}.

Record AggregatedDiagnostic := {
  diagnostic : Diagnostic;
  agg_source : DiagnosticSource;
  priority : Z
}.

Definition SrcMap (V : Type) : Type := list (DiagnosticSource * V).

Record DiagnosticAggregator := {
  (** one [vscode.DiagnosticCollection] per source, keyed by file *)
  collections : SrcMap (StrMap (list Diagnostic));
  diagnostics : StrMap (SrcMap (list Diagnostic))
}.

(** The constructor. *)
Definition newAggregator : DiagnosticAggregator :=
  {| collections :=
       fold_left (fun m s => JsMap.set source_eqb m s []) [alpha; lsp; static; custom] [];
     diagnostics := [] |}.

(** Node's [path.normalize]. *)
Class PathLib := { path_normalize : string -> string }.

Definition lower_char (c : ascii) : ascii :=
  let n := nat_of_ascii c in
  if ((65 <=? n) && (n <=? 90))%nat then ascii_of_nat (n + 32) else c.

(** [String.prototype.toLowerCase], on the ASCII letters. *)
Fixpoint toLowerCase (s : string) : string :=
  match s with
  | String c s' => String (lower_char c) (toLowerCase s')
  | EmptyString => EmptyString
  end.

(** [s.replace(/\\/g, '/')]. *)
Fixpoint backslashes_to_slashes (s : string) : string :=
  match s with
  | String c s' =>
      String (if Ascii.eqb c "\"%char then "/"%char else c)
             (backslashes_to_slashes s')
  | EmptyString => EmptyString
  end.

Definition normalizeUri (uri : Uri) : string :=
  backslashes_to_slashes (toLowerCase (fsPath uri)).

Definition normalizeFilePath `{PathLib} (filePath : string) : string :=
  toLowerCase (path_normalize filePath).

Definition setDiagnostics (agg : DiagnosticAggregator) (uri : Uri)
  (src : DiagnosticSource) (diags : list Diagnostic) : DiagnosticAggregator :=
  let key := normalizeUri uri in
  let fileDiagnostics :=
    match smap_get (diagnostics agg) key with
    | Some fd => fd
    | None => []
    end in
  {| diagnostics :=
       smap_set (diagnostics agg) key (JsMap.set source_eqb fileDiagnostics src diags);
     collections :=
       match JsMap.get source_eqb (collections agg) src with
       | Some collection =>
           JsMap.set source_eqb (collections agg) src
                     (smap_set collection (fsPath uri) diags)
       | None => collections agg
       end |}.

Definition toVsCodeSeverity (sev : string) : VsSeverity :=
  if String.eqb sev "error" then Error
  else if String.eqb sev "warning" then Warning
  else if String.eqb sev "info" then Information
  else if String.eqb sev "hint" then Hint
  else Error.

Definition newline : string := String (ascii_of_nat 10) EmptyString.

(** [Math.max(0, d.endColumn - 1) || 999]. *)
Definition endCharacter (endColumn : Z) : Z :=
  let c := Z.max 0 (endColumn - 1) in
  if (c =? 0)%Z then 999%Z else c.

Definition convertAlphaDiagnostic (d : AlphaDiagnostic) : Diagnostic :=
  let rng :=
    newRange (Z.max 0 (a_line d - 1))
             (Z.max 0 (a_column d - 1))
             (Z.max 0 (a_endLine d - 1))
             (endCharacter (a_endColumn d)) in
  let msg :=
    match a_extra d with
    | Some extra =>
        if truthy (a_extra d)
        then (a_message d ++ newline ++ "Specifically: " ++ extra)%string
        else a_message d
    | None => a_message d
    end in
  {| range := rng;
     message := msg;
     severity := toVsCodeSeverity (a_severity d);
     source := or_else (a_source d) "ahk-alpha";
     code :=
       match a_code d with
       | Some c =>
           if truthy (a_code d)
           then Some {| code_value := c;
                        code_target := "https://www.autohotkey.com/docs/v2/" |}
           else None
       | None => None
       end |}.

Definition isWildcardImportSymbolWarning (symbolIndex : SymbolIndex) (uri : Uri)
  (d : AlphaDiagnostic) : bool :=
  if negb (str_includes "appears to never be assigned" (a_message d)) then false
  else
    match match_variable (a_message d) with
    | None => false
    | Some variableName => isSymbolFromWildcardImport symbolIndex uri variableName
    end.

Section Alpha.
  Context `{PathLib}.

(** [setAlphaDiagnostics]; [symbolIndex] is the state of the singleton
    [SymbolIndex.getInstance()] at the time of the call. *)
Definition setAlphaDiagnostics (symbolIndex : SymbolIndex)
  (agg : DiagnosticAggregator) (uri : Uri)
  (alphaDiagnostics : list AlphaDiagnostic) : DiagnosticAggregator :=
  let diags :=
    map convertAlphaDiagnostic
      (filter (fun d => negb (isWildcardImportSymbolWarning symbolIndex uri d))
         (filter (fun d => String.eqb (normalizeFilePath (a_file d))
                                      (normalizeFilePath (fsPath uri)))
                 alphaDiagnostics)) in
  setDiagnostics agg uri alpha diags.
End Alpha.

(** The comparator handed to [Array.prototype.sort]. *)
Definition compareFn (a b : AggregatedDiagnostic) : Z :=
  if negb (priority a =? priority b)%Z then (priority a - priority b)%Z
  else (line (start (range (diagnostic a)))
        - line (start (range (diagnostic b))))%Z.

(** [Array.prototype.sort(compare)] is a stable sort; [compareFn] orders by
    a key, so the sorted array is the one stable rearrangement in ascending
    key order, which insertion from the right computes. *)
Fixpoint insert_before (x : AggregatedDiagnostic) (l : list AggregatedDiagnostic)
  : list AggregatedDiagnostic :=
  match l with
  | [] => [x]
  | y :: l' =>
      if (compareFn x y <=? 0)%Z then x :: y :: l' else y :: insert_before x l'
  end.

Definition sort (l : list AggregatedDiagnostic) : list AggregatedDiagnostic :=
  fold_right insert_before [] l.

(** The array [result] of [getDiagnostics] before it is sorted. *)
Definition merged (fileDiagnostics : SrcMap (list Diagnostic))
  : list AggregatedDiagnostic :=
  flat_map
    (fun entry =>
       map (fun d => {| diagnostic := d; agg_source := fst entry;
                        priority := SOURCE_PRIORITY (fst entry) |})
           (snd entry))
    fileDiagnostics.

Definition getDiagnostics (agg : DiagnosticAggregator) (uri : Uri)
  : list AggregatedDiagnostic :=
  match smap_get (diagnostics agg) (normalizeUri uri) with
  | None => []
  | Some fileDiagnostics => sort (merged fileDiagnostics)
  end.

Definition getDiagnosticsFromSource (agg : DiagnosticAggregator) (uri : Uri)
  (src : DiagnosticSource) : list Diagnostic :=
  match smap_get (diagnostics agg) (normalizeUri uri) with
  | Some fileDiagnostics => get_or_nil (JsMap.get source_eqb fileDiagnostics src)
  | None => []
  end.

Definition clearDiagnostics (agg : DiagnosticAggregator) (uri : Uri)
  (src : option DiagnosticSource) : DiagnosticAggregator :=
  let key := normalizeUri uri in
  match src with
  | Some s =>
      {| diagnostics :=
           match smap_get (diagnostics agg) key with
           | Some fd => smap_set (diagnostics agg) key (JsMap.delete source_eqb fd s)
           | None => diagnostics agg
           end;
         collections :=
           match JsMap.get source_eqb (collections agg) s with
           | Some collection =>
               JsMap.set source_eqb (collections agg) s
                         (smap_delete collection (fsPath uri))
           | None => collections agg
           end |}
  | None =>
      {| diagnostics := smap_delete (diagnostics agg) key;
         collections :=
           map (fun e => (fst e, smap_delete (snd e) (fsPath uri)))
               (collections agg) |}
  end.

Definition clearAll (agg : DiagnosticAggregator) : DiagnosticAggregator :=
  {| diagnostics := [];
     collections := map (fun e => (fst e, [])) (collections agg) |}.

(** A number printed by a template literal. *)
Definition number_to_string (z : Z) : string :=
  NilZero.string_of_int (Z.to_int z).

Definition diagnosticKey (d : Diagnostic) : string :=
  (number_to_string (line (start (range d))) ++ ":"
   ++ number_to_string (character (start (range d))) ++ ":"
   ++ String.substring 0 50 (message d))%string.

(** One turn of the loop of [getDeduplicatedDiagnostics] on [seen]. *)
Definition see (seen : StrMap Diagnostic) (a : AggregatedDiagnostic)
  : StrMap Diagnostic :=
  let key := diagnosticKey (diagnostic a) in
  if negb (smap_has seen key) then smap_set seen key (diagnostic a) else seen.

Definition getDeduplicatedDiagnostics (agg : DiagnosticAggregator) (uri : Uri)
  : list Diagnostic :=
  let aggregated := getDiagnostics agg uri in
  JsMap.values (fold_left see aggregated []).

(* ================================================================== *)
(** ** A sample workspace

    The scenario of the specification: module [Arr] exports [Sum] and a
    default [Report]; document [Main] writes [import * from Arr] and calls
    [Sum].  A document is given by what the scanner reads off it. *)

Record ScannedDocument := {
  sd_text : string;
  sd_directive : option string;
  sd_exports : list ExportStatement;
  sd_imports : list ImportStatement
}.

#[export] Instance scannedDocument : Scanner ScannedDocument := {|
  getText := sd_text;
  getModuleDirectiveName := sd_directive;
  getModuleName := fun fsPath => fsPath;
  parseExports := sd_exports;
  parseImports := sd_imports
|}.

#[export] Instance identityPath : PathLib := {| path_normalize := fun p => p |}.

Definition lineRange (l c1 c2 : Z) : Range :=
  {| start := {| line := l; character := c1 |};
     range_end := {| line := l; character := c2 |} |}.

Definition arrUri : Uri := {| fsPath := "c:\ws\Arr.ahk" |}.
Definition mainUri : Uri := {| fsPath := "c:\ws\Main.ahk" |}.

Definition exportSum : ExportStatement :=
  {| symbolName := "Sum"; symbolType := "function"; export_range := lineRange 2 0 10 |}.
Definition exportReport : ExportStatement :=
  {| symbolName := "Report"; symbolType := "function"; export_range := lineRange 9 0 21 |}.

Definition arrDoc : ScannedDocument :=
  {| sd_text := "#Module Arr
export Sum(a) {
}
export default Report(a) {
}";
     sd_directive := Some "Arr";
     sd_exports := [exportSum; exportReport];
     sd_imports := [] |}.

Definition importAllArr : ImportStatement :=
  {| import_type := "wildcard"; import_moduleName := "Arr"; symbols := [];
     isWildcard := true |}.

Definition mainDoc : ScannedDocument :=
  {| sd_text := "#Module Main
import * from Arr
MsgBox Sum([1,2,3])";
     sd_directive := Some "Main";
     sd_exports := [];
     sd_imports := [importAllArr] |}.

(** The index after [Arr] and then [Main] were indexed. *)
Definition sampleIndex : SymbolIndex :=
  indexFile (indexFile emptyIndex arrUri (Some arrDoc) 1000) mainUri (Some mainDoc) 1001.

(** The interpreter's warning about [variableName]. *)
Definition neverAssignedMessage (variableName : string) : string :=
  "Variable '" ++ variableName ++ "' appears to never be assigned".

Definition neverAssigned (variableName : string) : AlphaDiagnostic :=
  {| a_file := "c:\ws\Main.ahk"; a_line := 3; a_column := 8; a_endLine := 3;
     a_endColumn := 11;
     a_message := neverAssignedMessage variableName;
     a_severity := "warning"; a_extra := None; a_source := None; a_code := None |}.

(** Three modules importing one another in a ring. *)
Definition importFrom (target symbol : string) : ImportStatement :=
  {| import_type := "named"; import_moduleName := target;
     symbols := [{| imported_name := symbol; alias := None |}];
     isWildcard := false |}.

Definition ringDoc (self target : string) : ScannedDocument :=
  {| sd_text := "import {f} from " ++ target;
     sd_directive := Some self;
     sd_exports := [];
     sd_imports := [importFrom target "f"] |}.

Definition ringIndex : SymbolIndex :=
  indexFile
    (indexFile
       (indexFile emptyIndex {| fsPath := "c:\ws\A.ahk" |} (Some (ringDoc "A" "B")) 1)
       {| fsPath := "c:\ws\B.ahk" |} (Some (ringDoc "B" "C")) 2)
    {| fsPath := "c:\ws\C.ahk" |} (Some (ringDoc "C" "A")) 3.


(** The interpreter reports [Sum] and [Total] of [Main] as never assigned. *)
Definition sampleRaws : list AlphaDiagnostic :=
  [neverAssigned "Sum"; neverAssigned "Total"].

Definition aggregatorAfterAlpha : DiagnosticAggregator :=
  setAlphaDiagnostics sampleIndex newAggregator mainUri sampleRaws.

(** A document that imports two names and calls only one of them. *)
Definition importSumAvg : ImportStatement :=
  {| import_type := "named"; import_moduleName := "Arr";
     symbols := [{| imported_name := "Sum"; alias := None |};
                 {| imported_name := "Avg"; alias := None |}];
     isWildcard := false |}.

Definition statsDoc : ScannedDocument :=
  {| sd_text := "import {Sum, Avg} from Arr
x := Avg([1,2,3])";
     sd_directive := None;
     sd_exports := [];
     sd_imports := [importSumAvg] |}.

(* ================================================================== *)
(** ** Notions the statements use *)

Definition named (n : string) (s : SymbolInfo) : bool := String.eqb (sym_name s) n.

Section SymbolsOf.
  Context {TextDocument : Type} `{Scanner TextDocument}.

(** The symbols [indexFile] derives from a document. *)
Definition symbolsOf (uri : Uri) (document : TextDocument) : list SymbolInfo :=
  map (fun e =>
         {| sym_name := symbolName e;
            sym_moduleName :=
              or_else (getModuleDirectiveName document) (getModuleName (fsPath uri));
            sym_moduleUri := uri;
            sym_type := symbolType e;
            sym_location := {| loc_uri := uri; loc_range := export_range e |} |})
      (parseExports document).
End SymbolsOf.

(** How many indexed modules [dfs] has not entered yet. *)
Definition unvisited (idx : SymbolIndex) (seen : list string) : nat :=
  List.length
    (filter (fun n => negb (includes seen n))
            (map mod_name (JsMap.values (modules idx)))).

Definition startLine (a : AggregatedDiagnostic) : Z :=
  line (start (range (diagnostic a))).

(** Ascending order on the pair (priority rank, start line). *)
Definition rank_line_le (a b : AggregatedDiagnostic) : Prop :=
  (priority a < priority b
   \/ (priority a = priority b /\ startLine a <= startLine b))%Z.

(** The entries whose (priority rank, start line) is [(p, l)]. *)
Definition at_rank_line (p l : Z) (a : AggregatedDiagnostic) : bool :=
  ((priority a =? p) && (startLine a =? l))%Z.

(** The per-producer lists held for a file, as [getDiagnostics] reads them. *)
Definition fileDiagnosticsOf (agg : DiagnosticAggregator) (uri : Uri)
  : SrcMap (list Diagnostic) :=
  match smap_get (diagnostics agg) (normalizeUri uri) with
  | Some fileDiagnostics => fileDiagnostics
  | None => []
  end.

(** The key the deduplication compares: start line, start column and the
    first 50 characters of the message. *)
Definition keyTriple (d : Diagnostic) : Z * Z * string :=
  (line (start (range d)), character (start (range d)),
   String.substring 0 50 (message d)).

Fixpoint colon_free (s : string) : bool :=
  match s with
  | String c s' => negb (Ascii.eqb c ":"%char) && colon_free s'
  | EmptyString => true
  end.

(** The entries [getDeduplicatedDiagnostics] adds to [seen] while it walks
    [l], given the keys [seen] holds already. *)
Fixpoint firstByKey (seenKeys : list string) (l : list AggregatedDiagnostic)
  : list (string * Diagnostic) :=
  match l with
  | [] => []
  | a :: l' =>
      let key := diagnosticKey (diagnostic a) in
      if includes seenKeys key then firstByKey seenKeys l'
      else (key, diagnostic a) :: firstByKey (seenKeys ++ [key]) l'
  end.

Section Accepted.
  Context `{PathLib}.

(** The raw diagnostic names the file of [uri]. *)
Definition sameFile (uri : Uri) (d : AlphaDiagnostic) : bool :=
  String.eqb (normalizeFilePath (a_file d)) (normalizeFilePath (fsPath uri)).

(** The raw diagnostics [setAlphaDiagnostics] accepts for storage. *)
Definition accepted (symbolIndex : SymbolIndex) (uri : Uri)
  (alphaDiagnostics : list AlphaDiagnostic) : list AlphaDiagnostic :=
  filter (fun d => negb (isWildcardImportSymbolWarning symbolIndex uri d))
         (filter (sameFile uri) alphaDiagnostics).
End Accepted.

(** A raw diagnostic with a negative end column. *)
Definition negativeEndColumn : AlphaDiagnostic :=
  {| a_file := "c:\ws\Main.ahk"; a_line := 3; a_column := 1; a_endLine := 3;
     a_endColumn := -5; a_message := "Unexpected token";
     a_severity := "fatal"; a_extra := None; a_source := None; a_code := None |}.

(** Every name [getUnusedImports] splices into a pattern for [importStmt]
    is made of word characters: the module name of a default import, and
    the alias, or else the name, of every symbol of a named import. *)
Definition plainImport (importStmt : ImportStatement) : bool :=
  if isWildcard importStmt then true
  else if String.eqb (import_type importStmt) "default"
  then is_identifier (import_moduleName importStmt)
  else if String.eqb (import_type importStmt) "named"
  then forallb (fun symbol => is_identifier (usedName symbol)) (symbols importStmt)
  else true.

Fixpoint has_char (c : ascii) (s : string) : bool :=
  match s with
  | String c' s' => Ascii.eqb c' c || has_char c s'
  | EmptyString => false
  end.

(** What [convertAlphaDiagnostic] appends to the raw message. *)
Definition extraSuffix (d : AlphaDiagnostic) : string :=
  match a_extra d with
  | Some extra =>
      if truthy (a_extra d) then (newline ++ "Specifically: " ++ extra)%string
      else EmptyString
  | None => EmptyString
  end.

(** The modules a document wildcard-imports, as the index records them. *)
Definition wildcardModulesOf (idx : SymbolIndex) (uri : Uri) : list string :=
  get_or_nil (smap_get (wildcardImportsByDocument idx) (fsPath uri)).

(** The indexed module [moduleName] exports a symbol named [symbolName]. *)
Definition exportsSymbol (idx : SymbolIndex) (moduleName symbolName : string)
  : Prop :=
  exists s, In s (getModuleExports idx moduleName) /\ sym_name s = symbolName.


(** A name with letters outside ASCII, one character per UTF-16 code unit:
    [Gr], o with diaeresis (U+00F6), sharp s (U+00DF), [e]. *)
Definition umlautName : string :=
  "Gr" ++ String (ascii_of_nat 246) (String (ascii_of_nat 223) "e").

Definition exportUmlaut : ExportStatement :=
  {| symbolName := umlautName; symbolType := "function";
     export_range := lineRange 2 0 12 |}.

Definition umlautDoc : ScannedDocument :=
  {| sd_text := "#Module Arr" ++ newline ++ "export " ++ umlautName ++ "(a) {"
                ++ newline ++ "}";
     sd_directive := Some "Arr";
     sd_exports := [exportUmlaut];
     sd_imports := [] |}.

(** The index after this [Arr] and then [Main], which wildcard-imports it,
    were indexed. *)
Definition umlautIndex : SymbolIndex :=
  indexFile (indexFile emptyIndex arrUri (Some umlautDoc) 1000)
            mainUri (Some mainDoc) 1001.
(* ================================================================== *)
(** ** The rest of SymbolIndex *)

(** [Array.prototype.sort()] without a comparator on an array of strings:
    ascending order of code units. *)
Fixpoint insert_name (x : string) (l : list string) : list string :=
  match l with
  | [] => [x]
  | y :: l' => if String.leb x y then x :: y :: l' else y :: insert_name x l'
  end.

Definition sort_names (l : list string) : list string :=
  fold_right insert_name [] l.

Definition getAllSymbolNames (idx : SymbolIndex) : list string :=
  sort_names (JsMap.keys (symbolsByName idx)).

Definition removeFileFromIndex (idx : SymbolIndex) (uri : Uri) : SymbolIndex :=
  removeFile idx uri.

(** The singleton with its re-entrancy flag. *)
Record Indexer := {
  index : SymbolIndex;
  indexingInProgress : bool
}.

Section Workspace.
  Context {TextDocument : Type} `{Scanner TextDocument}.

(** One file of the workspace scan: its location, what [openTextDocument]
    resolved to and the clock when its [indexFile] ran. *)
Definition ScannedFile : Type := (Uri * option TextDocument * Z)%type.

Definition indexScanned (idx : SymbolIndex) (f : ScannedFile) : SymbolIndex :=
  indexFile idx (fst (fst f)) (snd (fst f)) (snd f).

(** [indexWorkspace], from the call to the moment [Promise.all] resolves.
    The bodies of the [indexFile] calls run one at a time, each after its
    own [openTextDocument] resolved; [completed] lists the files in the
    order in which that happened. *)
Definition indexWorkspace (st : Indexer) (completed : list ScannedFile) : Indexer :=
  if indexingInProgress st then st
  else
    {| index := fold_left indexScanned completed emptyIndex;
       indexingInProgress := false |}.

(** The symbols one scanned file contributes. *)
Definition symbolsOfScanned (f : ScannedFile) : list SymbolInfo :=
  match snd (fst f) with
  | Some document => symbolsOf (fst (fst f)) document
  | None => []
  end.
End Workspace.

(** *** Notions the statements about the index use *)

(** Every bucket of the name-based index holds a symbol, and no map holds
    a key twice. *)
Definition bucketsNonEmpty (byName : StrMap (list SymbolInfo)) : Prop :=
  forall n syms, In (n, syms) byName -> syms <> [].

Definition wfIndex (idx : SymbolIndex) : Prop :=
  NoDup (JsMap.keys (modules idx))
  /\ NoDup (JsMap.keys (symbolsByModule idx))
  /\ NoDup (JsMap.keys (symbolsByName idx))
  /\ NoDup (JsMap.keys (wildcardImportsByDocument idx))
  /\ bucketsNonEmpty (symbolsByName idx).

(** [a] imports [b]: an edge of the import graph. *)
Definition importsModule (idx : SymbolIndex) (a b : string) : Prop :=
  exists m, getModuleByName idx a = Some m
            /\ In b (map import_moduleName (mod_imports m)).

(** Each module of [l] imports the next one. *)
Fixpoint importChain (idx : SymbolIndex) (l : list string) : Prop :=
  match l with
  | a :: ((b :: _) as rest) => importsModule idx a b /\ importChain idx rest
  | _ => True
  end.

(** A closed walk of the import graph: it returns to the module it starts
    from along at least one import. *)
Definition importCycle (idx : SymbolIndex) (c : list string) : Prop :=
  exists first body, c = first :: body ++ [first] /\ importChain idx c.

(** A document of the sample workspace that also exports [Sum]. *)
Definition mainDocWithExport : ScannedDocument :=
  {| sd_text := "import * from Arr
export Sum(a) {
}";
     sd_directive := Some "Main";
     sd_exports := [{| symbolName := "Sum"; symbolType := "function";
                       export_range := lineRange 1 0 14 |}];
     sd_imports := [importAllArr] |}.

(* ================================================================== *)
(** ** The rest of DiagnosticAggregator *)

Record Counts := { errors : nat; warnings : nat; info : nat; hints : nat }.

Definition noCounts : Counts :=
  {| errors := 0; warnings := 0; info := 0; hints := 0 |}.

(** One turn of the loop of [iterate]: the [switch] on the severity. *)
Definition countOne (counts : Counts) (d : Diagnostic) : Counts :=
  match severity d with
  | Error =>
      {| errors := S (errors counts); warnings := warnings counts;
         info := info counts; hints := hints counts |}
  | Warning =>
      {| errors := errors counts; warnings := S (warnings counts);
         info := info counts; hints := hints counts |}
  | Information =>
      {| errors := errors counts; warnings := warnings counts;
         info := S (info counts); hints := hints counts |}
  | Hint =>
      {| errors := errors counts; warnings := warnings counts;
         info := info counts; hints := S (hints counts) |}
  end.

Definition iterate (counts : Counts) (diags : list Diagnostic) : Counts :=
  fold_left countOne diags counts.

(** [getCounts(uri?)]: one file, or every tracked file when [uri] is
    omitted. *)
Definition getCounts (agg : DiagnosticAggregator) (uri : option Uri) : Counts :=
  match uri with
  | Some uri =>
      match smap_get (diagnostics agg) (normalizeUri uri) with
      | Some fileDiagnostics =>
          fold_left iterate (JsMap.values fileDiagnostics) noCounts
      | None => noCounts
      end
  | None =>
      fold_left
        (fun counts fileDiagnostics =>
           fold_left iterate (JsMap.values fileDiagnostics) counts)
        (JsMap.values (diagnostics agg)) noCounts
  end.

Definition hasErrors (agg : DiagnosticAggregator) (uri : Uri) : bool :=
  (0 <? errors (getCounts agg (Some uri)))%nat.

(** *** Notions the statements about the aggregator use *)

Definition totalCount (c : Counts) : nat :=
  errors c + warnings c + info c + hints c.

Definition isError (d : Diagnostic) : bool :=
  match severity d with Error => true | _ => false end.

(** The shape of an aggregator the constructor builds and the mutators
    keep: no file and no producer is held twice, and each of the four
    producers has its collection. *)
Definition wfAggregator (agg : DiagnosticAggregator) : Prop :=
  NoDup (JsMap.keys (diagnostics agg))
  /\ (forall key fileDiagnostics,
        In (key, fileDiagnostics) (diagnostics agg) ->
        NoDup (JsMap.keys fileDiagnostics))
  /\ NoDup (JsMap.keys (collections agg))
  /\ (forall src, exists collection,
        JsMap.get source_eqb (collections agg) src = Some collection).

(** The diagnostics the editor shows for a producer and a file: the entry
    of that producer's collection. *)
Definition published (agg : DiagnosticAggregator) (src : DiagnosticSource)
  (uri : Uri) : option (list Diagnostic) :=
  match JsMap.get source_eqb (collections agg) src with
  | Some collection => smap_get collection (fsPath uri)
  | None => None
  end.

Definition upperUri : Uri := {| fsPath := "C:\WS\Main.ahk" |}.
Definition slashUri : Uri := {| fsPath := "c:/ws/main.ahk" |}.

(* ================================================================== *)
(** ** ToolboxSidebarProvider: escaping *)

(** [s.replace(/c/g, rep)] for a pattern that is one literal character. *)
Fixpoint replace_char (c : ascii) (rep : string) (s : string) : string :=
  match s with
  | String x s' =>
      if Ascii.eqb x c then (rep ++ replace_char c rep s')%string
      else String x (replace_char c rep s')
  | EmptyString => EmptyString
  end.

Definition dquote : ascii := ascii_of_nat 34.

Definition escapeHtml (value : string) : string :=
  replace_char ">"%char "&gt;"
    (replace_char "<"%char "&lt;"
       (replace_char "&"%char "&amp;" value)).

Definition escapeAttribute (value : string) : string :=
  replace_char dquote "&quot;" (escapeHtml value).

(** The entity of one character, as one pass over the text would write
    it. *)
Definition htmlEntity (c : ascii) : string :=
  if Ascii.eqb c "&"%char then "&amp;"
  else if Ascii.eqb c "<"%char then "&lt;"
  else if Ascii.eqb c ">"%char then "&gt;"
  else String c EmptyString.

Fixpoint escapeOnePass (s : string) : string :=
  match s with
  | String c s' => (htmlEntity c ++ escapeOnePass s')%string
  | EmptyString => EmptyString
  end.

(* ================================================================== *)
(** ** StringHelpers.ahk

    The AutoHotkey module of string helpers.  [StrLen] counts characters;
    [StrUpper] and [StrLower] act on the ASCII letters. *)

Definition StrLen (s : string) : Z := Z.of_nat (String.length s).

(** [loop needed { padding .= padChar }]. *)
Fixpoint appendTimes (n : nat) (padding padChar : string) : string :=
  match n with
  | O => padding
  | S k => appendTimes k (padding ++ padChar) padChar
  end.

Definition Pad (text : string) (length : Z) (padChar : string) : string :=
  if (length <=? StrLen text)%Z then text
  else
    let needed := (length - StrLen text)%Z in
    let padding := appendTimes (Z.to_nat needed) EmptyString padChar in
    (text ++ padding)%string.

Definition upper_char (c : ascii) : ascii :=
  let n := nat_of_ascii c in
  if ((97 <=? n) && (n <=? 122))%nat then ascii_of_nat (n - 32) else c.

Fixpoint StrUpper (s : string) : string :=
  match s with
  | String c s' => String (upper_char c) (StrUpper s')
  | EmptyString => EmptyString
  end.

Definition StrLower (s : string) : string := toLowerCase s.

(** The pieces of a text between its spaces; never an empty list. *)
Fixpoint splitSpaces (s : string) : list string :=
  match s with
  | EmptyString => [EmptyString]
  | String c s' =>
      if Ascii.eqb c " "%char then EmptyString :: splitSpaces s'
      else
        match splitSpaces s' with
        | w :: ws => String c w :: ws
        | [] => [String c EmptyString]
        end
  end.

(** [StrSplit(text, ' ')]: an empty text gives an array without elements. *)
Definition StrSplit (text : string) : list string :=
  match text with
  | EmptyString => []
  | _ => splitSpaces text
  end.

(** [StrLen(word) ? StrUpper(SubStr(word, 1, 1)) . StrLower(SubStr(word, 2)) : ''] *)
Definition capitalize (word : string) : string :=
  match word with
  | String c rest =>
      (StrUpper (String c EmptyString) ++ StrLower rest)%string
  | EmptyString => EmptyString
  end.

(** One turn of the second loop of [TitleCase]; [index] counts from 1. *)
Definition joinStep (acc : string * nat) (word : string) : string * nat :=
  let (result, index) := acc in
  ((result ++ (if (1 <? index)%nat then " " else EmptyString) ++ word)%string,
   S index).

Definition TitleCase (text : string) : string :=
  let words := map capitalize (StrSplit text) in
  fst (fold_left joinStep words (EmptyString, 1)).

(** [TitleCase] read character by character: a character is put in upper
    case when it starts the text or follows a space, in lower case
    otherwise; spaces stay. *)
Fixpoint titleScan (atStart : bool) (s : string) : string :=
  match s with
  | String c s' =>
      if Ascii.eqb c " "%char then String c (titleScan true s')
      else String (if atStart then upper_char c else lower_char c)
                  (titleScan false s')
  | EmptyString => EmptyString
  end.

Fixpoint joinFrom (first : bool) (ws : list string) : string :=
  match ws with
  | [] => EmptyString
  | w :: ws' =>
      ((if first then EmptyString else " ") ++ w ++ joinFrom false ws')%string
  end.

Section Slug.
  (** The class [\s] of the regular-expression engine. *)
  Context (is_space : ascii -> bool).

(** [RegExReplace(text, '[^\w\s-]', '')]. *)
Fixpoint removeOthers (s : string) : string :=
  match s with
  | String c s' =>
      if is_word_char c || is_space c || Ascii.eqb c "-"%char
      then String c (removeOthers s')
      else removeOthers s'
  | EmptyString => EmptyString
  end.

(** [RegExReplace(cleaned, '\s+', '-')]: every maximal run of white space
    becomes one hyphen; [inRun] tells that the run has begun. *)
Fixpoint collapseSpaces (inRun : bool) (s : string) : string :=
  match s with
  | String c s' =>
      if is_space c then
        if inRun then collapseSpaces true s'
        else String "-"%char (collapseSpaces true s')
      else String c (collapseSpaces false s')
  | EmptyString => EmptyString
  end.

Fixpoint trimLeft (s : string) : string :=
  match s with
  | String c s' => if Ascii.eqb c "-"%char then trimLeft s' else s
  | EmptyString => EmptyString
  end.

Fixpoint trimRight (s : string) : string :=
  match s with
  | String c s' =>
      match trimRight s' with
      | EmptyString => if Ascii.eqb c "-"%char then EmptyString else String c EmptyString
      | t => String c t
      end
  | EmptyString => EmptyString
  end.

(** [Trim(s, '-')]. *)
Definition Trim (s : string) : string := trimRight (trimLeft s).

Definition Slugify (text : string) : string :=
  let cleaned := removeOthers text in
  let cleaned := collapseSpaces false cleaned in
  StrLower (Trim cleaned).
End Slug.

(** A character of a slug: a digit, a small letter, an underscore or a
    hyphen. *)
Definition slug_char (c : ascii) : bool :=
  (is_word_char c && Ascii.eqb (lower_char c) c) || Ascii.eqb c "-"%char.

Fixpoint all_chars (p : ascii -> bool) (s : string) : bool :=
  match s with
  | String c s' => p c && all_chars p s'
  | EmptyString => true
  end.

Definition starts_with_hyphen (s : string) : bool :=
  match s with
  | String c _ => Ascii.eqb c "-"%char
  | EmptyString => false
  end.

Fixpoint ends_with_hyphen (s : string) : bool :=
  match s with
  | String c EmptyString => Ascii.eqb c "-"%char
  | String _ s' => ends_with_hyphen s'
  | EmptyString => false
  end.

(** [\s] of PCRE as AutoHotkey ships it: space, tab, line feed, form feed
    and carriage return. *)
Definition pcre_space (c : ascii) : bool :=
  let n := nat_of_ascii c in
  ((n =? 32) || (n =? 9) || (n =? 10) || (n =? 12) || (n =? 13))%nat.

(* ================================================================== *)
(** ** ToolboxSidebarProvider: the documentation header *)

(** A value of [JSDocMetadata]: a string or an array of strings. *)
Inductive MetaValue :=
| MetaString (value : string)
| MetaArray (items : list string).

Definition headerOpen : string :=
  "/************************************************************************".

Definition headerClose : string :=
  " ***********************************************************************/".

Definition tagOrder : list string :=
  ["file"; "title"; "fileoverview"; "abstract"; "description"; "module"; "author"; "license"; "version"; "since"; "date"; "homepage"; "repository"; "link"; "see"; "keywords"; "category"; "ahk-version"; "requires"; "imports"; "exports"; "entrypoint"; "env"; "permissions"; "config"; "arguments"; "returns"; "sideEffects"; "examples"; "bugs"; "todo"; "changelog"; "funding"; "maintainer"; "contributors"].

Definition newlineChar : ascii := ascii_of_nat 10.

(** [s.split('\n')]: never an empty array. *)
Fixpoint splitLines (s : string) : list string :=
  match s with
  | EmptyString => [EmptyString]
  | String c s' =>
      if Ascii.eqb c newlineChar then EmptyString :: splitLines s'
      else
        match splitLines s' with
        | l :: ls => String c l :: ls
        | [] => [String c EmptyString]
        end
  end.

(** [lines.join('\n')]. *)
Fixpoint joinLines (ls : list string) : string :=
  match ls with
  | [] => EmptyString
  | [l] => l
  | l :: rest => (l ++ String newlineChar (joinLines rest))%string
  end.

(** The lines one turn of the loop over [tagOrder] pushes. *)
Definition tagLines (metadata : StrMap MetaValue) (tag : string) : list string :=
  match smap_get metadata tag with
  | None => []
  | Some (MetaString value) =>
      if String.eqb value EmptyString then []
      else
        match splitLines value with
        | [_] => [(" * @" ++ tag ++ ": " ++ value)%string]
        | first :: rest =>
            (" * @" ++ tag ++ ": " ++ first)%string
            :: map (fun l => (" * " ++ l)%string) rest
        | [] => []
        end
  | Some (MetaArray items) =>
      map (fun item => (" * @" ++ tag ++ ": " ++ item)%string) items
  end.

Definition headerLines (metadata : StrMap MetaValue) : list string :=
  headerOpen :: flat_map (tagLines metadata) tagOrder ++ [headerClose].

Definition generateJSDocHeader (metadata : StrMap MetaValue) : string :=
  joinLines (headerLines metadata).

(** Every item of every array value is a single line. *)
Definition singleLineItems (metadata : StrMap MetaValue) : Prop :=
  forall tag items item,
    smap_get metadata tag = Some (MetaArray items) ->
    In item items -> has_char newlineChar item = false.

(* ================================================================== *)
(** * Properties *)

(** ** Facts about the containers *)

Section JsMapFacts.
  Context {K V : Type} (keq : K -> K -> bool).
  Hypothesis keq_spec : forall a b, reflect (a = b) (keq a b).

Lemma jsmap_get_set (m : JsMap.t (K:=K) (V:=V)) k v k' :
  JsMap.get keq (JsMap.set keq m k v) k'
  = if keq k k' then Some v else JsMap.get keq m k'.
Proof.
  induction m as [|[k0 v0] m IH]; simpl.
  - reflexivity.
  - destruct (keq_spec k0 k) as [->|Hne]; simpl.
    + destruct (keq_spec k k'); reflexivity.
    + rewrite IH. destruct (keq_spec k0 k') as [->|]; [|reflexivity].
      destruct (keq_spec k k'); congruence.
Qed.

Lemma jsmap_get_delete (m : JsMap.t (K:=K) (V:=V)) k k' :
  JsMap.get keq (JsMap.delete keq m k) k'
  = if keq k k' then None else JsMap.get keq m k'.
Proof.
  unfold JsMap.delete.
  induction m as [|[k0 v0] m IH]; simpl.
  - destruct (keq k k'); reflexivity.
  - destruct (keq_spec k0 k) as [->|Hne]; simpl.
    + rewrite IH. destruct (keq_spec k k'); reflexivity.
    + rewrite IH. destruct (keq_spec k0 k') as [->|]; [|reflexivity].
      destruct (keq_spec k k'); congruence.
Qed.

Lemma jsmap_set_absent (m : JsMap.t (K:=K) (V:=V)) k v :
  JsMap.get keq m k = None -> JsMap.set keq m k v = m ++ [(k, v)].
Proof.
  induction m as [|[k0 v0] m IH]; simpl; [reflexivity|].
  destruct (keq k0 k); [discriminate|].
  intros Hm. now rewrite IH.
Qed.

Lemma jsmap_get_app (m1 m2 : JsMap.t (K:=K) (V:=V)) k :
  JsMap.get keq (m1 ++ m2) k
  = match JsMap.get keq m1 k with
    | Some v => Some v
    | None => JsMap.get keq m2 k
    end.
Proof.
  induction m1 as [|[k0 v0] m1 IH]; simpl; [reflexivity|].
  destruct (keq k0 k); [reflexivity|apply IH].
Qed.

Lemma jsmap_get_In (m : JsMap.t (K:=K) (V:=V)) k v :
  JsMap.get keq m k = Some v -> In (k, v) m.
Proof.
  induction m as [|[k0 v0] m IH]; simpl; [discriminate|].
  destruct (keq_spec k0 k) as [->|].
  - intros [= ->]. now left.
  - intros Hm. right. now apply IH.
Qed.

Lemma jsmap_get_None (m : JsMap.t (K:=K) (V:=V)) k :
  JsMap.get keq m k = None <-> ~ In k (JsMap.keys m).
Proof.
  induction m as [|[k0 v0] m IH]; simpl.
  - tauto.
  - destruct (keq_spec k0 k) as [->|Hne].
    + split; [discriminate|]. intros Hn. exfalso. apply Hn. now left.
    + rewrite IH. tauto.
Qed.
Lemma jsmap_set_set (m : JsMap.t (K:=K) (V:=V)) k v v' :
  JsMap.set keq (JsMap.set keq m k v) k v' = JsMap.set keq m k v'.
Proof.
  induction m as [|[k0 v0] m IH]; simpl.
  - destruct (keq_spec k k); [reflexivity|congruence].
  - destruct (keq_spec k0 k) as [->|Hne]; simpl.
    + destruct (keq_spec k k); [reflexivity|congruence].
    + destruct (keq_spec k0 k); [congruence|]. now rewrite IH.
Qed.

Lemma jsmap_delete_delete (m : JsMap.t (K:=K) (V:=V)) k :
  JsMap.delete keq (JsMap.delete keq m k) k = JsMap.delete keq m k.
Proof.
  unfold JsMap.delete. induction m as [|[k0 v0] m IH]; simpl; [reflexivity|].
  destruct (keq k0 k) eqn:E; simpl; [exact IH|]. now rewrite E, IH.
Qed.
End JsMapFacts.

Lemma source_eqb_spec a b : reflect (a = b) (source_eqb a b).
Proof. destruct a, b; constructor; congruence. Qed.

Lemma smap_get_set {V} (m : StrMap V) k v k' :
  smap_get (smap_set m k v) k' = if String.eqb k k' then Some v else smap_get m k'.
Proof. apply jsmap_get_set, String.eqb_spec. Qed.

Lemma smap_get_delete {V} (m : StrMap V) k k' :
  smap_get (smap_delete m k) k' = if String.eqb k k' then None else smap_get m k'.
Proof. apply jsmap_get_delete, String.eqb_spec. Qed.

Lemma existsb_flat_map {A B} (f : B -> bool) (g : A -> list B) l :
  existsb f (flat_map g l) = existsb (fun x => existsb f (g x)) l.
Proof.
  induction l as [|x l IH]; simpl; [reflexivity|].
  now rewrite existsb_app, IH.
Qed.

Lemma find_is_some {A} (p : A -> bool) l :
  existsb p l = true <-> exists x, find p l = Some x.
Proof.
  induction l as [|y l IH]; simpl.
  - split; [discriminate|]. now intros [x Hx].
  - destruct (p y); simpl.
    + split; eauto.
    + exact IH.
Qed.

(** ** Wildcard queries *)

(** C10: the membership query [isSymbolFromWildcardImport] answers [true]
    exactly when the resolving query [getWildcardImportSourceModule] names
    a module; both read the same wildcard-import record and the same
    per-module exports. *)
Theorem wildcard_membership_iff_source (idx : SymbolIndex) (uri : Uri)
  (symbolName : string) :
  isSymbolFromWildcardImport idx uri symbolName = true
  <-> exists moduleName,
        getWildcardImportSourceModule idx uri symbolName = Some moduleName.
Proof.
  unfold isSymbolFromWildcardImport, getWildcardImportSourceModule,
    getWildcardImportedSymbols, some.
  destruct (smap_get (wildcardImportsByDocument idx) (fsPath uri)) as [wm|].
  - destruct wm as [|m wm].
    + simpl. split; [discriminate|]. now intros [x Hx].
    + cbn [List.length Nat.eqb]. rewrite existsb_flat_map.
      apply find_is_some.
  - simpl. split; [discriminate|]. now intros [x Hx].
Qed.

(** ** Re-indexing and removal *)

Lemma smap_get_addByName m s n :
  smap_get (addByName m s) n
  = if String.eqb (sym_name s) n
    then Some (get_or_nil (smap_get m (sym_name s)) ++ [s])
    else smap_get m n.
Proof.
  unfold addByName, smap_has, JsMap.has.
  fold (smap_get m (sym_name s)).
  destruct (smap_get m (sym_name s)) as [l|] eqn:Hm.
  - rewrite smap_get_set, Hm. reflexivity.
  - rewrite !smap_get_set, String.eqb_refl.
    destruct (String.eqb (sym_name s) n); reflexivity.
Qed.

Lemma getSymbols_fold_addByName syms m n :
  get_or_nil (smap_get (fold_left addByName syms m) n)
  = get_or_nil (smap_get m n) ++ filter (named n) syms.
Proof.
  revert m. induction syms as [|s syms IH]; intros m; simpl.
  - now rewrite app_nil_r.
  - rewrite IH, smap_get_addByName. unfold named at 2.
    destruct (String.eqb_spec (sym_name s) n) as [->|Hne]; simpl.
    + now rewrite <- app_assoc.
    + reflexivity.
Qed.

Section Reindex.
  Context {TextDocument : Type} `{Scanner TextDocument}.

Lemma getSymbolsByName_indexFile idx uri document now n :
  getSymbolsByName (indexFile idx uri (Some document) now) n
  = getSymbolsByName idx n ++ filter (named n) (symbolsOf uri document).
Proof.
  unfold getSymbolsByName, indexFile, indexWildcardImports, indexSymbols.
  cbn [symbolsByName mod_exports].
  apply getSymbols_fold_addByName.
Qed.

(** What a second [indexFile] of an unchanged document leaves as it was:
    the per-module symbols, the wildcard-import record and, up to the time
    stamp, the module record. *)
Lemma reindex_other_maps idx uri document t1 t2 :
  let once := indexFile idx uri (Some document) t1 in
  let twice := indexFile once uri (Some document) t2 in
  symbolsByModule twice = symbolsByModule once
  /\ wildcardImportsByDocument twice = wildcardImportsByDocument once
  /\ modules twice = modules (indexFile idx uri (Some document) t2).
Proof.
  unfold indexFile, indexWildcardImports, indexSymbols.
  cbn [symbolsByModule wildcardImportsByDocument modules mod_name].
  split; [|split].
  - apply (jsmap_set_set String.eqb String.eqb_spec).
  - destruct (0 <? List.length (map import_moduleName
                                  (filter isWildcard (parseImports document))))%nat.
    + apply (jsmap_set_set String.eqb String.eqb_spec).
    + apply jsmap_delete_delete.
  - apply (jsmap_set_set String.eqb String.eqb_spec).
Qed.

(** C1 (the code departs from the claim): indexing an unchanged document
    a second time does not clear what its first scan put in the
    name-to-symbols map.  For every exported name the second
    [indexFile] answers [getSymbolsByName] with the first answer followed
    by a non-empty run of symbols that the first answer already holds, so
    the two answers differ and the map holds duplicates. *)
Theorem reindex_duplicates_symbolsByName (idx : SymbolIndex) (uri : Uri)
  (document : TextDocument) (t1 t2 : Z) (e : ExportStatement) :
  In e (parseExports document) ->
  let once := indexFile idx uri (Some document) t1 in
  let twice := indexFile once uri (Some document) t2 in
  exists dup,
    dup <> []
    /\ getSymbolsByName twice (symbolName e)
       = getSymbolsByName once (symbolName e) ++ dup
    /\ (forall s, In s dup -> In s (getSymbolsByName once (symbolName e)))
    /\ getSymbolsByName twice (symbolName e)
       <> getSymbolsByName once (symbolName e).
Proof.
  intros He once twice.
  exists (filter (named (symbolName e)) (symbolsOf uri document)).
  assert (Hne : filter (named (symbolName e)) (symbolsOf uri document) <> []).
  { intros Hnil.
    assert (Hin : In (mkSymbol {| mod_uri := uri;
                       mod_name := or_else (getModuleDirectiveName document)
                                           (getModuleName (fsPath uri));
                       mod_exports := []; mod_imports := []; indexed := true;
                       lastModified := 0 |} e)
                     (filter (named (symbolName e)) (symbolsOf uri document))).
    { apply filter_In. split.
      - unfold symbolsOf. apply in_map_iff. exists e. split; [reflexivity|exact He].
      - unfold named. simpl. apply String.eqb_refl. }
    rewrite Hnil in Hin. exact Hin. }
  assert (Heq : getSymbolsByName twice (symbolName e)
                = getSymbolsByName once (symbolName e)
                  ++ filter (named (symbolName e)) (symbolsOf uri document)).
  { unfold twice. apply getSymbolsByName_indexFile. }
  repeat split.
  - exact Hne.
  - exact Heq.
  - intros s Hs. unfold once. rewrite getSymbolsByName_indexFile.
    apply in_or_app. now right.
  - rewrite Heq. intros Habs.
    apply (f_equal (@List.length _)) in Habs.
    rewrite length_app in Habs.
    destruct (filter (named (symbolName e)) (symbolsOf uri document));
      [now apply Hne|simpl in Habs; lia].
Qed.
End Reindex.

Lemma reindex_duplicates_symbolsByName_witness :
  getSymbolsByName (indexFile emptyIndex arrUri (Some arrDoc) 1000) "Sum"
  = [mkSymbol {| mod_uri := arrUri; mod_name := "Arr"; mod_exports := [];
                 mod_imports := []; indexed := true; lastModified := 0 |} exportSum]
  /\ exists dup,
      dup <> []
      /\ getSymbolsByName
           (indexFile (indexFile emptyIndex arrUri (Some arrDoc) 1000)
                      arrUri (Some arrDoc) 1001) "Sum"
         = getSymbolsByName (indexFile emptyIndex arrUri (Some arrDoc) 1000) "Sum"
           ++ dup
      /\ (forall s, In s dup ->
            In s (getSymbolsByName (indexFile emptyIndex arrUri (Some arrDoc) 1000) "Sum"))
      /\ getSymbolsByName
           (indexFile (indexFile emptyIndex arrUri (Some arrDoc) 1000)
                      arrUri (Some arrDoc) 1001) "Sum"
         <> getSymbolsByName (indexFile emptyIndex arrUri (Some arrDoc) 1000) "Sum".
Proof.
  split; [reflexivity|].
  apply (reindex_duplicates_symbolsByName emptyIndex arrUri arrDoc 1000 1001 exportSum).
  simpl. left. reflexivity.
Defined.

Lemma getModuleExports_removeFile_other idx uri moduleInfo m :
  getModuleByUri idx uri = Some moduleInfo ->
  m <> mod_name moduleInfo ->
  getModuleExports (removeFile idx uri) m = getModuleExports idx m.
Proof.
  unfold getModuleByUri, getModuleExports, removeFile. intros -> Hne.
  cbn [symbolsByModule]. rewrite smap_get_delete.
  destruct (String.eqb_spec (mod_name moduleInfo) m); [congruence|reflexivity].
Qed.

Lemma wildcardImports_removeFile idx uri :
  wildcardImportsByDocument (removeFile idx uri) = wildcardImportsByDocument idx.
Proof.
  unfold removeFile.
  destruct (smap_get (modules idx) (fsPath uri)); reflexivity.
Qed.

Lemma filter_filter {A} (p : A -> bool) l : filter p (filter p l) = filter p l.
Proof.
  induction l as [|x l IH]; simpl; [reflexivity|].
  destruct (p x) eqn:E; simpl; [now rewrite E, IH|exact IH].
Qed.

Lemma getSymbols_removeByName fs m e n :
  get_or_nil (smap_get (removeByName fs m e) n)
  = if String.eqb (symbolName e) n
    then filter (fun s => negb (String.eqb (fsPath (sym_moduleUri s)) fs))
                (get_or_nil (smap_get m n))
    else get_or_nil (smap_get m n).
Proof.
  unfold removeByName.
  destruct (String.eqb_spec (symbolName e) n) as [->|Hne].
  - destruct (smap_get m n) as [syms|] eqn:Hm; [|now rewrite Hm].
    destruct (filter _ syms) as [|s0 l] eqn:Hf; cbn [List.length Nat.ltb Nat.leb].
    + now rewrite smap_get_delete, String.eqb_refl.
    + now rewrite smap_get_set, String.eqb_refl.
  - destruct (smap_get m (symbolName e)) as [syms|]; [|reflexivity].
    apply String.eqb_neq in Hne.
    destruct (0 <? _)%nat; [rewrite smap_get_set|rewrite smap_get_delete];
      now rewrite Hne.
Qed.

Lemma getSymbols_fold_removeByName fs es m n :
  In n (map symbolName es) ->
  get_or_nil (smap_get (fold_left (removeByName fs) es m) n)
  = filter (fun s => negb (String.eqb (fsPath (sym_moduleUri s)) fs))
           (get_or_nil (smap_get m n)).
Proof.
  assert (Hkeep : forall es m,
             get_or_nil (smap_get m n)
             = filter (fun s => negb (String.eqb (fsPath (sym_moduleUri s)) fs))
                      (get_or_nil (smap_get m n)) ->
             get_or_nil (smap_get (fold_left (removeByName fs) es m) n)
             = get_or_nil (smap_get m n)).
  { clear es m. induction es as [|e es IH]; intros m Hm; [reflexivity|].
    simpl. rewrite IH; rewrite getSymbols_removeByName;
      destruct (String.eqb (symbolName e) n); auto.
    now rewrite filter_filter. }
  revert m. induction es as [|e es IH]; intros m; simpl; [contradiction|].
  intros [<-|Hin].
  - rewrite Hkeep; rewrite getSymbols_removeByName, String.eqb_refl;
      [reflexivity|now rewrite filter_filter].
  - rewrite (IH _ Hin), getSymbols_removeByName.
    destruct (String.eqb (symbolName e) n); [apply filter_filter|reflexivity].
Qed.

(** What [removeFile] does remove: the module record (see the theorem
    below) and, under every name the module exports, the symbols of this
    file. *)
Lemma removeFile_drops_symbols idx uri moduleInfo e s :
  getModuleByUri idx uri = Some moduleInfo ->
  In e (mod_exports moduleInfo) ->
  In s (getSymbolsByName (removeFile idx uri) (symbolName e)) ->
  fsPath (sym_moduleUri s) <> fsPath uri.
Proof.
  unfold getModuleByUri, getSymbolsByName, removeFile. intros -> He.
  cbn [symbolsByName].
  rewrite getSymbols_fold_removeByName by (now apply in_map).
  intros Hs. apply filter_In in Hs. destruct Hs as [_ Hs].
  apply negb_true_iff in Hs. now apply String.eqb_neq.
Qed.

(** C3 (the code departs from the claim): [removeFile] leaves the
    wildcard-import record of the removed document in place.  When the
    document wildcard-imports another module that is still indexed, every
    name that module exports is still reported as wildcard-imported by the
    removed document, and [getWildcardImportedSymbols] is not empty. *)
Theorem removeFile_keeps_wildcard_record (idx : SymbolIndex) (uri : Uri)
  (moduleInfo : ModuleInfo) (wildcardModules : list string)
  (moduleName symbolName : string) :
  getModuleByUri idx uri = Some moduleInfo ->
  smap_get (wildcardImportsByDocument idx) (fsPath uri) = Some wildcardModules ->
  In moduleName wildcardModules ->
  moduleName <> mod_name moduleInfo ->
  isSymbolExportedBy idx symbolName moduleName = true ->
  getModuleByUri (removeFile idx uri) uri = None
  /\ smap_get (wildcardImportsByDocument (removeFile idx uri)) (fsPath uri)
     = Some wildcardModules
  /\ isSymbolFromWildcardImport (removeFile idx uri) uri symbolName = true
  /\ getWildcardImportedSymbols (removeFile idx uri) uri <> [].
Proof.
  intros Hmod Hwild Hin Hne Hexp.
  assert (Hquery : isSymbolFromWildcardImport (removeFile idx uri) uri symbolName = true).
  { unfold isSymbolFromWildcardImport, getWildcardImportedSymbols, some.
    rewrite wildcardImports_removeFile, Hwild.
    destruct wildcardModules as [|m0 wm]; [contradiction|].
    cbn [List.length Nat.eqb]. rewrite existsb_flat_map.
    apply existsb_exists. exists moduleName. split; [exact Hin|].
    rewrite (getModuleExports_removeFile_other idx uri moduleInfo); assumption. }
  repeat split.
  - unfold getModuleByUri in *. unfold removeFile. rewrite Hmod.
    cbn [modules]. rewrite smap_get_delete, String.eqb_refl. reflexivity.
  - now rewrite wildcardImports_removeFile.
  - exact Hquery.
  - intros Hnil. unfold isSymbolFromWildcardImport in Hquery.
    rewrite Hnil in Hquery. discriminate.
Qed.

Lemma removeFile_keeps_wildcard_record_witness :
  getModuleByUri (removeFile sampleIndex mainUri) mainUri = None
  /\ smap_get (wildcardImportsByDocument (removeFile sampleIndex mainUri))
              (fsPath mainUri) = Some ["Arr"]
  /\ isSymbolFromWildcardImport (removeFile sampleIndex mainUri) mainUri "Sum" = true
  /\ getWildcardImportedSymbols (removeFile sampleIndex mainUri) mainUri <> [].
Proof.
  apply (removeFile_keeps_wildcard_record sampleIndex mainUri
           {| mod_uri := mainUri; mod_name := "Main"; mod_exports := [];
              mod_imports := [importAllArr]; indexed := true; lastModified := 1001 |}
           ["Arr"] "Arr" "Sum").
  - reflexivity.
  - reflexivity.
  - simpl. left. reflexivity.
  - simpl. discriminate.
  - reflexivity.
Defined.

(** ** Circular dependencies *)

Lemma find_In {A} (p : A -> bool) l x : find p l = Some x -> In x l /\ p x = true.
Proof. apply find_some. Qed.

Lemma two_members_length {A} (l : list A) x y :
  In x l -> In y l -> x <> y -> 2 <= List.length l.
Proof.
  destruct l as [|a [|b l]]; simpl; intros Hx Hy Hne.
  - contradiction.
  - destruct Hx as [<-|[]], Hy as [<-|[]]. congruence.
  - lia.
Qed.

Lemma getModuleByName_name idx n m : getModuleByName idx n = Some m -> mod_name m = n.
Proof.
  unfold getModuleByName. intros Hf. apply find_some in Hf.
  now apply String.eqb_eq.
Qed.

Lemma single_import (m : ModuleInfo) (target : string) :
  map import_moduleName (mod_imports m) = [target] ->
  exists i, mod_imports m = [i] /\ import_moduleName i = target.
Proof.
  destruct (mod_imports m) as [|i [|j l]]; simpl; try discriminate.
  intros [= <-]. now exists i.
Qed.

(** C4: with [A] importing [B], [B] importing [C] and [C] importing [A],
    and no other import in the three modules,
    [detectCircularDependencies A] returns exactly one cycle, the path
    slice [A; B; C] followed by the repeated module [A]. *)
Theorem detect_three_module_cycle (idx : SymbolIndex) (A B C : string)
  (mA mB mC : ModuleInfo) :
  A <> B -> B <> C -> A <> C ->
  getModuleByName idx A = Some mA ->
  getModuleByName idx B = Some mB ->
  getModuleByName idx C = Some mC ->
  map import_moduleName (mod_imports mA) = [B] ->
  map import_moduleName (mod_imports mB) = [C] ->
  map import_moduleName (mod_imports mC) = [A] ->
  detectCircularDependencies idx A = Some [[A; B; C; A]].
Proof.
  intros HAB HBC HAC HA HB HC HiA HiB HiC.
  assert (Hlen : 2 <= List.length (modules idx)).
  { unfold getModuleByName in HA, HB.
    apply find_some in HA, HB. destruct HA as [HA1 HA2], HB as [HB1 HB2].
    apply String.eqb_eq in HA2, HB2.
    unfold JsMap.values in *. rewrite <- (length_map snd).
    apply (two_members_length _ mA mB); try assumption.
    intros ->. congruence. }
  destruct (single_import _ _ HiA) as (iA & EA & <-).
  destruct (single_import _ _ HiB) as (iB & EB & <-).
  destruct (single_import _ _ HiC) as (iC & EC & <-).
  assert (E1 : String.eqb (import_moduleName iA) (import_moduleName iC) = false)
    by (apply String.eqb_neq; congruence).
  assert (E2 : String.eqb (import_moduleName iB) (import_moduleName iC) = false)
    by (apply String.eqb_neq; congruence).
  assert (E3 : String.eqb (import_moduleName iB) (import_moduleName iA) = false)
    by (apply String.eqb_neq; congruence).
  assert (E4 : String.eqb (import_moduleName iC) (import_moduleName iA) = false)
    by (apply String.eqb_neq; congruence).
  assert (E5 : String.eqb (import_moduleName iC) (import_moduleName iB) = false)
    by (apply String.eqb_neq; congruence).
  assert (E6 : String.eqb (import_moduleName iA) (import_moduleName iB) = false)
    by (apply String.eqb_neq; congruence).
  unfold detectCircularDependencies, dfs_budget.
  rewrite Nat.add_comm.
  destruct (List.length (modules idx)) as [|[|k]]; try lia.
  cbn [Nat.add dfs includes existsb path visited cycles orb].
  rewrite HA, EA.
  cbn [fold_left dfs includes existsb path visited cycles orb app].
  rewrite ?E1, ?E2, ?E3, ?E4, ?E5, ?E6. cbn [orb].
  rewrite HB, EB.
  cbn [fold_left dfs includes existsb path visited cycles orb app].
  rewrite ?E1, ?E2, ?E3, ?E4, ?E5, ?E6. cbn [orb].
  rewrite HC, EC.
  cbn [fold_left dfs includes existsb path visited cycles orb app].
  rewrite ?String.eqb_refl. cbn [orb indexOf].
  rewrite ?String.eqb_refl.
  cbn [skipn app removelast cycles visited path].
  reflexivity.
Qed.

Lemma detect_three_module_cycle_witness :
  detectCircularDependencies ringIndex "A" = Some [["A"; "B"; "C"; "A"]].
Proof.
  apply (detect_three_module_cycle ringIndex "A" "B" "C"
           {| mod_uri := {| fsPath := "c:\ws\A.ahk" |}; mod_name := "A";
              mod_exports := []; mod_imports := [importFrom "B" "f"];
              indexed := true; lastModified := 1 |}
           {| mod_uri := {| fsPath := "c:\ws\B.ahk" |}; mod_name := "B";
              mod_exports := []; mod_imports := [importFrom "C" "f"];
              indexed := true; lastModified := 2 |}
           {| mod_uri := {| fsPath := "c:\ws\C.ahk" |}; mod_name := "C";
              mod_exports := []; mod_imports := [importFrom "A" "f"];
              indexed := true; lastModified := 3 |});
    try discriminate; reflexivity.
Defined.

(** *** The recursion budget of [dfs] is never exhausted *)

Lemma filter_length_mono {A} (p q : A -> bool) l :
  (forall x, q x = true -> p x = true) ->
  List.length (filter q l) <= List.length (filter p l).
Proof.
  intros Hpq. induction l as [|x l IH]; simpl; [lia|].
  destruct (q x) eqn:Hq.
  - rewrite (Hpq x Hq). simpl. lia.
  - destruct (p x); simpl; lia.
Qed.

Lemma filter_length_strict {A} (p q : A -> bool) l x :
  (forall y, q y = true -> p y = true) ->
  In x l -> p x = true -> q x = false ->
  List.length (filter q l) < List.length (filter p l).
Proof.
  intros Hpq. induction l as [|y l IH]; simpl; [contradiction|].
  intros [->|Hin] Hp Hq.
  - rewrite Hp, Hq. simpl.
    pose proof (filter_length_mono p q l Hpq). lia.
  - specialize (IH Hin Hp Hq).
    destruct (q y) eqn:Hqy.
    + rewrite (Hpq y Hqy). simpl. lia.
    + destruct (p y); simpl; lia.
Qed.

Lemma includes_app l1 l2 x : includes (l1 ++ l2) x = includes l1 x || includes l2 x.
Proof. apply existsb_app. Qed.

Lemma includes_single x y : includes [x] y = String.eqb y x.
Proof. unfold includes. simpl. apply orb_false_r. Qed.

Lemma unvisited_mono idx seen seen' :
  (forall x, includes seen x = true -> includes seen' x = true) ->
  unvisited idx seen' <= unvisited idx seen.
Proof.
  intros Hsub. apply filter_length_mono. intros x Hx.
  destruct (includes seen x) eqn:E; [|reflexivity].
  now rewrite (Hsub x E) in Hx.
Qed.

Lemma unvisited_enter idx seen n m :
  getModuleByName idx n = Some m ->
  includes seen n = false ->
  unvisited idx (seen ++ [n]) < unvisited idx seen.
Proof.
  intros Hm Hn. unfold getModuleByName in Hm. apply find_some in Hm.
  destruct Hm as [Hin Hname]. apply String.eqb_eq in Hname.
  apply (filter_length_strict _ _ _ n).
  - intros y Hy. rewrite includes_app in Hy.
    destruct (includes seen y); [discriminate|reflexivity].
  - rewrite <- Hname. now apply in_map.
  - now rewrite Hn.
  - now rewrite includes_app, includes_single, String.eqb_refl, orb_true_r.
Qed.

Lemma dfs_returns (idx : SymbolIndex) (fuel : nat) :
  forall moduleName st,
    unvisited idx (visited st) + 2 <= fuel ->
    exists st',
      dfs fuel idx moduleName st = Some st'
      /\ forall x, includes (visited st) x = true -> includes (visited st') x = true.
Proof.
  induction fuel as [|fuel IH]; intros moduleName st Hfuel; [lia|].
  cbn [dfs].
  destruct (includes (path st) moduleName).
  { eexists. split; [reflexivity|]. simpl. auto. }
  destruct (includes (visited st) moduleName) eqn:Hseen.
  { eexists. split; [reflexivity|]. auto. }
  destruct (getModuleByName idx moduleName) as [module|] eqn:Hmod.
  - pose proof (unvisited_enter idx (visited st) moduleName module Hmod Hseen) as Hlt.
    assert (Hloop : forall imports s,
               (forall x, includes (visited st ++ [moduleName]) x = true ->
                          includes (visited s) x = true) ->
               exists s',
                 fold_left
                   (fun acc importStmt =>
                      match acc with
                      | Some s0 => dfs fuel idx (import_moduleName importStmt) s0
                      | None => None
                      end) imports (Some s) = Some s'
                 /\ forall x, includes (visited st ++ [moduleName]) x = true ->
                              includes (visited s') x = true).
    { induction imports as [|i imports IHi]; intros s Hs; simpl.
      - eexists. split; [reflexivity|exact Hs].
      - destruct (IH (import_moduleName i) s) as (s1 & -> & Hs1).
        + pose proof (unvisited_mono idx _ _ Hs). lia.
        + apply IHi. intros x Hx. auto. }
    destruct (Hloop (mod_imports module)
                {| cycles := cycles st; visited := visited st ++ [moduleName];
                   path := path st ++ [moduleName] |}) as (s' & -> & Hs').
    { simpl. auto. }
    eexists. split; [reflexivity|]. simpl. intros x Hx. apply Hs'.
    rewrite includes_app, Hx. reflexivity.
  - eexists. split; [reflexivity|]. simpl. intros x Hx.
    rewrite includes_app, Hx. reflexivity.
Qed.

Lemma detectCircularDependencies_returns (idx : SymbolIndex) (startModule : string) :
  exists found, detectCircularDependencies idx startModule = Some found.
Proof.
  unfold detectCircularDependencies.
  destruct (dfs_returns idx (dfs_budget idx) startModule
              {| cycles := []; visited := []; path := [] |}) as (st' & -> & _).
  - unfold dfs_budget, unvisited. cbn [visited].
    pose proof (filter_length_le
                  (fun n => negb (includes [] n))
                  (map mod_name (JsMap.values (modules idx)))) as Hle.
    unfold JsMap.values in *. rewrite !length_map in Hle. lia.
  - eauto.
Qed.

(** ** The merged view of a file's diagnostics *)

Lemma compareFn_le a b : (compareFn a b <= 0)%Z <-> rank_line_le a b.
Proof.
  unfold compareFn, rank_line_le, startLine.
  destruct (Z.eqb_spec (priority a) (priority b)); simpl; lia.
Qed.

Lemma compareFn_gt a b : (0 < compareFn a b)%Z -> rank_line_le b a.
Proof.
  unfold compareFn, rank_line_le, startLine.
  destruct (Z.eqb_spec (priority a) (priority b)); simpl; lia.
Qed.

Lemma rank_line_le_trans a b c :
  rank_line_le a b -> rank_line_le b c -> rank_line_le a c.
Proof. unfold rank_line_le. lia. Qed.

Lemma insert_before_perm x l : Permutation (x :: l) (insert_before x l).
Proof.
  induction l as [|y l IH]; simpl; [reflexivity|].
  destruct (compareFn x y <=? 0)%Z; [reflexivity|].
  rewrite perm_swap. now apply perm_skip.
Qed.

Lemma sort_perm l : Permutation l (sort l).
Proof.
  induction l as [|x l IH]; simpl; [constructor|].
  rewrite <- insert_before_perm. now apply perm_skip.
Qed.

Lemma insert_before_Forall (P : AggregatedDiagnostic -> Prop) x l :
  P x -> Forall P l -> Forall P (insert_before x l).
Proof.
  intros Hx Hl. rewrite <- (insert_before_perm x l). now constructor.
Qed.

Lemma insert_before_sorted x l :
  StronglySorted rank_line_le l -> StronglySorted rank_line_le (insert_before x l).
Proof.
  induction 1 as [|y l Hs IH Hy]; simpl.
  - repeat constructor.
  - destruct (Z.leb_spec (compareFn x y) 0) as [Hle|Hgt].
    + apply compareFn_le in Hle. constructor.
      * now constructor.
      * constructor; [exact Hle|].
        eapply Forall_impl; [|exact Hy].
        intros z Hz. eapply rank_line_le_trans; eassumption.
    + constructor; [exact IH|].
      apply insert_before_Forall; [now apply compareFn_gt|exact Hy].
Qed.

Lemma sort_sorted l : StronglySorted rank_line_le (sort l).
Proof.
  induction l as [|x l IH]; simpl; [constructor|].
  now apply insert_before_sorted.
Qed.

Lemma insert_before_filter p ln x l :
  filter (at_rank_line p ln) (insert_before x l)
  = filter (at_rank_line p ln) (x :: l).
Proof.
  induction l as [|y l IH]; [reflexivity|].
  cbn [insert_before].
  destruct (Z.leb_spec (compareFn x y) 0) as [Hle|Hgt]; [reflexivity|].
  cbn [filter] in *. rewrite IH.
  destruct (at_rank_line p ln x) eqn:Hx, (at_rank_line p ln y) eqn:Hy; try reflexivity.
  exfalso. unfold at_rank_line, startLine in Hx, Hy. unfold compareFn in Hgt.
  apply andb_true_iff in Hx, Hy.
  destruct Hx as [Hx1 Hx2], Hy as [Hy1 Hy2].
  apply Z.eqb_eq in Hx1, Hx2, Hy1, Hy2.
  destruct (Z.eqb_spec (priority x) (priority y)); simpl in Hgt; lia.
Qed.

Lemma sort_stable p ln l :
  filter (at_rank_line p ln) (sort l) = filter (at_rank_line p ln) l.
Proof.
  induction l as [|x l IH]; [reflexivity|].
  cbn [sort fold_right]. fold (sort l).
  rewrite insert_before_filter. cbn [filter]. now rewrite IH.
Qed.

Lemma In_merged fileDiagnostics a :
  In a (merged fileDiagnostics)
  <-> exists diags,
        In (agg_source a, diags) fileDiagnostics
        /\ In (diagnostic a) diags
        /\ priority a = SOURCE_PRIORITY (agg_source a).
Proof.
  unfold merged. rewrite in_flat_map. split.
  - intros ([src diags] & Hin & Ha). apply in_map_iff in Ha.
    destruct Ha as (d & <- & Hd). simpl in *. eauto.
  - intros (diags & Hin & Hd & Hp). exists (agg_source a, diags).
    split; [exact Hin|]. apply in_map_iff. exists (diagnostic a).
    split; [|exact Hd]. destruct a; simpl in *. now subst.
Qed.

Lemma getDiagnostics_eq agg uri :
  getDiagnostics agg uri = sort (merged (fileDiagnosticsOf agg uri)).
Proof.
  unfold getDiagnostics, fileDiagnosticsOf.
  destruct (smap_get (diagnostics agg) (normalizeUri uri)); reflexivity.
Qed.

Lemma SOURCE_PRIORITY_inj s1 s2 : SOURCE_PRIORITY s1 = SOURCE_PRIORITY s2 -> s1 = s2.
Proof. destruct s1, s2; simpl; congruence. Qed.

Lemma sorted_app_order (l1 l2 l3 : list AggregatedDiagnostic) a b :
  StronglySorted rank_line_le (l1 ++ a :: l2 ++ b :: l3) -> rank_line_le a b.
Proof.
  induction l1 as [|x l1 IH]; simpl; intros Hs.
  - apply StronglySorted_inv in Hs. destruct Hs as [_ Hall].
    rewrite Forall_forall in Hall. apply Hall.
    apply in_or_app. right. now left.
  - apply StronglySorted_inv in Hs. now apply IH.
Qed.

Lemma getDiagnostics_members agg uri a :
  In a (getDiagnostics agg uri)
  <-> exists diags,
        In (agg_source a, diags) (fileDiagnosticsOf agg uri)
        /\ In (diagnostic a) diags
        /\ priority a = SOURCE_PRIORITY (agg_source a).
Proof.
  rewrite getDiagnostics_eq, <- In_merged.
  split; apply Permutation_in; [symmetry|]; apply sort_perm.
Qed.

(** C5: [getDiagnostics] returns every stored diagnostic of every producer
    of the file (as a rearrangement of the stored entries, each with its
    producer and that producer's rank), in ascending order of
    (priority rank, start line); entries that agree on both keep their
    insertion order; the ranks put the interpreter first, then the
    language service, then static lint, then custom; and of two entries at
    the same start line from different producers, the one listed first is
    the one of higher authority, whatever the order they were stored in. *)
Theorem getDiagnostics_rank_line_order (agg : DiagnosticAggregator) (uri : Uri) :
  let result := getDiagnostics agg uri in
  let stored := merged (fileDiagnosticsOf agg uri) in
  (forall a, In a result
             <-> exists diags,
                   In (agg_source a, diags) (fileDiagnosticsOf agg uri)
                   /\ In (diagnostic a) diags
                   /\ priority a = SOURCE_PRIORITY (agg_source a))
  /\ Permutation stored result
  /\ StronglySorted rank_line_le result
  /\ (forall p l, filter (at_rank_line p l) result = filter (at_rank_line p l) stored)
  /\ (SOURCE_PRIORITY alpha < SOURCE_PRIORITY lsp
      /\ SOURCE_PRIORITY lsp < SOURCE_PRIORITY static
      /\ SOURCE_PRIORITY static < SOURCE_PRIORITY custom)%Z
  /\ (forall before a between b after,
        result = before ++ a :: between ++ b :: after ->
        startLine a = startLine b ->
        agg_source a <> agg_source b ->
        (SOURCE_PRIORITY (agg_source a) < SOURCE_PRIORITY (agg_source b))%Z).
Proof.
  intros result stored. subst result stored. rewrite getDiagnostics_eq.
  assert (Hmem : forall a, In a (sort (merged (fileDiagnosticsOf agg uri)))
                           <-> In a (merged (fileDiagnosticsOf agg uri))).
  { intros a. split; apply Permutation_in;
      [symmetry|]; apply sort_perm. }
  repeat split.
  - intros Ha. apply In_merged, Hmem, Ha.
  - intros Ha. apply Hmem, In_merged, Ha.
  - apply sort_perm.
  - apply sort_sorted.
  - intros p l. apply sort_stable.
  - intros before a between b after Hres Hline Hsrc.
    pose proof (sort_sorted (merged (fileDiagnosticsOf agg uri))) as Hs.
    rewrite Hres in Hs. apply sorted_app_order in Hs.
    assert (Ha : In a (merged (fileDiagnosticsOf agg uri))).
    { apply Hmem. rewrite Hres. apply in_or_app. right. now left. }
    assert (Hb : In b (merged (fileDiagnosticsOf agg uri))).
    { apply Hmem. rewrite Hres. apply in_or_app. right. right.
      apply in_or_app. right. now left. }
    apply In_merged in Ha, Hb.
    destruct Ha as (_ & _ & _ & Hpa), Hb as (_ & _ & _ & Hpb).
    unfold rank_line_le in Hs. rewrite Hpa, Hpb in Hs.
    assert (SOURCE_PRIORITY (agg_source a) <> SOURCE_PRIORITY (agg_source b))
      by (intros E; apply Hsrc, SOURCE_PRIORITY_inj, E).
    lia.
Qed.

(** ** Deduplication *)

Lemma colon_free_uint d : colon_free (NilEmpty.string_of_uint d) = true.
Proof. induction d; simpl; auto. Qed.

Lemma colon_free_number z : colon_free (number_to_string z) = true.
Proof.
  unfold number_to_string, NilZero.string_of_int, NilZero.string_of_uint.
  destruct (Z.to_int z) as [d|d]; destruct d; simpl; auto using colon_free_uint.
Qed.

Lemma to_int_not_nil z : Z.to_int z <> Decimal.Pos Decimal.Nil
                         /\ Z.to_int z <> Decimal.Neg Decimal.Nil.
Proof.
  split; intros E;
    pose proof (DecimalZ.of_to z) as Hz; rewrite E in Hz; cbv in Hz; subst z;
    discriminate E.
Qed.

Lemma number_to_string_inj a b : number_to_string a = number_to_string b -> a = b.
Proof.
  unfold number_to_string. intros E.
  destruct (to_int_not_nil a) as [Ha1 Ha2], (to_int_not_nil b) as [Hb1 Hb2].
  apply (f_equal NilZero.int_of_string) in E.
  rewrite !NilZero.isi in E by assumption.
  injection E as E. apply (f_equal Z.of_int) in E.
  now rewrite !DecimalZ.of_to in E.
Qed.

Lemma split_at_colon s1 s2 r1 r2 :
  colon_free s1 = true -> colon_free s2 = true ->
  (s1 ++ ":" ++ r1 = s2 ++ ":" ++ r2)%string -> s1 = s2 /\ r1 = r2.
Proof.
  revert s2. induction s1 as [|c s1 IH]; intros [|c2 s2]; simpl; intros H1 H2 E.
  - injection E as E. now split.
  - injection E as Ec E. subst c2. discriminate.
  - injection E as Ec E. subst c. discriminate.
  - injection E as Ec E. subst c2.
    apply andb_true_iff in H1, H2.
    destruct (IH s2 (proj2 H1) (proj2 H2) E) as [-> ->]. now split.
Qed.

Lemma diagnosticKey_inj d1 d2 :
  diagnosticKey d1 = diagnosticKey d2 <-> keyTriple d1 = keyTriple d2.
Proof.
  unfold diagnosticKey, keyTriple. split.
  - intros E.
    apply split_at_colon in E; try apply colon_free_number.
    destruct E as [E1 E].
    apply split_at_colon in E; try apply colon_free_number.
    destruct E as [E2 E3].
    apply number_to_string_inj in E1, E2. congruence.
  - intros [= -> -> ->]. reflexivity.
Qed.

Lemma smap_has_keys {V} (m : StrMap V) k :
  smap_has m k = includes (JsMap.keys m) k.
Proof.
  unfold smap_has, JsMap.has, includes, JsMap.keys.
  induction m as [|[k0 v0] m IH]; simpl; [reflexivity|].
  rewrite (String.eqb_sym k k0).
  destruct (String.eqb k0 k); simpl; [reflexivity|exact IH].
Qed.

Lemma fold_see l : forall seen,
  fold_left see l seen = seen ++ firstByKey (JsMap.keys seen) l.
Proof.
  induction l as [|a l IH]; intros seen; simpl.
  - now rewrite app_nil_r.
  - rewrite IH. unfold see. rewrite smap_has_keys.
    destruct (includes (JsMap.keys seen) (diagnosticKey (diagnostic a))) eqn:Hseen;
      simpl; [reflexivity|].
    assert (Habs : smap_get seen (diagnosticKey (diagnostic a)) = None).
    { pose proof (smap_has_keys seen (diagnosticKey (diagnostic a))) as Hk.
      rewrite Hseen in Hk. unfold smap_has, JsMap.has in Hk.
      unfold smap_get. destruct (JsMap.get String.eqb seen _); [discriminate|reflexivity]. }
    unfold smap_set. rewrite (jsmap_set_absent String.eqb seen _ _ Habs).
    unfold JsMap.keys. rewrite map_app, <- app_assoc. reflexivity.
Qed.

Lemma includes_In l x : includes l x = true <-> In x l.
Proof.
  unfold includes. rewrite existsb_exists. split.
  - intros (y & Hy & E). apply String.eqb_eq in E. now subst.
  - intros Hx. exists x. split; [exact Hx|apply String.eqb_refl].
Qed.

Lemma firstByKey_first l : forall seenKeys k d,
  In (k, d) (firstByKey seenKeys l) ->
  includes seenKeys k = false
  /\ exists before a after,
       l = before ++ a :: after
       /\ diagnostic a = d
       /\ diagnosticKey d = k
       /\ forall b, In b before -> diagnosticKey (diagnostic b) <> k.
Proof.
  induction l as [|a l IH]; intros seenKeys k d; simpl; [contradiction|].
  destruct (includes seenKeys (diagnosticKey (diagnostic a))) eqn:Hseen.
  - intros Hin. destruct (IH _ _ _ Hin) as (Hk & before & a0 & after & -> & Hd & Hkey & Hb).
    split; [exact Hk|]. exists (a :: before), a0, after. repeat split; auto.
    intros b [<-|Hin']; [|now apply Hb]. intros E. congruence.
  - intros [[= <- <-]|Hin].
    + split; [exact Hseen|]. exists [], a, l. repeat split. intros b [].
    + destruct (IH _ _ _ Hin) as (Hk & before & a0 & after & -> & Hd & Hkey & Hb).
      rewrite includes_app, includes_single in Hk.
      apply orb_false_iff in Hk. destruct Hk as [Hk1 Hk2].
      split; [exact Hk1|]. exists (a :: before), a0, after. repeat split; auto.
      intros b [<-|Hin']; [|now apply Hb].
      intros E. rewrite E, String.eqb_refl in Hk2. discriminate.
Qed.

Lemma firstByKey_NoDup l : forall seenKeys,
  NoDup (map fst (firstByKey seenKeys l)).
Proof.
  induction l as [|a l IH]; intros seenKeys; simpl; [constructor|].
  destruct (includes seenKeys (diagnosticKey (diagnostic a))); [apply IH|].
  simpl. constructor; [|apply IH].
  intros Hin. apply in_map_iff in Hin. destruct Hin as ([k d] & Hk & Hin).
  simpl in Hk. subst k. apply firstByKey_first in Hin. destruct Hin as [Hk _].
  now rewrite includes_app, includes_single, String.eqb_refl, orb_true_r in Hk.
Qed.

Lemma firstByKey_covers l : forall seenKeys a,
  In a l ->
  includes seenKeys (diagnosticKey (diagnostic a)) = true
  \/ In (diagnosticKey (diagnostic a)) (map fst (firstByKey seenKeys l)).
Proof.
  induction l as [|a0 l IH]; intros seenKeys a; simpl; [contradiction|].
  intros [->|Hin].
  - destruct (includes seenKeys (diagnosticKey (diagnostic a))) eqn:Hseen;
      [now left|right; now left].
  - destruct (includes seenKeys (diagnosticKey (diagnostic a0))) eqn:Hseen.
    + now apply IH.
    + destruct (IH (seenKeys ++ [diagnosticKey (diagnostic a0)]) a Hin) as [Hk|Hk].
      * rewrite includes_app, includes_single in Hk.
        apply orb_true_iff in Hk. destruct Hk as [Hk|Hk]; [now left|].
        apply String.eqb_eq in Hk. right. left. now symmetry.
      * right. now right.
Qed.

Lemma getDeduplicated_eq agg uri :
  getDeduplicatedDiagnostics agg uri
  = map snd (firstByKey [] (getDiagnostics agg uri)).
Proof.
  unfold getDeduplicatedDiagnostics. now rewrite fold_see.
Qed.

Lemma sorted_after (l1 l2 : list AggregatedDiagnostic) a b :
  StronglySorted rank_line_le (l1 ++ a :: l2) -> In b l2 -> rank_line_le a b.
Proof.
  induction l1 as [|x l1 IH]; simpl; intros Hs Hb.
  - apply StronglySorted_inv in Hs. destruct Hs as [_ Hall].
    rewrite Forall_forall in Hall. now apply Hall.
  - apply StronglySorted_inv in Hs. now apply IH.
Qed.

(** C6: [getDeduplicatedDiagnostics] walks the list [getDiagnostics]
    returns and keeps one diagnostic per key (start line, start column,
    first 50 characters of the message): no two kept diagnostics share a
    key, every entry of [getDiagnostics] has its key among the kept ones,
    and the kept diagnostic of a key is the first entry with that key in
    the order of [getDiagnostics], whose priority rank no other entry with
    that key undercuts. *)
Theorem getDeduplicated_keeps_first (agg : DiagnosticAggregator) (uri : Uri) :
  let aggregated := getDiagnostics agg uri in
  let result := getDeduplicatedDiagnostics agg uri in
  NoDup (map keyTriple result)
  /\ (forall a, In a aggregated ->
        exists d, In d result /\ keyTriple d = keyTriple (diagnostic a))
  /\ (forall d, In d result ->
        exists before a after,
          aggregated = before ++ a :: after
          /\ diagnostic a = d
          /\ (forall b, In b before -> keyTriple (diagnostic b) <> keyTriple d)
          /\ (forall b, In b aggregated ->
                keyTriple (diagnostic b) = keyTriple d ->
                (priority a <= priority b)%Z)).
Proof.
  intros aggregated result. subst result. rewrite getDeduplicated_eq.
  fold aggregated.
  assert (Hkeys : forall k d, In (k, d) (firstByKey [] aggregated) ->
                              k = diagnosticKey d).
  { intros k d Hin. apply firstByKey_first in Hin.
    destruct Hin as (_ & _ & _ & _ & _ & _ & Hk & _). now symmetry. }
  repeat split.
  - pose proof (firstByKey_NoDup aggregated []) as Hnd.
    revert Hnd Hkeys. generalize (firstByKey [] aggregated) as kept.
    induction kept as [|[k d] kept IH]; simpl; intros Hnd Hkeys; [constructor|].
    inversion Hnd as [|? ? Hnotin Hnd']; subst. constructor.
    + intros Hin. apply Hnotin. apply in_map_iff in Hin.
      destruct Hin as (d' & Ht & Hd'). apply in_map_iff in Hd'.
      destruct Hd' as ([k' d''] & Hsnd & Hin'). simpl in Hsnd. subst d''.
      apply in_map_iff. exists (k', d'). split; [|exact Hin']. simpl.
      rewrite (Hkeys k' d') by (now right). rewrite (Hkeys k d) by (now left).
      now apply diagnosticKey_inj.
    + apply IH; [exact Hnd'|]. intros k' d' Hin. apply Hkeys. now right.
  - intros a Ha.
    destruct (firstByKey_covers aggregated [] a Ha) as [Hk|Hk]; [discriminate|].
    apply in_map_iff in Hk. destruct Hk as ([k d] & Hfst & Hin). simpl in Hfst.
    exists d. split.
    + apply in_map_iff. now exists (k, d).
    + apply diagnosticKey_inj. rewrite <- (Hkeys k d Hin). exact Hfst.
  - intros d Hd. apply in_map_iff in Hd. destruct Hd as ([k d'] & Hsnd & Hin).
    simpl in Hsnd. subst d'.
    destruct (firstByKey_first _ _ _ _ Hin)
      as (_ & before & a & after & Hsplit & Hda & Hk & Hbefore).
    exists before, a, after. repeat split; try assumption.
    + intros b Hb E. apply (Hbefore b Hb). rewrite <- Hk.
      now apply diagnosticKey_inj.
    + intros b Hb E.
      rewrite Hsplit in Hb. apply in_app_or in Hb.
      destruct Hb as [Hb|[<-|Hb]].
      * exfalso. apply (Hbefore b Hb). rewrite <- Hk. now apply diagnosticKey_inj.
      * lia.
      * assert (Hs : StronglySorted rank_line_le (before ++ a :: after)).
        { rewrite <- Hsplit. unfold aggregated. rewrite getDiagnostics_eq.
          apply sort_sorted. }
        pose proof (sorted_after _ _ _ _ Hs Hb) as Hle.
        unfold rank_line_le in Hle. lia.
Qed.

(** ** Storing diagnostics *)

Lemma getDiagnosticsFromSource_set agg uri src diags src' :
  getDiagnosticsFromSource (setDiagnostics agg uri src diags) uri src'
  = if source_eqb src src' then diags else getDiagnosticsFromSource agg uri src'.
Proof.
  unfold getDiagnosticsFromSource, setDiagnostics. cbn [diagnostics].
  rewrite smap_get_set, String.eqb_refl.
  rewrite (jsmap_get_set source_eqb source_eqb_spec).
  destruct (source_eqb src src'); [reflexivity|].
  destruct (smap_get (diagnostics agg) (normalizeUri uri)); reflexivity.
Qed.

Lemma diagnostics_set_other agg uri src diags key :
  key <> normalizeUri uri ->
  smap_get (diagnostics (setDiagnostics agg uri src diags)) key
  = smap_get (diagnostics agg) key.
Proof.
  intros Hne. unfold setDiagnostics. cbn [diagnostics].
  rewrite smap_get_set.
  destruct (String.eqb_spec (normalizeUri uri) key); [congruence|reflexivity].
Qed.

Section AlphaFacts.
  Context `{PathLib}.

Lemma setAlphaDiagnostics_eq idx agg uri raws :
  setAlphaDiagnostics idx agg uri raws
  = setDiagnostics agg uri alpha (map convertAlphaDiagnostic (accepted idx uri raws)).
Proof. reflexivity. Qed.

Lemma stored_alpha idx agg uri raws :
  getDiagnosticsFromSource (setAlphaDiagnostics idx agg uri raws) uri alpha
  = map convertAlphaDiagnostic (accepted idx uri raws).
Proof. rewrite setAlphaDiagnostics_eq. apply getDiagnosticsFromSource_set. Qed.

(** C7 (amended): conversion never rejects.  Every raw diagnostic accepted
    for storage yields exactly one converted diagnostic; a severity outside
    the four known words becomes [Error].  The range is built from two
    positions: the start line and start column, and the end line and end
    column, each the 1-based value minus one clamped to zero from below,
    so negative values give zero, except that an end column clamped to
    zero (every end column of at most 1, negative ones included) is
    replaced by 999.  The stored range holds the two positions in order:
    they are swapped when the clamped start is not before the clamped end,
    so no field of a stored range is negative and its start never comes
    after its end. *)
Theorem convertAlphaDiagnostic_clamps (idx : SymbolIndex)
  (agg : DiagnosticAggregator) (uri : Uri) (raws : list AlphaDiagnostic) :
  let stored :=
    getDiagnosticsFromSource (setAlphaDiagnostics idx agg uri raws) uri alpha in
  stored = map convertAlphaDiagnostic (accepted idx uri raws)
  /\ List.length stored = List.length (accepted idx uri raws)
  /\ forall d,
       let c := convertAlphaDiagnostic d in
       let first := {| line := Z.max 0 (a_line d - 1);
                       character := Z.max 0 (a_column d - 1) |} in
       let second := {| line := Z.max 0 (a_endLine d - 1);
                        character := endCharacter (a_endColumn d) |} in
       (a_severity d <> "error" -> a_severity d <> "warning" ->
        a_severity d <> "info" -> a_severity d <> "hint" -> severity c = Error)
       /\ (isBefore first second = true ->
           range c = {| start := first; range_end := second |})
       /\ (isBefore first second = false ->
           range c = {| start := second; range_end := first |})
       /\ ((a_line d < 0)%Z -> line first = 0%Z)
       /\ ((a_column d < 0)%Z -> character first = 0%Z)
       /\ ((a_endLine d < 0)%Z -> line second = 0%Z)
       /\ ((a_endColumn d <= 1)%Z -> character second = 999%Z)
       /\ ((1 < a_endColumn d)%Z -> character second = (a_endColumn d - 1)%Z)
       /\ (0 <= line (start (range c)))%Z
       /\ (0 <= character (start (range c)))%Z
       /\ (0 <= line (range_end (range c)))%Z
       /\ (0 <= character (range_end (range c)))%Z
       /\ isBefore (range_end (range c)) (start (range c)) = false.
Proof.
  intros stored. subst stored. rewrite stored_alpha.
  split; [reflexivity|]. split; [apply length_map|].
  intros d c first second.
  assert (Hend : (0 < endCharacter (a_endColumn d))%Z).
  { unfold endCharacter.
    destruct (Z.eqb_spec (Z.max 0 (a_endColumn d - 1)) 0); lia. }
  assert (Hrange : range c = newRange (line first) (character first)
                                      (line second) (character second))
    by reflexivity.
  unfold newRange in Hrange.
  change {| line := line first; character := character first |} with first in Hrange.
  change {| line := line second; character := character second |} with second in Hrange.
  split; [|split; [|split; [|split; [|split; [|split; [|split; [|split]]]]]]].
  - intros H1 H2 H3 H4. subst c. unfold convertAlphaDiagnostic, toVsCodeSeverity.
    cbn [severity].
    apply String.eqb_neq in H1, H2, H3, H4. now rewrite H1, H2, H3, H4.
  - intros Hb. now rewrite Hrange, Hb.
  - intros Hb. now rewrite Hrange, Hb.
  - intros Hneg. subst first. cbn [line]. lia.
  - intros Hneg. subst first. cbn [character]. lia.
  - intros Hneg. subst second. cbn [line]. lia.
  - intros Hc. subst second. cbn [character]. unfold endCharacter.
    replace (Z.max 0 (a_endColumn d - 1)) with 0%Z by lia. reflexivity.
  - intros Hc. subst second. cbn [character]. unfold endCharacter.
    destruct (Z.eqb_spec (Z.max 0 (a_endColumn d - 1)) 0); lia.
  - rewrite Hrange. unfold isBefore.
    destruct ((line first <? line second)
              || (line first =? line second) && (character first <? character second))%Z
      eqn:Hb; cbn [start range_end]; subst first second; cbn [line character] in *;
      repeat split; lia.
Qed.

(** C9: [setAlphaDiagnostics] stores, under the key of [uri] and the
    source [alpha], the conversions of exactly those raw diagnostics whose
    normalized, lower-cased file path equals that of [uri] and that are not
    suppressed wildcard warnings; a raw diagnostic naming another file is
    not among them; no other file's entry and no other producer's list
    changes, and only the [alpha] collection is written, at [uri]. *)
Theorem setAlphaDiagnostics_discards_other_files (idx : SymbolIndex)
  (agg : DiagnosticAggregator) (uri : Uri) (raws : list AlphaDiagnostic) :
  let after := setAlphaDiagnostics idx agg uri raws in
  let kept :=
    filter (fun d =>
              String.eqb (normalizeFilePath (a_file d)) (normalizeFilePath (fsPath uri))
              && negb (isWildcardImportSymbolWarning idx uri d)) raws in
  getDiagnosticsFromSource after uri alpha = map convertAlphaDiagnostic kept
  /\ (forall d, In d kept
                <-> In d raws
                    /\ normalizeFilePath (a_file d) = normalizeFilePath (fsPath uri)
                    /\ isWildcardImportSymbolWarning idx uri d = false)
  /\ (forall d, normalizeFilePath (a_file d) <> normalizeFilePath (fsPath uri) ->
                ~ In d kept)
  /\ (forall key, key <> normalizeUri uri ->
                  smap_get (diagnostics after) key = smap_get (diagnostics agg) key)
  /\ (forall src, src <> alpha ->
                  getDiagnosticsFromSource after uri src
                  = getDiagnosticsFromSource agg uri src)
  /\ (forall src, src <> alpha ->
                  JsMap.get source_eqb (collections after) src
                  = JsMap.get source_eqb (collections agg) src).
Proof.
  intros after kept.
  assert (Hkept : kept = accepted idx uri raws).
  { unfold kept, accepted, sameFile.
    induction raws as [|d raws IH]; simpl; [reflexivity|].
    destruct (String.eqb (normalizeFilePath (a_file d))
                         (normalizeFilePath (fsPath uri))); simpl;
      [destruct (negb (isWildcardImportSymbolWarning idx uri d))|];
      now rewrite IH. }
  assert (Hin : forall d, In d kept
                <-> In d raws
                    /\ normalizeFilePath (a_file d) = normalizeFilePath (fsPath uri)
                    /\ isWildcardImportSymbolWarning idx uri d = false).
  { intros d. unfold kept. rewrite filter_In, andb_true_iff, String.eqb_eq,
      negb_true_iff. tauto. }
  split; [|split; [|split; [|split; [|split]]]].
  - rewrite Hkept. apply stored_alpha.
  - exact Hin.
  - intros d Hne Hd. apply Hin in Hd. tauto.
  - intros key Hne. now apply diagnostics_set_other.
  - intros src Hne. unfold after. rewrite setAlphaDiagnostics_eq.
    rewrite getDiagnosticsFromSource_set.
    destruct (source_eqb_spec alpha src); [congruence|reflexivity].
  - intros src Hne. unfold after, setAlphaDiagnostics, setDiagnostics.
    cbn [collections].
    destruct (JsMap.get source_eqb (collections agg) alpha); [|reflexivity].
    rewrite (jsmap_get_set source_eqb source_eqb_spec).
    destruct (source_eqb_spec alpha src); [congruence|reflexivity].
Qed.
End AlphaFacts.

Lemma convertAlphaDiagnostic_end_column_999 :
  (a_endColumn negativeEndColumn < 0)%Z
  /\ character (range_end (range (convertAlphaDiagnostic negativeEndColumn))) = 999%Z
  /\ character (range_end (range (convertAlphaDiagnostic negativeEndColumn))) <> 0%Z.
Proof. repeat split. discriminate. Qed.

Example sample_inverted_range :
  range (convertAlphaDiagnostic
           {| a_file := "c:\ws\Main.ahk"; a_line := 5; a_column := 10;
              a_endLine := 0; a_endColumn := 0; a_message := "Unexpected token";
              a_severity := "error"; a_extra := None; a_source := None;
              a_code := None |})
  = {| start := {| line := 0; character := 999 |};
       range_end := {| line := 4; character := 9 |} |}.
Proof. reflexivity. Qed.

(** ** Wildcard suppression *)

Lemma str_app_assoc (a b c : string) : ((a ++ b) ++ c = a ++ (b ++ c))%string.
Proof. induction a as [|x a IH]; simpl; [reflexivity|now rewrite IH]. Qed.

Lemma str_app_nil_r (a : string) : (a ++ EmptyString = a)%string.
Proof. induction a as [|x a IH]; simpl; [reflexivity|now rewrite IH]. Qed.

Lemma prefix_app (x b : string) : String.prefix x (x ++ b) = true.
Proof.
  induction x as [|c x IH]; simpl; [now destruct b|].
  destruct (ascii_dec c c); [exact IH|congruence].
Qed.

Lemma str_includes_unfold (needle hay : string) :
  str_includes needle hay
  = String.prefix needle hay
    || match hay with
       | String _ rest => str_includes needle rest
       | EmptyString => false
       end.
Proof. destruct hay; reflexivity. Qed.

Lemma str_includes_app (x a b : string) : str_includes x (a ++ x ++ b) = true.
Proof.
  induction a as [|c a IH]; simpl.
  - rewrite str_includes_unfold, prefix_app. reflexivity.
  - rewrite IH. apply orb_true_r.
Qed.

Lemma word_run_app (w r : string) :
  all_word w = true -> head_is_word r = false -> word_run (w ++ r) = (w, r).
Proof.
  intros Hw Hr. induction w as [|c w IH]; cbn [append word_run all_word] in *.
  - destruct r as [|c r]; [reflexivity|].
    cbn [head_is_word word_run] in *. now rewrite Hr.
  - apply andb_true_iff in Hw. destruct Hw as [Hc Hw].
    now rewrite Hc, (IH Hw).
Qed.

Lemma match_variable_unfold (s : string) :
  match_variable s
  = match match_variable_here s with
    | Some w => Some w
    | None =>
        match s with
        | String _ s' => match_variable s'
        | EmptyString => None
        end
    end.
Proof. destruct s; reflexivity. Qed.

Lemma match_variable_neverAssigned (variableName rest : string) :
  is_identifier variableName = true ->
  match_variable (neverAssignedMessage variableName ++ rest) = Some variableName.
Proof.
  unfold is_identifier. intros Hid. apply andb_true_iff in Hid.
  destruct Hid as [Hne Hw].
  assert (Hhere : match_variable_here (neverAssignedMessage variableName ++ rest)
                  = Some variableName).
  { unfold match_variable_here, neverAssignedMessage. rewrite !str_app_assoc.
    rewrite prefix_app.
    change (str_drop 10 ("Variable '"
              ++ variableName ++ "' appears to never be assigned" ++ rest)%string)
      with (variableName ++ "' appears to never be assigned" ++ rest)%string.
    rewrite word_run_app by (exact Hw || reflexivity).
    rewrite Hne. reflexivity. }
  now rewrite match_variable_unfold, Hhere.
Qed.

Lemma str_includes_neverAssigned (variableName rest : string) :
  str_includes "appears to never be assigned"
               (neverAssignedMessage variableName ++ rest) = true.
Proof.
  unfold neverAssignedMessage.
  replace (("Variable '" ++ variableName ++ "' appears to never be assigned") ++ rest)%string
    with (("Variable '" ++ variableName ++ "' ")
          ++ "appears to never be assigned" ++ rest)%string.
  - apply str_includes_app.
  - rewrite !str_app_assoc. reflexivity.
Qed.

Lemma isSymbolFromWildcardImport_iff idx uri symbolName :
  isSymbolFromWildcardImport idx uri symbolName = true
  <-> exists moduleName,
        In moduleName (wildcardModulesOf idx uri)
        /\ exportsSymbol idx moduleName symbolName.
Proof.
  unfold isSymbolFromWildcardImport, getWildcardImportedSymbols,
    wildcardModulesOf, exportsSymbol, some.
  destruct (smap_get (wildcardImportsByDocument idx) (fsPath uri)) as [[|m wm]|];
    simpl get_or_nil.
  - simpl. split; [discriminate|]. now intros (m & [] & _).
  - cbn [List.length Nat.eqb]. rewrite existsb_exists. split.
    + intros (s & Hs & Hn). apply in_flat_map in Hs.
      destruct Hs as (m' & Hm' & Hs). apply String.eqb_eq in Hn. eauto.
    + intros (m' & Hm' & s & Hs & Hn). exists s. split.
      * apply in_flat_map. eauto.
      * now apply String.eqb_eq.
  - simpl. split; [discriminate|]. now intros (m & [] & _).
Qed.

Lemma suppressed_neverAssigned idx uri d variableName rest :
  is_identifier variableName = true ->
  a_message d = (neverAssignedMessage variableName ++ rest)%string ->
  isWildcardImportSymbolWarning idx uri d
  = isSymbolFromWildcardImport idx uri variableName.
Proof.
  intros Hid Hmsg. unfold isWildcardImportSymbolWarning.
  rewrite Hmsg, str_includes_neverAssigned, match_variable_neverAssigned by exact Hid.
  reflexivity.
Qed.

Lemma message_convert d :
  message (convertAlphaDiagnostic d) = (a_message d ++ extraSuffix d)%string.
Proof.
  unfold convertAlphaDiagnostic, extraSuffix. cbn [message].
  destruct (a_extra d); [destruct (truthy _)|]; now rewrite ?str_app_nil_r.
Qed.

Lemma extraSuffix_shape d :
  extraSuffix d = EmptyString
  \/ exists t, extraSuffix d = String (ascii_of_nat 10) t.
Proof.
  unfold extraSuffix.
  destruct (a_extra d); [destruct (truthy _)|]; auto.
  right. eexists. reflexivity.
Qed.

Lemma str_app_eq_cases (s1 t1 s2 t2 : string) :
  (s1 ++ t1 = s2 ++ t2)%string ->
  (exists u, s2 = (s1 ++ u)%string)
  \/ (exists c u v, s1 = (s2 ++ String c u)%string /\ t2 = String c v).
Proof.
  revert s2. induction s1 as [|c s1 IH]; intros s2 E.
  - left. now exists s2.
  - destruct s2 as [|c2 s2]; simpl in E.
    + right. exists c, s1, (s1 ++ t1)%string. split; [reflexivity|now symmetry].
    + injection E as -> E. destruct (IH _ E) as [(u & ->)|(c0 & u & v & -> & ->)].
      * left. now exists u.
      * right. exists c0, u, v. split; reflexivity.
Qed.

Lemma has_char_app c (a b : string) :
  has_char c (a ++ b) = has_char c a || has_char c b.
Proof.
  induction a as [|x a IH]; simpl; [reflexivity|].
  now rewrite IH, orb_assoc.
Qed.

Lemma all_word_no_newline w :
  all_word w = true -> has_char (ascii_of_nat 10) w = false.
Proof.
  induction w as [|c w IH]; simpl; [reflexivity|].
  intros Hw. apply andb_true_iff in Hw. destruct Hw as [Hc Hw].
  rewrite (IH Hw), orb_false_r.
  destruct (Ascii.eqb_spec c (ascii_of_nat 10)) as [->|]; [discriminate|reflexivity].
Qed.

Lemma neverAssignedMessage_no_newline variableName :
  is_identifier variableName = true ->
  has_char (ascii_of_nat 10) (neverAssignedMessage variableName) = false.
Proof.
  unfold is_identifier, neverAssignedMessage. intros Hid.
  apply andb_true_iff in Hid. destruct Hid as [_ Hw].
  rewrite !has_char_app, (all_word_no_newline _ Hw). reflexivity.
Qed.

Lemma same_conversion_same_warning d d' variableName :
  is_identifier variableName = true ->
  a_message d = neverAssignedMessage variableName ->
  convertAlphaDiagnostic d' = convertAlphaDiagnostic d ->
  exists rest, a_message d' = (neverAssignedMessage variableName ++ rest)%string.
Proof.
  intros Hid Hmsg Hconv.
  apply (f_equal message) in Hconv. rewrite !message_convert, Hmsg in Hconv.
  symmetry in Hconv.
  destruct (str_app_eq_cases _ _ _ _ Hconv) as [(u & Hu)|(c & u & v & Hs & Ht)].
  - now exists u.
  - exfalso. pose proof (neverAssignedMessage_no_newline _ Hid) as Hnl.
    destruct (extraSuffix_shape d') as [E|(t & E)]; rewrite E in Ht; [discriminate|].
    injection Ht as <- _.
    rewrite Hs, has_char_app in Hnl. simpl in Hnl.
    now rewrite orb_true_r in Hnl.
Qed.

Lemma jsmap_set_In {K V} (keq : K -> K -> bool)
  (keq_spec : forall a b, reflect (a = b) (keq a b))
  (m : JsMap.t (K:=K) (V:=V)) k v v' :
  NoDup (JsMap.keys m) -> In (k, v') (JsMap.set keq m k v) -> v' = v.
Proof.
  induction m as [|[k0 v0] m IH]; simpl; intros Hnd Hin.
  - destruct Hin as [[= ->]|[]]. reflexivity.
  - inversion Hnd as [|? ? Hnotin Hnd']; subst.
    destruct (keq_spec k0 k) as [->|Hne]; simpl in Hin.
    + destruct Hin as [[= ->]|Hin]; [reflexivity|].
      exfalso. apply Hnotin. apply in_map_iff. now exists (k, v').
    + destruct Hin as [[= -> ->]|Hin]; [congruence|]. now apply IH.
Qed.

Lemma fileDiagnosticsOf_set agg uri src diags :
  fileDiagnosticsOf (setDiagnostics agg uri src diags) uri
  = JsMap.set source_eqb (fileDiagnosticsOf agg uri) src diags.
Proof.
  unfold fileDiagnosticsOf, setDiagnostics. cbn [diagnostics].
  rewrite smap_get_set, String.eqb_refl.
  destruct (smap_get (diagnostics agg) (normalizeUri uri)); reflexivity.
Qed.

Section Suppression.
  Context `{PathLib}.

Lemma accepted_In idx uri raws d :
  In d (accepted idx uri raws)
  <-> In d raws /\ sameFile uri d = true
      /\ isWildcardImportSymbolWarning idx uri d = false.
Proof.
  unfold accepted. rewrite !filter_In, negb_true_iff. tauto.
Qed.

(** C2 (amended): let [N] be a name made of word characters (ASCII
    letters, digits and the underscore), which is what the pattern
    [Variable '(\w+)'] of the source can capture, and let [d] be a raw
    diagnostic for the file of [uri] whose message is
    "Variable 'N' appears to never be assigned".  When the document
    wildcard-imports an indexed module that exports a symbol named [N],
    [setAlphaDiagnostics] stores no such diagnostic and no interpreter
    entry of [getDiagnostics] is it; when no wildcard-imported module
    exports [N], the diagnostic is stored and [getDiagnostics] returns
    it. *)
Theorem wildcard_warning_suppression (idx : SymbolIndex)
  (agg : DiagnosticAggregator) (uri : Uri) (raws : list AlphaDiagnostic)
  (d : AlphaDiagnostic) (variableName : string) :
  is_identifier variableName = true ->
  a_message d = neverAssignedMessage variableName ->
  sameFile uri d = true ->
  In d raws ->
  NoDup (JsMap.keys (fileDiagnosticsOf agg uri)) ->
  let after := setAlphaDiagnostics idx agg uri raws in
  ((exists moduleName,
       In moduleName (wildcardModulesOf idx uri)
       /\ exportsSymbol idx moduleName variableName) ->
   ~ In (convertAlphaDiagnostic d) (getDiagnosticsFromSource after uri alpha)
   /\ forall a, In a (getDiagnostics after uri) ->
                agg_source a = alpha ->
                diagnostic a <> convertAlphaDiagnostic d)
  /\ ((forall moduleName,
         In moduleName (wildcardModulesOf idx uri) ->
         ~ exportsSymbol idx moduleName variableName) ->
      In (convertAlphaDiagnostic d) (getDiagnosticsFromSource after uri alpha)
      /\ In {| diagnostic := convertAlphaDiagnostic d; agg_source := alpha;
               priority := SOURCE_PRIORITY alpha |}
            (getDiagnostics after uri)).
Proof.
  intros Hid Hmsg Hfile Hin Hnd after.
  assert (Hstored : getDiagnosticsFromSource after uri alpha
                    = map convertAlphaDiagnostic (accepted idx uri raws))
    by apply stored_alpha.
  assert (Hentries : forall a, In a (getDiagnostics after uri)
             <-> exists diags,
                   In (agg_source a, diags)
                      (JsMap.set source_eqb (fileDiagnosticsOf agg uri) alpha
                         (map convertAlphaDiagnostic (accepted idx uri raws)))
                   /\ In (diagnostic a) diags
                   /\ priority a = SOURCE_PRIORITY (agg_source a)).
  { intros a. unfold after. rewrite setAlphaDiagnostics_eq.
    rewrite <- fileDiagnosticsOf_set.
    apply (getDiagnostics_members
             (setDiagnostics agg uri alpha
                (map convertAlphaDiagnostic (accepted idx uri raws))) uri). }
  split.
  - intros Hexp. apply isSymbolFromWildcardImport_iff in Hexp.
    assert (Hnone : ~ In (convertAlphaDiagnostic d)
                         (map convertAlphaDiagnostic (accepted idx uri raws))).
    { intros Hc. apply in_map_iff in Hc. destruct Hc as (d' & Hconv & Hd').
      apply accepted_In in Hd'. destruct Hd' as (_ & _ & Hkeep).
      destruct (same_conversion_same_warning d d' variableName Hid Hmsg Hconv)
        as (rest & Hrest).
      rewrite (suppressed_neverAssigned idx uri d' variableName rest Hid Hrest) in Hkeep.
      congruence. }
    split; [now rewrite Hstored|].
    intros a Ha Hsrc Hda. apply Hentries in Ha.
    destruct Ha as (diags & Hent & Hdiag & _). rewrite Hsrc in Hent.
    apply (jsmap_set_In source_eqb source_eqb_spec) in Hent; [|exact Hnd].
    subst diags. rewrite Hda in Hdiag. contradiction.
  - intros Hnot.
    assert (Hkeep : isWildcardImportSymbolWarning idx uri d = false).
    { rewrite (suppressed_neverAssigned idx uri d variableName EmptyString Hid)
        by (now rewrite str_app_nil_r).
      destruct (isSymbolFromWildcardImport idx uri variableName) eqn:E; [|reflexivity].
      apply isSymbolFromWildcardImport_iff in E. destruct E as (m & Hm & He).
      exfalso. exact (Hnot m Hm He). }
    assert (Hacc : In (convertAlphaDiagnostic d)
                      (map convertAlphaDiagnostic (accepted idx uri raws))).
    { apply in_map. apply accepted_In. auto. }
    split; [now rewrite Hstored|].
    apply Hentries. cbn [agg_source diagnostic priority].
    exists (map convertAlphaDiagnostic (accepted idx uri raws)).
    repeat split; [|exact Hacc].
    apply (jsmap_get_In source_eqb source_eqb_spec).
    rewrite (jsmap_get_set source_eqb source_eqb_spec). reflexivity.
Qed.
End Suppression.

Lemma wildcard_warning_suppression_witness :
  (~ In (convertAlphaDiagnostic (neverAssigned "Sum"))
        (getDiagnosticsFromSource aggregatorAfterAlpha mainUri alpha)
   /\ forall a, In a (getDiagnostics aggregatorAfterAlpha mainUri) ->
                agg_source a = alpha ->
                diagnostic a <> convertAlphaDiagnostic (neverAssigned "Sum"))
  /\ (In (convertAlphaDiagnostic (neverAssigned "Total"))
         (getDiagnosticsFromSource aggregatorAfterAlpha mainUri alpha)
      /\ In {| diagnostic := convertAlphaDiagnostic (neverAssigned "Total");
               agg_source := alpha; priority := SOURCE_PRIORITY alpha |}
            (getDiagnostics aggregatorAfterAlpha mainUri)).
Proof.
  split.
  - apply (proj1 (@wildcard_warning_suppression identityPath sampleIndex newAggregator mainUri
                    sampleRaws (neverAssigned "Sum") "Sum"
                    eq_refl eq_refl eq_refl (or_introl eq_refl) (NoDup_nil _))).
    exists "Arr". split; [left; reflexivity|].
    exists (mkSymbol {| mod_uri := arrUri; mod_name := "Arr"; mod_exports := [];
                        mod_imports := []; indexed := true; lastModified := 0 |}
                     exportSum).
    split; [left; reflexivity|reflexivity].
  - apply (proj2 (@wildcard_warning_suppression identityPath sampleIndex newAggregator mainUri
                    sampleRaws (neverAssigned "Total") "Total"
                    eq_refl eq_refl eq_refl (or_intror (or_introl eq_refl))
                    (NoDup_nil _))).
    intros moduleName [<-|[]] (s & [<-|[<-|[]]] & Hs); discriminate Hs.
Defined.

(** The claim as first stated fails for a name the pattern cannot
    capture: [Main] wildcard-imports [Arr], [Arr] exports the name, the
    interpreter's warning about it is for [Main] and has the expected
    message, and still the warning is stored and returned. *)
Lemma wildcard_warning_kept_for_non_word_name :
  In "Arr" (wildcardModulesOf umlautIndex mainUri)
  /\ exportsSymbol umlautIndex "Arr" umlautName
  /\ a_message (neverAssigned umlautName) = neverAssignedMessage umlautName
  /\ sameFile mainUri (neverAssigned umlautName) = true
  /\ is_identifier umlautName = false
  /\ In (convertAlphaDiagnostic (neverAssigned umlautName))
        (getDiagnosticsFromSource
           (setAlphaDiagnostics umlautIndex newAggregator mainUri
              [neverAssigned umlautName]) mainUri alpha)
  /\ In {| diagnostic := convertAlphaDiagnostic (neverAssigned umlautName);
           agg_source := alpha; priority := SOURCE_PRIORITY alpha |}
        (getDiagnostics
           (setAlphaDiagnostics umlautIndex newAggregator mainUri
              [neverAssigned umlautName]) mainUri).
Proof.
  split; [left; reflexivity|]. split.
  { exists (mkSymbol {| mod_uri := arrUri; mod_name := "Arr"; mod_exports := [];
                        mod_imports := []; indexed := true; lastModified := 0 |}
                     exportUmlaut).
    split; [left; reflexivity|reflexivity]. }
  repeat split; try reflexivity; left; reflexivity.
Qed.

(** ** Unused imports *)

Lemma splicedName_identifier name :
  is_identifier name = true -> splicedName name = Some name.
Proof. unfold splicedName. now intros ->. Qed.

Lemma allUnused_iff text syms :
  forallb (fun symbol => is_identifier (usedName symbol)) syms = true ->
  exists all, allUnused text syms = Some all
    /\ (all = true
        <-> forall symbol, In symbol syms -> match_count (usedName symbol) text <= 1).
Proof.
  induction syms as [|s syms IH]; cbn [forallb allUnused]; intros Hplain.
  - exists true. split; [reflexivity|]. split; [intros _ ? []|reflexivity].
  - apply andb_true_iff in Hplain. destruct Hplain as [Hs Hplain].
    rewrite (splicedName_identifier _ Hs).
    destruct (Nat.ltb_spec 1 (match_count (usedName s) text)) as [Hlt|Hle].
    + exists false. split; [reflexivity|]. split; [discriminate|]. intros Hall.
      specialize (Hall s (or_introl eq_refl)). lia.
    + destruct (IH Hplain) as (all & Hall & Hiff). exists all.
      split; [exact Hall|]. rewrite Hiff. split.
      * intros Hrest symbol [<-|Hin]; auto.
      * intros Hrest symbol Hin. apply Hrest. now right.
Qed.

Lemma reportsUnused_plain text importStmt :
  plainImport importStmt = true ->
  exists report, reportsUnused text importStmt = Some report
    /\ (report = true
        <-> isWildcard importStmt = false
            /\ ((import_type importStmt = "default"
                 /\ test_access (import_moduleName importStmt) text = false)
                \/ (import_type importStmt = "named"
                    /\ forall symbol, In symbol (symbols importStmt) ->
                                      match_count (usedName symbol) text <= 1))).
Proof.
  unfold plainImport, reportsUnused. intros Hplain.
  destruct (isWildcard importStmt).
  { exists false. split; [reflexivity|]. split; [discriminate|]. now intros [[=] _]. }
  destruct (String.eqb_spec (import_type importStmt) "default") as [Hd|Hd].
  { rewrite (splicedName_identifier _ Hplain). cbn [option_map].
    eexists. split; [reflexivity|]. rewrite negb_true_iff. split.
    - intros Ht. auto.
    - intros (_ & [[_ Ht]|[Hn _]]); [exact Ht|].
      rewrite Hd in Hn. discriminate. }
  destruct (String.eqb_spec (import_type importStmt) "named") as [Hn|Hn].
  { destruct (allUnused_iff text _ Hplain) as (all & Hall & Hiff).
    exists all. split; [exact Hall|]. rewrite Hiff. split.
    - intros Hsyms. auto.
    - intros (_ & [[Hd' _]|[_ Hsyms]]); [contradiction|exact Hsyms]. }
  exists false. split; [reflexivity|]. split; [discriminate|].
  intros (_ & [[Hd' _]|[Hn' _]]); contradiction.
Qed.

Lemma unusedAmong_plain text imports :
  forallb plainImport imports = true ->
  exists unused, unusedAmong text imports = Some unused
    /\ forall importStmt,
         In importStmt unused
         <-> In importStmt imports /\ reportsUnused text importStmt = Some true.
Proof.
  induction imports as [|i imports IH]; cbn [forallb unusedAmong]; intros Hplain.
  - exists []. split; [reflexivity|]. intros importStmt. simpl. tauto.
  - apply andb_true_iff in Hplain. destruct Hplain as [Hi Hplain].
    destruct (reportsUnused_plain text i Hi) as (report & Hreport & _).
    destruct (IH Hplain) as (unused & Hunused & Hiff).
    rewrite Hreport, Hunused. cbn [option_map].
    eexists. split; [reflexivity|]. intros importStmt.
    destruct report.
    + cbn [In]. rewrite Hiff. split.
      * intros [<-|[Hin Hr]]; auto.
      * intros [[<-|Hin] Hr]; auto.
    + rewrite Hiff. cbn [In]. split.
      * intros [Hin Hr]. auto.
      * intros [[<-|Hin] Hr]; [congruence|auto].
Qed.

Section UnusedImportsFacts.
  Context {TextDocument : Type} `{Scanner TextDocument}.

(** C8 (amended): take a document in which every name the imports hand to
    a pattern is made of word characters (ASCII letters, digits and the
    underscore): the module name of each default import, and the alias, or
    else the name, of each symbol of each named import.  Then
    [getUnusedImports] returns a list, and it reports an import of the
    document exactly when it is not a wildcard import and either it is a
    default import and the text holds no [moduleName.] access at a word
    boundary, or it is a named import and every symbol it lists (by its
    alias when it has one, by its name otherwise) occurs at most once as a
    whole word in the text.  So a named import of a single symbol is
    reported when the symbol occurs exactly once and omitted when it
    occurs a second time, a named import of several symbols is omitted as
    soon as one of them occurs twice, and a wildcard import is never
    reported. *)
Theorem getUnusedImports_reports (document : TextDocument) :
  forallb plainImport (parseImports document) = true ->
  let text := getText document in
  exists unused,
    getUnusedImports document = Some unused
    /\ forall importStmt,
         (In importStmt unused
          <-> In importStmt (parseImports document)
              /\ isWildcard importStmt = false
              /\ ((import_type importStmt = "default"
                   /\ test_access (import_moduleName importStmt) text = false)
                  \/ (import_type importStmt = "named"
                      /\ forall symbol, In symbol (symbols importStmt) ->
                                        match_count (usedName symbol) text <= 1)))
         /\ (forall symbol,
               In importStmt (parseImports document) ->
               isWildcard importStmt = false ->
               import_type importStmt = "named" ->
               symbols importStmt = [symbol] ->
               (match_count (usedName symbol) text = 1 -> In importStmt unused)
               /\ (2 <= match_count (usedName symbol) text -> ~ In importStmt unused))
         /\ (isWildcard importStmt = true -> ~ In importStmt unused).
Proof.
  intros Hplain text.
  destruct (unusedAmong_plain text _ Hplain) as (unused & Hunused & Hmem).
  exists unused. split; [exact Hunused|]. intros importStmt.
  assert (Hiff : In importStmt unused
   <-> In importStmt (parseImports document)
       /\ isWildcard importStmt = false
       /\ ((import_type importStmt = "default"
            /\ test_access (import_moduleName importStmt) text = false)
           \/ (import_type importStmt = "named"
               /\ forall symbol, In symbol (symbols importStmt) ->
                                 match_count (usedName symbol) text <= 1))).
  { rewrite Hmem. split.
    - intros [Hin Hr]. split; [exact Hin|].
      assert (Hp : plainImport importStmt = true)
        by (rewrite forallb_forall in Hplain; now apply Hplain).
      destruct (reportsUnused_plain text importStmt Hp) as (report & Hreport & Hrep).
      apply Hrep. congruence.
    - intros (Hin & Hrest). split; [exact Hin|].
      assert (Hp : plainImport importStmt = true)
        by (rewrite forallb_forall in Hplain; now apply Hplain).
      destruct (reportsUnused_plain text importStmt Hp) as (report & Hreport & Hrep).
      rewrite Hreport. f_equal. now apply Hrep. }
  split; [exact Hiff|]. split.
  - intros symbol Hin Hw Hn Hsyms. split.
    + intros Hone. apply Hiff. repeat split; try assumption.
      right. split; [exact Hn|]. rewrite Hsyms.
      intros s [<-|[]]. lia.
    + intros Htwo Hrep. apply Hiff in Hrep.
      destruct Hrep as (_ & _ & [[Hd _]|[_ Hall]]).
      * rewrite Hn in Hd. discriminate.
      * specialize (Hall symbol). rewrite Hsyms in Hall.
        specialize (Hall (or_introl eq_refl)). lia.
  - intros Hw Hrep. apply Hiff in Hrep. destruct Hrep as (_ & Hw' & _). congruence.
Qed.
End UnusedImportsFacts.

Lemma getUnusedImports_reports_witness :
  forallb plainImport (parseImports statsDoc) = true
  /\ exists unused,
       getUnusedImports statsDoc = Some unused /\ ~ In importSumAvg unused.
Proof.
  split; [reflexivity|].
  destruct (@getUnusedImports_reports ScannedDocument scannedDocument statsDoc eq_refl)
    as (unused & Hunused & Hall).
  exists unused. split; [exact Hunused|].
  intros Hin. apply (proj1 (Hall importSumAvg)) in Hin.
  destruct Hin as (_ & _ & [[Hd _]|[_ Hsyms]]); [discriminate Hd|].
  specialize (Hsyms {| imported_name := "Avg"; alias := None |}
                    (or_intror (or_introl eq_refl))).
  vm_compute in Hsyms. lia.
Defined.

Lemma named_import_once_not_reported :
  In importSumAvg (parseImports statsDoc)
  /\ import_type importSumAvg = "named"
  /\ In {| imported_name := "Sum"; alias := None |} (symbols importSumAvg)
  /\ match_count (usedName {| imported_name := "Sum"; alias := None |})
                 (getText statsDoc) = 1
  /\ getUnusedImports statsDoc = Some [].
Proof.
  repeat split; try reflexivity; simpl; auto.
Qed.

(** ** The invariant of the per-file map, and the sample workspace *)

Lemma jsmap_set_keys_In {K V} (keq : K -> K -> bool)
  (m : JsMap.t (K:=K) (V:=V)) k v k' :
  In k' (JsMap.keys (JsMap.set keq m k v)) -> k' = k \/ In k' (JsMap.keys m).
Proof.
  induction m as [|[k0 v0] m IH]; simpl.
  - intros [<-|[]]. now left.
  - destruct (keq k0 k); simpl.
    + intros [<-|Hin]; right; [now left|now right].
    + intros [<-|Hin]; [right; now left|].
      destruct (IH Hin) as [->|Hin']; [now left|right; now right].
Qed.

Lemma jsmap_set_keys_NoDup {K V} (keq : K -> K -> bool)
  (keq_spec : forall a b, reflect (a = b) (keq a b))
  (m : JsMap.t (K:=K) (V:=V)) k v :
  NoDup (JsMap.keys m) -> NoDup (JsMap.keys (JsMap.set keq m k v)).
Proof.
  induction m as [|[k0 v0] m IH]; simpl; intros Hnd.
  - repeat constructor. intros [].
  - inversion Hnd as [|? ? Hnotin Hnd']; subst.
    destruct (keq_spec k0 k) as [->|Hne]; simpl.
    + now constructor.
    + constructor; [|now apply IH].
      intros Hin. apply jsmap_set_keys_In in Hin.
      destruct Hin as [->|Hin]; [congruence|contradiction].
Qed.

Lemma setDiagnostics_keeps_unique_sources agg uri src diags uri' :
  NoDup (JsMap.keys (fileDiagnosticsOf agg uri')) ->
  NoDup (JsMap.keys (fileDiagnosticsOf (setDiagnostics agg uri src diags) uri')).
Proof.
  intros Hnd.
  destruct (String.eqb_spec (normalizeUri uri) (normalizeUri uri')) as [E|Hne].
  - assert (Hsame : forall a, fileDiagnosticsOf a uri' = fileDiagnosticsOf a uri)
      by (intros a; unfold fileDiagnosticsOf; now rewrite E).
    rewrite Hsame in *. rewrite fileDiagnosticsOf_set.
    now apply (jsmap_set_keys_NoDup source_eqb source_eqb_spec).
  - unfold fileDiagnosticsOf in *.
    rewrite diagnostics_set_other by congruence. exact Hnd.
Qed.

Example sample_exports :
  map sym_name (getModuleExports sampleIndex "Arr") = ["Sum"; "Report"]
  /\ getWildcardImportedSymbols sampleIndex mainUri = getModuleExports sampleIndex "Arr"
  /\ getWildcardImportSourceModule sampleIndex mainUri "Sum" = Some "Arr"
  /\ getUnusedImports mainDoc = Some [].
Proof. repeat split. Qed.

Example sample_match_count :
  match_count "Sum" "import {Sum} from Arr
x := Sum([1,2]) + Summary" = 2
  /\ test_access "Arr" "import Arr
y := xArr.f()" = false
  /\ test_access "Arr" "import Arr
y := Arr.f()" = true.
Proof. repeat split. Qed.

Example sample_priority_order :
  map agg_source
    (getDiagnostics
       (setDiagnostics
          (setDiagnostics newAggregator mainUri lsp
             [convertAlphaDiagnostic (neverAssigned "Total")])
          mainUri alpha [convertAlphaDiagnostic (neverAssigned "Total")])
       mainUri)
  = [alpha; lsp]
  /\ List.length
       (getDeduplicatedDiagnostics
          (setDiagnostics
             (setDiagnostics newAggregator mainUri lsp
                [convertAlphaDiagnostic (neverAssigned "Total")])
             mainUri alpha [convertAlphaDiagnostic (neverAssigned "Total")])
          mainUri) = 1.
Proof. split; reflexivity. Qed.

(* ================================================================== *)
(** * Further properties of the index *)

Lemma jsmap_set_In_cases {K V} (keq : K -> K -> bool)
  (keq_spec : forall a b, reflect (a = b) (keq a b))
  (m : JsMap.t (K:=K) (V:=V)) k v k' v' :
  In (k', v') (JsMap.set keq m k v) -> (k' = k /\ v' = v) \/ In (k', v') m.
Proof.
  induction m as [|[k0 v0] m IH]; simpl.
  - intros [[= -> ->]|[]]. now left.
  - destruct (keq_spec k0 k) as [->|Hne]; simpl.
    + intros [[= -> ->]|Hin]; [now left|right; now right].
    + intros [E|Hin]; [right; now left|].
      destruct (IH Hin) as [?|?]; [now left|right; now right].
Qed.

Lemma jsmap_delete_In {K V} (keq : K -> K -> bool)
  (m : JsMap.t (K:=K) (V:=V)) k e :
  In e (JsMap.delete keq m k) -> In e m.
Proof. unfold JsMap.delete. intros Hin. now apply filter_In in Hin. Qed.

Lemma jsmap_delete_keys_NoDup {K V} (keq : K -> K -> bool)
  (m : JsMap.t (K:=K) (V:=V)) k :
  NoDup (JsMap.keys m) -> NoDup (JsMap.keys (JsMap.delete keq m k)).
Proof.
  unfold JsMap.keys, JsMap.delete.
  induction m as [|[k0 v0] m IH]; simpl; intros Hnd; [constructor|].
  inversion Hnd as [|? ? Hnotin Hnd']; subst.
  destruct (keq k0 k); simpl; [now apply IH|].
  constructor; [|now apply IH].
  intros Hin. apply Hnotin. apply in_map_iff in Hin.
  destruct Hin as (e & He & Hin). apply filter_In in Hin.
  apply in_map_iff. exists e. tauto.
Qed.

Lemma smap_set_keys_NoDup {V} (m : StrMap V) k v :
  NoDup (JsMap.keys m) -> NoDup (JsMap.keys (smap_set m k v)).
Proof. apply jsmap_set_keys_NoDup, String.eqb_spec. Qed.

Lemma smap_delete_keys_NoDup {V} (m : StrMap V) k :
  NoDup (JsMap.keys m) -> NoDup (JsMap.keys (smap_delete m k)).
Proof. apply jsmap_delete_keys_NoDup. Qed.

Lemma addByName_eq m s :
  addByName m s
  = smap_set m (sym_name s) (get_or_nil (smap_get m (sym_name s)) ++ [s]).
Proof.
  unfold addByName, smap_has, JsMap.has. fold (smap_get m (sym_name s)).
  destruct (smap_get m (sym_name s)) as [l|] eqn:Hm.
  - now rewrite Hm.
  - rewrite smap_get_set, String.eqb_refl. simpl.
    apply (jsmap_set_set String.eqb String.eqb_spec).
Qed.

Lemma addByName_wf m s :
  NoDup (JsMap.keys m) -> bucketsNonEmpty m ->
  NoDup (JsMap.keys (addByName m s)) /\ bucketsNonEmpty (addByName m s).
Proof.
  intros Hnd Hne. rewrite addByName_eq. split.
  - now apply smap_set_keys_NoDup.
  - intros n syms Hin.
    apply (jsmap_set_In_cases String.eqb String.eqb_spec) in Hin.
    destruct Hin as [[_ ->]|Hin]; [|now apply (Hne n)].
    now destruct (get_or_nil _).
Qed.

Lemma fold_addByName_wf syms : forall m,
  NoDup (JsMap.keys m) -> bucketsNonEmpty m ->
  NoDup (JsMap.keys (fold_left addByName syms m))
  /\ bucketsNonEmpty (fold_left addByName syms m).
Proof.
  induction syms as [|s syms IH]; intros m Hnd Hne; simpl; [now split|].
  destruct (addByName_wf m s Hnd Hne). now apply IH.
Qed.

Lemma removeByName_wf fs m e :
  NoDup (JsMap.keys m) -> bucketsNonEmpty m ->
  NoDup (JsMap.keys (removeByName fs m e)) /\ bucketsNonEmpty (removeByName fs m e).
Proof.
  intros Hnd Hne. unfold removeByName.
  destruct (smap_get m (symbolName e)) as [syms|]; [|now split].
  destruct (filter _ syms) as [|s0 l] eqn:Hf; cbn [List.length Nat.ltb Nat.leb].
  - split; [now apply smap_delete_keys_NoDup|].
    intros n l Hin. apply jsmap_delete_In in Hin. now apply (Hne n).
  - split; [now apply smap_set_keys_NoDup|].
    intros n l' Hin.
    apply (jsmap_set_In_cases String.eqb String.eqb_spec) in Hin.
    destruct Hin as [[_ ->]|Hin]; [discriminate|now apply (Hne n)].
Qed.

Lemma fold_removeByName_wf fs es : forall m,
  NoDup (JsMap.keys m) -> bucketsNonEmpty m ->
  NoDup (JsMap.keys (fold_left (removeByName fs) es m))
  /\ bucketsNonEmpty (fold_left (removeByName fs) es m).
Proof.
  induction es as [|e es IH]; intros m Hnd Hne; simpl; [now split|].
  destruct (removeByName_wf fs m e Hnd Hne). now apply IH.
Qed.

Section IndexInvariant.
  Context {TextDocument : Type} `{Scanner TextDocument}.

Lemma wfIndex_indexFile (idx : SymbolIndex) (uri : Uri)
  (document : option TextDocument) (now : Z) :
  wfIndex idx -> wfIndex (indexFile idx uri document now).
Proof.
  intros (Hm & Hsm & Hsn & Hw & Hne).
  destruct document as [document|]; [|repeat split; assumption].
  unfold indexFile, indexWildcardImports, indexSymbols, wfIndex.
  cbn [modules symbolsByModule symbolsByName wildcardImportsByDocument
       mod_name mod_exports].
  destruct (fold_addByName_wf
              (map (mkSymbol
                      {| mod_uri := uri;
                         mod_name := or_else (getModuleDirectiveName document)
                                             (getModuleName (fsPath uri));
                         mod_exports := parseExports document;
                         mod_imports := parseImports document;
                         indexed := true; lastModified := now |})
                   (parseExports document))
              (symbolsByName idx) Hsn Hne) as [Hsn' Hne'].
  repeat split; try assumption; try (now apply smap_set_keys_NoDup).
  destruct (0 <? _)%nat;
    [now apply smap_set_keys_NoDup|now apply smap_delete_keys_NoDup].
Qed.
End IndexInvariant.

Lemma wfIndex_removeFile (idx : SymbolIndex) (uri : Uri) :
  wfIndex idx -> wfIndex (removeFile idx uri).
Proof.
  intros (Hm & Hsm & Hsn & Hw & Hne). unfold removeFile.
  destruct (smap_get (modules idx) (fsPath uri)) as [moduleInfo|];
    [|repeat split; assumption].
  unfold wfIndex.
  cbn [modules symbolsByModule symbolsByName wildcardImportsByDocument].
  destruct (fold_removeByName_wf (fsPath uri) (mod_exports moduleInfo)
              (symbolsByName idx) Hsn Hne) as [Hsn' Hne'].
  repeat split; try assumption; now apply smap_delete_keys_NoDup.
Qed.

Lemma wfIndex_emptyIndex : wfIndex emptyIndex.
Proof. repeat split; try constructor. intros n syms []. Qed.

Lemma wfIndex_sampleIndex : wfIndex sampleIndex.
Proof.
  unfold sampleIndex. apply wfIndex_indexFile, wfIndex_indexFile, wfIndex_emptyIndex.
Qed.

Section IndexShape.
  Context {TextDocument : Type} `{Scanner TextDocument}.

(** X1: the index keeps its shape.  Starting from an index in which no map
    holds a key twice and every bucket of the name-based index holds a
    symbol, [indexFile] (whether or not the document could be opened) and
    [removeFile] give an index of the same kind. *)
Theorem wfIndex_preserved (idx : SymbolIndex) (uri : Uri)
  (document : option TextDocument) (now : Z) :
  wfIndex idx ->
  wfIndex (indexFile idx uri document now) /\ wfIndex (removeFile idx uri).
Proof.
  intros Hwf. split; [now apply wfIndex_indexFile|now apply wfIndex_removeFile].
Qed.
End IndexShape.

Lemma wfIndex_preserved_witness :
  wfIndex (indexFile sampleIndex arrUri (Some arrDoc) 1002)
  /\ wfIndex (removeFile sampleIndex arrUri).
Proof.
  apply (wfIndex_preserved sampleIndex arrUri (Some arrDoc) 1002).
  exact wfIndex_sampleIndex.
Defined.

(** ** Lookups after indexing *)

Lemma jsmap_In_get {K V} (keq : K -> K -> bool)
  (keq_spec : forall a b, reflect (a = b) (keq a b))
  (m : JsMap.t (K:=K) (V:=V)) k v :
  NoDup (JsMap.keys m) -> In (k, v) m -> JsMap.get keq m k = Some v.
Proof.
  induction m as [|[k0 v0] m IH]; simpl; intros Hnd Hin; [contradiction|].
  inversion Hnd as [|? ? Hnotin Hnd']; subst.
  destruct (keq_spec k0 k) as [->|Hne].
  - destruct Hin as [[= ->]|Hin]; [reflexivity|].
    exfalso. apply Hnotin. apply in_map_iff. now exists (k, v).
  - destruct Hin as [[= -> ->]|Hin]; [congruence|now apply IH].
Qed.

Lemma getSymbols_fold_removeByName_cases fs es : forall m n,
  get_or_nil (smap_get (fold_left (removeByName fs) es m) n)
  = if existsb (fun e => String.eqb (symbolName e) n) es
    then filter (fun s => negb (String.eqb (fsPath (sym_moduleUri s)) fs))
                (get_or_nil (smap_get m n))
    else get_or_nil (smap_get m n).
Proof.
  induction es as [|e es IH]; intros m n; simpl; [reflexivity|].
  rewrite IH, getSymbols_removeByName.
  destruct (String.eqb (symbolName e) n); simpl; [|reflexivity].
  rewrite filter_filter. now destruct (existsb _ es).
Qed.

Lemma filter_all_true {A} (p : A -> bool) l :
  (forall x, In x l -> p x = true) -> filter p l = l.
Proof.
  induction l as [|x l IH]; simpl; intros Hall; [reflexivity|].
  rewrite (Hall x (or_introl eq_refl)), IH; auto.
Qed.

Lemma filter_all_false {A} (p : A -> bool) l :
  (forall x, In x l -> p x = false) -> filter p l = [].
Proof.
  induction l as [|x l IH]; simpl; intros Hall; [reflexivity|].
  rewrite (Hall x (or_introl eq_refl)), IH; auto.
Qed.

Section Lookups.
  Context {TextDocument : Type} `{Scanner TextDocument}.

Lemma getModuleExports_indexFile idx uri document now :
  getModuleExports (indexFile idx uri (Some document) now)
    (or_else (getModuleDirectiveName document) (getModuleName (fsPath uri)))
  = symbolsOf uri document.
Proof.
  unfold getModuleExports, indexFile, indexWildcardImports, indexSymbols.
  cbn [symbolsByModule mod_name mod_exports].
  now rewrite smap_get_set, String.eqb_refl.
Qed.

Lemma symbolsOf_named uri document n :
  existsb (fun e => String.eqb (symbolName e) n) (parseExports document) = false ->
  filter (named n) (symbolsOf uri document) = [].
Proof.
  intros Hno. apply filter_all_false. intros s Hs.
  unfold symbolsOf in Hs. apply in_map_iff in Hs. destruct Hs as (e & <- & He).
  unfold named. cbn [sym_name].
  destruct (String.eqb (symbolName e) n) eqn:E; [|reflexivity].
  assert (existsb (fun e => String.eqb (symbolName e) n) (parseExports document) = true)
    by (apply existsb_exists; eauto).
  congruence.
Qed.

Lemma byName_after_set (m : StrMap ModuleInfo) key record :
  exists r,
    find (fun x => String.eqb (mod_name x) (mod_name record))
         (JsMap.values (smap_set m key record)) = Some r
    /\ mod_name r = mod_name record
    /\ (r = record \/ exists k, k <> key /\ In (k, r) m).
Proof.
  induction m as [|[k0 v0] m IH]; cbn [smap_set JsMap.set].
  - exists record. cbn. rewrite String.eqb_refl. auto.
  - fold (smap_set m key record).
    destruct (String.eqb_spec k0 key) as [->|Hne].
    + exists record. cbn. rewrite String.eqb_refl. auto.
    + cbn [JsMap.values map snd find]. fold (JsMap.values (smap_set m key record)).
      destruct (String.eqb_spec (mod_name v0) (mod_name record)) as [E|E].
      * exists v0. repeat split; [exact E|]. right. exists k0. split; [exact Hne|now left].
      * destruct IH as (r & Hr & Hname & Hwhich). exists r.
        repeat split; [exact Hr|exact Hname|].
        destruct Hwhich as [->|(k & Hk & Hin)]; [now left|].
        right. exists k. split; [exact Hk|now right].
Qed.

Lemma byName_after_set_only (m : StrMap ModuleInfo) key record :
  (forall k r, In (k, r) m -> k <> key -> mod_name r <> mod_name record) ->
  find (fun x => String.eqb (mod_name x) (mod_name record))
       (JsMap.values (smap_set m key record)) = Some record.
Proof.
  induction m as [|[k0 v0] m IH]; cbn [smap_set JsMap.set]; intros Hother.
  - cbn. now rewrite String.eqb_refl.
  - fold (smap_set m key record).
    destruct (String.eqb_spec k0 key) as [->|Hne].
    + cbn. now rewrite String.eqb_refl.
    + cbn [JsMap.values map snd find]. fold (JsMap.values (smap_set m key record)).
      destruct (String.eqb_spec (mod_name v0) (mod_name record)) as [E|E].
      * exfalso. exact (Hother k0 v0 (or_introl eq_refl) Hne E).
      * apply IH. intros k r Hin. apply Hother. now right.
Qed.

Lemma byName_after_set_earlier (before after : StrMap ModuleInfo) k r key record :
  k <> key ->
  mod_name r = mod_name record ->
  (forall k' r', In (k', r') before ->
                 k' <> key /\ mod_name r' <> mod_name record) ->
  find (fun x => String.eqb (mod_name x) (mod_name record))
       (JsMap.values (smap_set (before ++ (k, r) :: after) key record)) = Some r.
Proof.
  intros Hk Hname. induction before as [|[k0 v0] before IH]; intros Hbefore;
    cbn [app smap_set JsMap.set].
  - destruct (String.eqb_spec k key) as [E|_]; [contradiction|].
    cbn. now rewrite Hname, String.eqb_refl.
  - fold (smap_set (before ++ (k, r) :: after) key record).
    destruct (Hbefore k0 v0 (or_introl eq_refl)) as [Hk0 Hv0].
    destruct (String.eqb_spec k0 key) as [E|_]; [contradiction|].
    cbn [JsMap.values map snd find].
    fold (JsMap.values (smap_set (before ++ (k, r) :: after) key record)).
    destruct (String.eqb_spec (mod_name v0) (mod_name record)) as [E|_];
      [contradiction|].
    apply IH. intros k' r' Hin. apply Hbefore. now right.
Qed.

(** X2: what [indexFile] stores can be read back at once.  The record
    found under the file holds exactly the exports and imports the scanner
    returned.  [getModuleByName] returns a record that bears the module's
    name: the one just stored when no other file's record bears that name;
    but when another file whose record bears the name was entered into the
    map before this file and before every other bearer of the name, it is
    that file's record, not the one just stored.  The module's export list
    is replaced by
    the symbols of this scan, whatever was there before; and every export
    can be found by name, is reported by [isSymbolExportedBy], and puts the
    module into [findModuleExportingSymbol]. *)
Theorem indexFile_then_lookup (idx : SymbolIndex) (uri : Uri)
  (document : TextDocument) (now : Z) :
  let idx' := indexFile idx uri (Some document) now in
  let moduleName :=
    or_else (getModuleDirectiveName document) (getModuleName (fsPath uri)) in
  let record :=
    {| mod_uri := uri; mod_name := moduleName;
       mod_exports := parseExports document;
       mod_imports := parseImports document;
       indexed := true; lastModified := now |} in
  getModuleByUri idx' uri = Some record
  /\ (exists m, getModuleByName idx' moduleName = Some m
                /\ mod_name m = moduleName
                /\ (m = record
                    \/ exists file, file <> fsPath uri /\ In (file, m) (modules idx)))
  /\ ((forall file m, In (file, m) (modules idx) -> file <> fsPath uri ->
                      mod_name m <> moduleName) ->
      getModuleByName idx' moduleName = Some record)
  /\ (forall before file m after,
        modules idx = before ++ (file, m) :: after ->
        file <> fsPath uri ->
        mod_name m = moduleName ->
        (forall file' m', In (file', m') before ->
                          file' <> fsPath uri /\ mod_name m' <> moduleName) ->
        getModuleByName idx' moduleName = Some m)
  /\ getModuleExports idx' moduleName = symbolsOf uri document
  /\ forall e, In e (parseExports document) ->
       isSymbolExportedBy idx' (symbolName e) moduleName = true
       /\ In moduleName (findModuleExportingSymbol idx' (symbolName e))
       /\ exists s, In s (getSymbolsByName idx' (symbolName e))
                    /\ sym_moduleUri s = uri
                    /\ sym_moduleName s = moduleName
                    /\ sym_type s = symbolType e
                    /\ loc_range (sym_location s) = export_range e.
Proof.
  intros idx' moduleName record.
  assert (Hrec : getModuleByUri idx' uri = Some record).
  { unfold getModuleByUri, idx', indexFile, indexWildcardImports, indexSymbols.
    cbn [modules]. now rewrite smap_get_set, String.eqb_refl. }
  assert (Hexp : getModuleExports idx' moduleName = symbolsOf uri document)
    by apply getModuleExports_indexFile.
  assert (Hmods : modules idx' = smap_set (modules idx) (fsPath uri) record)
    by reflexivity.
  split; [exact Hrec|].
  split; [|split; [|split; [|split; [exact Hexp|]]]].
  - unfold getModuleByName. rewrite Hmods.
    exact (byName_after_set (modules idx) (fsPath uri) record).
  - intros Hother. unfold getModuleByName. rewrite Hmods.
    exact (byName_after_set_only (modules idx) (fsPath uri) record Hother).
  - intros before file m after Hsplit Hfile Hname Hbefore.
    unfold getModuleByName. rewrite Hmods, Hsplit.
    exact (byName_after_set_earlier before after file m (fsPath uri) record
             Hfile Hname Hbefore).
  - intros e He.
    assert (Hsym : In (mkSymbol {| mod_uri := uri; mod_name := moduleName;
                                   mod_exports := []; mod_imports := [];
                                   indexed := true; lastModified := 0 |} e)
                      (symbolsOf uri document)).
    { unfold symbolsOf. apply in_map_iff. exists e. split; [reflexivity|exact He]. }
    assert (Hsome : some (fun s => String.eqb (sym_name s) (symbolName e))
                         (symbolsOf uri document) = true).
    { apply existsb_exists. eexists. split; [exact Hsym|]. apply String.eqb_refl. }
    split; [|split].
    + unfold isSymbolExportedBy. now rewrite Hexp.
    + unfold findModuleExportingSymbol. apply in_map_iff.
      exists (moduleName, symbolsOf uri document). split; [reflexivity|].
      apply filter_In. split; [|exact Hsome].
      unfold JsMap.entries.
      apply (jsmap_get_In String.eqb String.eqb_spec).
      change (smap_get (symbolsByModule idx') moduleName
              = Some (symbolsOf uri document)).
      unfold idx', indexFile, indexWildcardImports, indexSymbols.
      cbn [symbolsByModule mod_name mod_exports].
      now rewrite smap_get_set, String.eqb_refl.
    + eexists. split.
      * unfold idx'. rewrite getSymbolsByName_indexFile. apply in_or_app. right.
        apply filter_In. split; [exact Hsym|]. apply String.eqb_refl.
      * repeat split.
Qed.

Example sample_same_module_name :
  let second := {| fsPath := "c:\ws\lib\Arr.ahk" |} in
  let idx' := indexFile sampleIndex second (Some arrDoc) 1002 in
  option_map mod_uri (getModuleByName idx' "Arr") = Some arrUri
  /\ option_map mod_uri (getModuleByUri idx' second) = Some second.
Proof. split; reflexivity. Qed.

(** X3: indexing a file and then removing it leaves the name-based index
    as it was, for a file that had no symbol in it before: every
    [getSymbolsByName] answer is the one given before the file was indexed,
    and the file's record is gone. *)
Theorem index_then_remove_restores_names (idx : SymbolIndex) (uri : Uri)
  (document : TextDocument) (now : Z) :
  (forall n s, In s (getSymbolsByName idx n) ->
               fsPath (sym_moduleUri s) <> fsPath uri) ->
  let idx' := removeFile (indexFile idx uri (Some document) now) uri in
  (forall n, getSymbolsByName idx' n = getSymbolsByName idx n)
  /\ getModuleByUri idx' uri = None.
Proof.
  intros Hfresh idx'.
  assert (Hrec : smap_get (modules (indexFile idx uri (Some document) now)) (fsPath uri)
                 = Some {| mod_uri := uri;
                           mod_name := or_else (getModuleDirectiveName document)
                                               (getModuleName (fsPath uri));
                           mod_exports := parseExports document;
                           mod_imports := parseImports document;
                           indexed := true; lastModified := now |}).
  { unfold indexFile, indexWildcardImports, indexSymbols.
    cbn [modules]. now rewrite smap_get_set, String.eqb_refl. }
  split.
  - intros n. unfold idx', removeFile. rewrite Hrec.
    unfold getSymbolsByName at 1. cbn [symbolsByName mod_exports].
    rewrite getSymbols_fold_removeByName_cases.
    fold (getSymbolsByName (indexFile idx uri (Some document) now) n).
    rewrite getSymbolsByName_indexFile.
    destruct (existsb _ (parseExports document)) eqn:Hex.
    + rewrite filter_app.
      rewrite (filter_all_true _ (getSymbolsByName idx n)).
      * rewrite filter_all_false; [apply app_nil_r|].
        intros s Hs. apply filter_In in Hs. destruct Hs as [Hs _].
        unfold symbolsOf in Hs. apply in_map_iff in Hs.
        destruct Hs as (e & <- & _). cbn [sym_moduleUri].
        now rewrite String.eqb_refl.
      * intros s Hs. apply negb_true_iff. apply String.eqb_neq. now apply (Hfresh n).
    + rewrite symbolsOf_named by exact Hex. apply app_nil_r.
  - unfold idx', getModuleByUri, removeFile. rewrite Hrec. cbn [modules].
    now rewrite smap_get_delete, String.eqb_refl.
Qed.
End Lookups.

Lemma index_then_remove_restores_names_witness :
  (forall n,
     getSymbolsByName
       (removeFile
          (indexFile (indexFile emptyIndex arrUri (Some arrDoc) 1000)
                     mainUri (Some mainDocWithExport) 1001) mainUri) n
     = getSymbolsByName (indexFile emptyIndex arrUri (Some arrDoc) 1000) n)
  /\ getModuleByUri
       (removeFile
          (indexFile (indexFile emptyIndex arrUri (Some arrDoc) 1000)
                     mainUri (Some mainDocWithExport) 1001) mainUri) mainUri
     = None.
Proof.
  apply (index_then_remove_restores_names
           (indexFile emptyIndex arrUri (Some arrDoc) 1000) mainUri
           mainDocWithExport 1001).
  intros n s Hs. rewrite getSymbolsByName_indexFile in Hs.
  cbn [getSymbolsByName emptyIndex symbolsByName smap_get JsMap.get get_or_nil app] in Hs.
  apply filter_In in Hs. destruct Hs as [Hs _].
  destruct Hs as [<-|[<-|[]]]; discriminate.
Defined.

(** X4: [removeFile] takes nothing away from other files.  A symbol that
    belongs to another file stays in the answer of [getSymbolsByName], the
    record of every other file stays where it is, and the exports of a
    module with another name are untouched. *)
Theorem removeFile_keeps_other_files (idx : SymbolIndex) (uri : Uri) :
  (forall n s, In s (getSymbolsByName idx n) ->
               fsPath (sym_moduleUri s) <> fsPath uri ->
               In s (getSymbolsByName (removeFile idx uri) n))
  /\ (forall uri', fsPath uri' <> fsPath uri ->
                   getModuleByUri (removeFile idx uri) uri' = getModuleByUri idx uri')
  /\ (forall moduleInfo m,
        getModuleByUri idx uri = Some moduleInfo ->
        m <> mod_name moduleInfo ->
        getModuleExports (removeFile idx uri) m = getModuleExports idx m).
Proof.
  split; [|split].
  - intros n s Hs Hother. unfold removeFile.
    destruct (smap_get (modules idx) (fsPath uri)) as [moduleInfo|]; [|exact Hs].
    unfold getSymbolsByName. cbn [symbolsByName].
    rewrite getSymbols_fold_removeByName_cases.
    destruct (existsb _ (mod_exports moduleInfo)); [|exact Hs].
    apply filter_In. split; [exact Hs|].
    apply negb_true_iff. now apply String.eqb_neq.
  - intros uri' Hne. unfold getModuleByUri, removeFile.
    destruct (smap_get (modules idx) (fsPath uri)) as [moduleInfo|]; [|reflexivity].
    cbn [modules]. rewrite smap_get_delete.
    destruct (String.eqb_spec (fsPath uri) (fsPath uri')); [congruence|reflexivity].
  - intros moduleInfo m Hrec Hne.
    now apply (getModuleExports_removeFile_other idx uri moduleInfo).
Qed.

(** ** Listing names and modules *)

Lemma insert_name_perm x l : Permutation (x :: l) (insert_name x l).
Proof.
  induction l as [|y l IH]; simpl; [reflexivity|].
  destruct (String.leb x y); [reflexivity|].
  rewrite perm_swap. now apply perm_skip.
Qed.

Lemma sort_names_perm l : Permutation l (sort_names l).
Proof.
  induction l as [|x l IH]; simpl; [constructor|].
  rewrite <- insert_name_perm. now apply perm_skip.
Qed.

Lemma insert_name_sorted x l :
  Sorted (fun a b => String.leb a b = true) l ->
  Sorted (fun a b => String.leb a b = true) (insert_name x l).
Proof.
  induction 1 as [|y l Hs IH Hy]; simpl.
  - repeat constructor.
  - destruct (String.leb x y) eqn:Hxy.
    + constructor; [now constructor|now constructor].
    + constructor; [exact IH|].
      assert (Hyx : String.leb y x = true)
        by (destruct (String.leb_total x y); congruence).
      destruct l as [|z l]; simpl; [now constructor|].
      destruct (String.leb x z); constructor; [exact Hyx|].
      now inversion Hy.
Qed.

Lemma sort_names_sorted l : Sorted (fun a b => String.leb a b = true) (sort_names l).
Proof.
  induction l as [|x l IH]; simpl; [constructor|now apply insert_name_sorted].
Qed.

Lemma smap_get_Some_keys {V} (m : StrMap V) k :
  In k (JsMap.keys m) <-> exists v, smap_get m k = Some v.
Proof.
  unfold smap_get. split.
  - intros Hin. destruct (JsMap.get String.eqb m k) as [v|] eqn:E; [eauto|].
    apply (jsmap_get_None String.eqb String.eqb_spec) in E. contradiction.
  - intros (v & Hv). apply (jsmap_get_In String.eqb String.eqb_spec) in Hv.
    unfold JsMap.keys. apply in_map_iff. now exists (k, v).
Qed.

(** X5: [getAllSymbolNames] lists, in ascending order and without
    repetition, exactly the names for which [getSymbolsByName] finds a
    symbol, in an index of the shape [indexFile] and [removeFile] keep. *)
Theorem getAllSymbolNames_lists_known_names (idx : SymbolIndex) :
  wfIndex idx ->
  (forall n, In n (getAllSymbolNames idx) <-> getSymbolsByName idx n <> [])
  /\ Sorted (fun a b => String.leb a b = true) (getAllSymbolNames idx)
  /\ NoDup (getAllSymbolNames idx).
Proof.
  intros (_ & _ & Hnd & _ & Hne). unfold getAllSymbolNames. split; [|split].
  - intros n. split.
    + intros Hin. apply (Permutation_in _ (Permutation_sym (sort_names_perm _))) in Hin.
      apply smap_get_Some_keys in Hin. destruct Hin as (syms & Hget).
      unfold getSymbolsByName. rewrite Hget. simpl.
      apply (Hne n). now apply (jsmap_get_In String.eqb String.eqb_spec).
    + intros Hsyms. apply (Permutation_in _ (sort_names_perm _)).
      apply smap_get_Some_keys. unfold getSymbolsByName in Hsyms.
      destruct (smap_get (symbolsByName idx) n) as [syms|]; [eauto|].
      now contradiction Hsyms.
  - apply sort_names_sorted.
  - apply (Permutation_NoDup (sort_names_perm _)). exact Hnd.
Qed.

Lemma getAllSymbolNames_lists_known_names_witness :
  (forall n, In n (getAllSymbolNames sampleIndex)
             <-> getSymbolsByName sampleIndex n <> [])
  /\ Sorted (fun a b => String.leb a b = true) (getAllSymbolNames sampleIndex)
  /\ NoDup (getAllSymbolNames sampleIndex).
Proof.
  apply (getAllSymbolNames_lists_known_names sampleIndex).
  exact wfIndex_sampleIndex.
Defined.

(** X6: [findModuleExportingSymbol] and [isSymbolExportedBy] agree: a
    module is listed for a name exactly when [isSymbolExportedBy] says it
    exports that name, in an index whose per-module map holds no key
    twice. *)
Theorem findModuleExportingSymbol_iff (idx : SymbolIndex)
  (symbolName moduleName : string) :
  NoDup (JsMap.keys (symbolsByModule idx)) ->
  (In moduleName (findModuleExportingSymbol idx symbolName)
   <-> isSymbolExportedBy idx symbolName moduleName = true).
Proof.
  intros Hnd. unfold findModuleExportingSymbol, isSymbolExportedBy,
    getModuleExports, JsMap.entries. split.
  - intros Hin. apply in_map_iff in Hin. destruct Hin as ([m syms] & Hm & Hin).
    simpl in Hm. subst m. apply filter_In in Hin. destruct Hin as [Hin Hsome].
    unfold smap_get.
    now rewrite (jsmap_In_get String.eqb String.eqb_spec _ _ _ Hnd Hin).
  - intros Hsome.
    destruct (smap_get (symbolsByModule idx) moduleName) as [syms|] eqn:Hget;
      [|discriminate].
    apply in_map_iff. exists (moduleName, syms). split; [reflexivity|].
    apply filter_In. split; [|exact Hsome].
    now apply (jsmap_get_In String.eqb String.eqb_spec).
Qed.

Lemma findModuleExportingSymbol_iff_witness :
  In "Arr" (findModuleExportingSymbol sampleIndex "Sum")
  <-> isSymbolExportedBy sampleIndex "Sum" "Arr" = true.
Proof.
  apply (findModuleExportingSymbol_iff sampleIndex "Sum" "Arr").
  destruct wfIndex_sampleIndex as (_ & Hnd & _). exact Hnd.
Defined.

Lemma find_first {A} (p : A -> bool) l x :
  find p l = Some x
  <-> exists before after,
        l = before ++ x :: after
        /\ p x = true
        /\ forall y, In y before -> p y = false.
Proof.
  induction l as [|a l IH]; simpl.
  - split; [discriminate|]. intros (b & c & E & _). now destruct b.
  - destruct (p a) eqn:Ha.
    + split.
      * intros [= <-]. exists [], l. repeat split; [exact Ha|intros y []].
      * intros ([|b before] & after & E & Hx & Hb).
        -- now injection E as <- _.
        -- injection E as <- _. rewrite (Hb a (or_introl eq_refl)) in Ha. discriminate.
    + rewrite IH. split.
      * intros (before & after & -> & Hx & Hb). exists (a :: before), after.
        repeat split; [exact Hx|]. intros y [<-|Hy]; auto.
      * intros ([|b before] & after & E & Hx & Hb).
        -- injection E as <- _. congruence.
        -- injection E as <- ->. exists before, after. repeat split; auto.
           intros y Hy. apply Hb. now right.
Qed.

(** X7: [getWildcardImportSourceModule] names the first module, in the
    order the document wildcard-imports them, whose exports hold the name:
    it answers [m] exactly when [m] stands in the document's record, exports
    the name, and no module before it does. *)
Theorem getWildcardImportSourceModule_first (idx : SymbolIndex) (uri : Uri)
  (symbolName moduleName : string) :
  getWildcardImportSourceModule idx uri symbolName = Some moduleName
  <-> exists before after,
        wildcardModulesOf idx uri = before ++ moduleName :: after
        /\ isSymbolExportedBy idx symbolName moduleName = true
        /\ forall m, In m before -> isSymbolExportedBy idx symbolName m = false.
Proof.
  unfold getWildcardImportSourceModule, wildcardModulesOf.
  destruct (smap_get (wildcardImportsByDocument idx) (fsPath uri)) as [wm|];
    simpl get_or_nil.
  - apply find_first.
  - split; [discriminate|]. intros (b & c & E & _). now destruct b.
Qed.

Section WildcardAfterIndexing.
  Context {TextDocument : Type} `{Scanner TextDocument}.

(** X8: right after [indexFile], the wildcard-imported symbols of the
    document are the exports of the modules it wildcard-imports, module by
    module in the order of the import statements and without removing
    repetitions; a document without a wildcard import has none. *)
Theorem wildcard_symbols_after_indexFile (idx : SymbolIndex) (uri : Uri)
  (document : TextDocument) (now : Z) :
  let idx' := indexFile idx uri (Some document) now in
  getWildcardImportedSymbols idx' uri
  = flat_map (getModuleExports idx')
      (map import_moduleName (filter isWildcard (parseImports document))).
Proof.
  intros idx'. unfold getWildcardImportedSymbols.
  assert (Hrec : smap_get (wildcardImportsByDocument idx') (fsPath uri)
                 = match map import_moduleName
                           (filter isWildcard (parseImports document)) with
                   | [] => None
                   | wm => Some wm
                   end).
  { unfold idx', indexFile, indexWildcardImports, indexSymbols.
    cbn [wildcardImportsByDocument].
    destruct (map import_moduleName (filter isWildcard (parseImports document)))
      as [|m wm]; cbn [List.length Nat.ltb Nat.leb].
    - now rewrite smap_get_delete, String.eqb_refl.
    - now rewrite smap_get_set, String.eqb_refl. }
  rewrite Hrec.
  destruct (map import_moduleName (filter isWildcard (parseImports document)));
    reflexivity.
Qed.
End WildcardAfterIndexing.

(** ** Rebuilding the index *)

Section WorkspaceFacts.
  Context {TextDocument : Type} `{Scanner TextDocument}.

Lemma getSymbolsByName_fold_indexScanned (fs : list ScannedFile) : forall idx n,
  getSymbolsByName (fold_left indexScanned fs idx) n
  = getSymbolsByName idx n
    ++ flat_map (fun f => filter (named n) (symbolsOfScanned f)) fs.
Proof.
  induction fs as [|[[uri document] now] fs IH]; intros idx n; simpl.
  - now rewrite app_nil_r.
  - rewrite IH. unfold indexScanned, symbolsOfScanned. cbn [fst snd].
    destruct document as [document|].
    + now rewrite getSymbolsByName_indexFile, <- app_assoc.
    + reflexivity.
Qed.

Lemma indexFile_other_file idx uri document now key :
  fsPath uri <> key ->
  smap_get (modules (indexFile idx uri document now)) key = smap_get (modules idx) key
  /\ smap_get (wildcardImportsByDocument (indexFile idx uri document now)) key
     = smap_get (wildcardImportsByDocument idx) key.
Proof.
  intros Hne. apply String.eqb_neq in Hne.
  destruct document as [document|]; [|now split].
  unfold indexFile, indexWildcardImports, indexSymbols.
  cbn [modules wildcardImportsByDocument]. split.
  - now rewrite smap_get_set, Hne.
  - destruct (0 <? _)%nat; [rewrite smap_get_set|rewrite smap_get_delete];
      now rewrite Hne.
Qed.

Lemma fold_indexScanned_other_file (fs : list ScannedFile) key : forall idx,
  (forall f, In f fs -> fsPath (fst (fst f)) <> key) ->
  smap_get (modules (fold_left indexScanned fs idx)) key = smap_get (modules idx) key
  /\ smap_get (wildcardImportsByDocument (fold_left indexScanned fs idx)) key
     = smap_get (wildcardImportsByDocument idx) key.
Proof.
  induction fs as [|f fs IH]; intros idx Hother; simpl; [now split|].
  destruct (IH (indexScanned idx f)) as [Hm Hw]; [intros g Hg; apply Hother; now right|].
  destruct (indexFile_other_file idx (fst (fst f)) (snd (fst f)) (snd f) key)
    as [Hm' Hw']; [apply Hother; now left|].
  unfold indexScanned in *. rewrite Hm, Hw. now split.
Qed.

Lemma wfIndex_fold_indexScanned (fs : list ScannedFile) : forall idx,
  wfIndex idx -> wfIndex (fold_left indexScanned fs idx).
Proof.
  induction fs as [|f fs IH]; intros idx Hwf; simpl; [exact Hwf|].
  apply IH. now apply wfIndex_indexFile.
Qed.

(** X9: [indexWorkspace] is skipped while a rebuild is in progress;
    otherwise it forgets the index and rebuilds it from the scanned files.
    Whatever the index held and in whatever order the files complete, the
    name-based index then holds exactly the symbols of the scanned files,
    one entry per export, in completion order; a file that was not scanned
    has no record and no wildcard-imported symbol; and the rebuilt index
    has the shape [wfIndex]. *)
Theorem indexWorkspace_rebuilds (st : Indexer) (completed : list ScannedFile) :
  (indexingInProgress st = true -> indexWorkspace st completed = st)
  /\ (indexingInProgress st = false ->
      let idx' := index (indexWorkspace st completed) in
      indexingInProgress (indexWorkspace st completed) = false
      /\ (forall n,
            getSymbolsByName idx' n
            = flat_map (fun f => filter (named n) (symbolsOfScanned f)) completed)
      /\ (forall uri,
            (forall f, In f completed -> fsPath (fst (fst f)) <> fsPath uri) ->
            getModuleByUri idx' uri = None
            /\ getWildcardImportedSymbols idx' uri = [])
      /\ wfIndex idx').
Proof.
  unfold indexWorkspace. split; intros Hflag; rewrite Hflag; [reflexivity|].
  cbn [index indexingInProgress]. split; [reflexivity|]. split; [|split].
  - intros n. now rewrite getSymbolsByName_fold_indexScanned.
  - intros uri Hother.
    destruct (fold_indexScanned_other_file completed (fsPath uri) emptyIndex Hother)
      as [Hm Hw].
    unfold getModuleByUri, getWildcardImportedSymbols. rewrite Hm, Hw.
    now split.
  - apply wfIndex_fold_indexScanned, wfIndex_emptyIndex.
Qed.
End WorkspaceFacts.

(** ** Soundness of the cycle search *)

Lemma importChain_tail idx a l : importChain idx (a :: l) -> importChain idx l.
Proof. destruct l as [|b l]; simpl; tauto. Qed.

Lemma importChain_skipn idx k : forall l,
  importChain idx l -> importChain idx (skipn k l).
Proof.
  induction k as [|k IH]; intros l Hl; [exact Hl|].
  destruct l as [|a l]; [exact Hl|]. simpl. apply IH.
  now apply importChain_tail in Hl.
Qed.

Lemma importChain_snoc idx l x :
  importChain idx l ->
  (l = [] \/ importsModule idx (last l EmptyString) x) ->
  importChain idx (l ++ [x]).
Proof.
  induction l as [|a l IH]; intros Hl Hx; [exact I|].
  destruct l as [|b l].
  - simpl. destruct Hx as [Hx|Hx]; [discriminate|]. now split.
  - destruct Hl as [Hab Hl]. split; [exact Hab|].
    apply IH; [exact Hl|]. right. destruct Hx as [Hx|Hx]; [discriminate|exact Hx].
Qed.

Lemma skipn_indexOf l x :
  includes l x = true ->
  exists rest,
    skipn (indexOf l x) l = x :: rest
    /\ last (x :: rest) EmptyString = last l EmptyString.
Proof.
  induction l as [|y l IH]; [discriminate|].
  unfold includes in *. cbn [existsb indexOf]. rewrite (String.eqb_sym x y).
  destruct (String.eqb_spec y x) as [->|Hne]; cbn [orb skipn].
  - intros _. now exists l.
  - intros Hin. destruct (IH Hin) as (rest & Hskip & Hlast).
    exists rest. split; [exact Hskip|].
    rewrite Hlast. destruct l; [discriminate|reflexivity].
Qed.

Lemma fold_dfs_None {A} (f : DfsState -> A -> option DfsState) (l : list A) :
  fold_left (fun acc x => match acc with Some s => f s x | None => None end) l None
  = None.
Proof. induction l; simpl; auto. Qed.

Lemma dfs_sound (idx : SymbolIndex) (fuel : nat) :
  forall moduleName st st',
    dfs fuel idx moduleName st = Some st' ->
    importChain idx (path st) ->
    (path st = [] \/ importsModule idx (last (path st) EmptyString) moduleName) ->
    Forall (importCycle idx) (cycles st) ->
    path st' = path st /\ Forall (importCycle idx) (cycles st').
Proof.
  induction fuel as [|fuel IH]; intros moduleName st st' Hrun Hchain Hedge Hcyc;
    [discriminate|].
  cbn [dfs] in Hrun.
  destruct (includes (path st) moduleName) eqn:Hon.
  { injection Hrun as <-. cbn [path cycles]. split; [reflexivity|].
    apply Forall_app. split; [exact Hcyc|]. constructor; [|constructor].
    destruct (skipn_indexOf _ _ Hon) as (rest & Hskip & Hlast).
    rewrite Hskip. exists moduleName, rest. split; [reflexivity|].
    change (moduleName :: rest ++ [moduleName])
      with ((moduleName :: rest) ++ [moduleName]).
    apply importChain_snoc.
    - rewrite <- Hskip. now apply importChain_skipn.
    - right. rewrite Hlast.
      destruct Hedge as [Hnil|Hedge]; [|exact Hedge].
      rewrite Hnil in Hon. discriminate. }
  destruct (includes (visited st) moduleName).
  { injection Hrun as <-. now split. }
  assert (Hloop : forall imports s0 s,
             (forall i, In i imports ->
                        importsModule idx moduleName (import_moduleName i)) ->
             path s0 = path st ++ [moduleName] ->
             Forall (importCycle idx) (cycles s0) ->
             fold_left
               (fun acc importStmt =>
                  match acc with
                  | Some s1 => dfs fuel idx (import_moduleName importStmt) s1
                  | None => None
                  end) imports (Some s0) = Some s ->
             path s = path st ++ [moduleName]
             /\ Forall (importCycle idx) (cycles s)).
  { induction imports as [|i imports IHi]; intros s0 s Hall Hp Hc Hfold; simpl in Hfold.
    - injection Hfold as <-. now split.
    - destruct (dfs fuel idx (import_moduleName i) s0) as [s1|] eqn:Hstep.
      + destruct (IH _ _ _ Hstep) as [Hp1 Hc1].
        * rewrite Hp. now apply importChain_snoc.
        * right. rewrite Hp, last_last. apply Hall. now left.
        * exact Hc.
        * apply (IHi s1 s); auto.
          -- intros j Hj. apply Hall. now right.
          -- congruence.
      + rewrite fold_dfs_None in Hfold. discriminate. }
  destruct (getModuleByName idx moduleName) as [module|] eqn:Hmod.
  - match type of Hrun with
    | match ?f with _ => _ end = _ => destruct f as [s|] eqn:Hfold; [|discriminate]
    end.
    injection Hrun as <-. cbn [path cycles].
    assert (Hres : path s = path st ++ [moduleName]
                   /\ Forall (importCycle idx) (cycles s)).
    { apply (Hloop (mod_imports module)
               {| cycles := cycles st; visited := visited st ++ [moduleName];
                  path := path st ++ [moduleName] |} s).
      - intros i Hi. exists module. split; [exact Hmod|]. now apply in_map.
      - reflexivity.
      - exact Hcyc.
      - exact Hfold. }
    destruct Hres as [Hp Hc]. rewrite Hp, removelast_last. now split.
  - injection Hrun as <-. cbn [path cycles]. rewrite removelast_last. now split.
Qed.

(** X10: every cycle [detectCircularDependencies] reports is a cycle of the
    import graph: a list of module names that ends with the name it starts
    with, in which every module is indexed and imports the next one. *)
Theorem detectCircularDependencies_sound (idx : SymbolIndex)
  (startModule : string) (found : list (list string)) :
  detectCircularDependencies idx startModule = Some found ->
  Forall (importCycle idx) found.
Proof.
  unfold detectCircularDependencies.
  destruct (dfs (dfs_budget idx) idx startModule
              {| cycles := []; visited := []; path := [] |}) as [st'|] eqn:Hrun;
    [|discriminate].
  intros [= <-].
  apply (dfs_sound idx _ _ _ _ Hrun); simpl; auto.
Qed.

Lemma detectCircularDependencies_sound_witness :
  Forall (importCycle ringIndex) [["A"; "B"; "C"; "A"]].
Proof.
  apply (detectCircularDependencies_sound ringIndex "A" [["A"; "B"; "C"; "A"]]).
  reflexivity.
Defined.

Lemma fold_dfs_more_fuel (idx : SymbolIndex) (fuel : nat)
  (IH : forall moduleName st st',
      dfs fuel idx moduleName st = Some st' ->
      dfs (S fuel) idx moduleName st = Some st') :
  forall imports acc s,
    fold_left
      (fun acc importStmt =>
         match acc with
         | Some s1 => dfs fuel idx (import_moduleName importStmt) s1
         | None => None
         end) imports acc = Some s ->
    fold_left
      (fun acc importStmt =>
         match acc with
         | Some s1 => dfs (S fuel) idx (import_moduleName importStmt) s1
         | None => None
         end) imports acc = Some s.
Proof.
  induction imports as [|i imports IHi]; intros acc s Hfold; [exact Hfold|].
  cbn [fold_left] in *. destruct acc as [s0|].
  - destruct (dfs fuel idx (import_moduleName i) s0) as [s1|] eqn:Hstep.
    + rewrite (IH _ _ _ Hstep). now apply IHi.
    + rewrite fold_dfs_None in Hfold. discriminate.
  - rewrite fold_dfs_None in Hfold. discriminate.
Qed.

Lemma dfs_more_fuel (idx : SymbolIndex) (fuel : nat) :
  forall moduleName st st',
    dfs fuel idx moduleName st = Some st' ->
    dfs (S fuel) idx moduleName st = Some st'.
Proof.
  induction fuel as [|fuel IH]; intros moduleName st st' Hrun; [discriminate|].
  pose proof (fold_dfs_more_fuel idx fuel IH) as Hloop.
  remember (S fuel) as f1 eqn:Hf1.
  cbn [dfs]. rewrite Hf1 in Hrun. cbn [dfs] in Hrun.
  destruct (includes (path st) moduleName); [exact Hrun|].
  destruct (includes (visited st) moduleName); [exact Hrun|].
  destruct (getModuleByName idx moduleName) as [module|]; [|exact Hrun].
  match type of Hrun with
  | match ?f with _ => _ end = _ => destruct f as [s|] eqn:Hfold; [|discriminate]
  end.
  now rewrite (Hloop _ _ _ Hfold).
Qed.

Lemma dfs_extra_fuel (idx : SymbolIndex) (extra : nat) :
  forall fuel moduleName st st',
    dfs fuel idx moduleName st = Some st' ->
    dfs (fuel + extra) idx moduleName st = Some st'.
Proof.
  induction extra as [|extra IH]; intros fuel moduleName st st' Hrun.
  - now rewrite Nat.add_0_r.
  - rewrite Nat.add_succ_r. apply dfs_more_fuel. now apply IH.
Qed.

(** X26: the cycle search comes to an end on every index, cyclic or not:
    the recursion never goes deeper than the number of indexed modules plus
    two, so [detectCircularDependencies] returns a list of cycles, and a
    larger recursion budget gives the same list. *)
Theorem detectCircularDependencies_terminates (idx : SymbolIndex)
  (startModule : string) :
  exists found,
    detectCircularDependencies idx startModule = Some found
    /\ forall extra,
         option_map cycles
           (dfs (dfs_budget idx + extra) idx startModule
                {| cycles := []; visited := []; path := [] |})
         = Some found.
Proof.
  destruct (detectCircularDependencies_returns idx startModule) as (found & Hfound).
  exists found. split; [exact Hfound|].
  intros extra. unfold detectCircularDependencies in Hfound.
  destruct (dfs (dfs_budget idx) idx startModule
              {| cycles := []; visited := []; path := [] |}) as [st'|] eqn:Hrun;
    [|discriminate].
  rewrite (dfs_extra_fuel idx extra _ _ _ _ Hrun). simpl. congruence.
Qed.

(* ================================================================== *)
(** * Further properties of the aggregator *)

Lemma jsmap_set_keys {K V} (keq : K -> K -> bool)
  (keq_spec : forall a b, reflect (a = b) (keq a b))
  (m : JsMap.t (K:=K) (V:=V)) k v k' :
  In k' (JsMap.keys m) -> In k' (JsMap.keys (JsMap.set keq m k v)).
Proof.
  unfold JsMap.keys. induction m as [|[k0 v0] m IH]; simpl; [contradiction|].
  destruct (keq_spec k0 k) as [->|Hne]; simpl; [tauto|].
  intros [<-|Hin]; [now left|right; now apply IH].
Qed.

Lemma wfAggregator_new : wfAggregator newAggregator.
Proof.
  unfold wfAggregator, newAggregator. simpl. repeat split.
  - constructor.
  - intros key fd [].
  - repeat constructor; simpl; intuition discriminate.
  - intros [| | |]; eexists; reflexivity.
Qed.

Lemma collections_set_wf (cs : SrcMap (StrMap (list Diagnostic))) src c :
  NoDup (JsMap.keys cs) ->
  (forall s, exists c0, JsMap.get source_eqb cs s = Some c0) ->
  NoDup (JsMap.keys (JsMap.set source_eqb cs src c))
  /\ (forall s, exists c0, JsMap.get source_eqb (JsMap.set source_eqb cs src c) s = Some c0).
Proof.
  intros Hnd Hall. split.
  - now apply (jsmap_set_keys_NoDup source_eqb source_eqb_spec).
  - intros s. rewrite (jsmap_get_set source_eqb source_eqb_spec).
    destruct (source_eqb src s); [eauto|apply Hall].
Qed.

Lemma wfAggregator_setDiagnostics agg uri src diags :
  wfAggregator agg -> wfAggregator (setDiagnostics agg uri src diags).
Proof.
  intros (Hk & Hin & Hc & Hall). unfold wfAggregator, setDiagnostics.
  cbn [diagnostics collections].
  assert (Hcs : NoDup (JsMap.keys
                   match JsMap.get source_eqb (collections agg) src with
                   | Some collection =>
                       JsMap.set source_eqb (collections agg) src
                         (smap_set collection (fsPath uri) diags)
                   | None => collections agg
                   end)
                /\ (forall s, exists c0,
                      JsMap.get source_eqb
                        match JsMap.get source_eqb (collections agg) src with
                        | Some collection =>
                            JsMap.set source_eqb (collections agg) src
                              (smap_set collection (fsPath uri) diags)
                        | None => collections agg
                        end s = Some c0)).
  { destruct (JsMap.get source_eqb (collections agg) src);
      [now apply collections_set_wf|now split]. }
  destruct Hcs as [Hc' Hall'].
  split; [now apply smap_set_keys_NoDup|]. split; [|now split].
  intros key fd Hfd.
  apply (jsmap_set_In_cases String.eqb String.eqb_spec) in Hfd.
  destruct Hfd as [[_ ->]|Hfd]; [|now apply (Hin key)].
  apply (jsmap_set_keys_NoDup source_eqb source_eqb_spec).
  destruct (smap_get (diagnostics agg) (normalizeUri uri)) as [fd0|] eqn:Hget;
    [|constructor].
  apply (Hin (normalizeUri uri)).
  now apply (jsmap_get_In String.eqb String.eqb_spec).
Qed.

Lemma jsmap_map_keys {K V W} (f : V -> W) (m : list (K * V)) :
  JsMap.keys (map (fun e => (fst e, f (snd e))) m) = JsMap.keys m.
Proof.
  unfold JsMap.keys. induction m as [|[k0 v0] m IH]; simpl; [reflexivity|].
  now rewrite IH.
Qed.

Lemma jsmap_get_map {K V W} (keq : K -> K -> bool) (f : V -> W)
  (m : list (K * V)) k :
  JsMap.get keq (map (fun e => (fst e, f (snd e))) m) k
  = option_map f (JsMap.get keq m k).
Proof.
  induction m as [|[k0 v0] m IH]; simpl; [reflexivity|].
  destruct (keq k0 k); [reflexivity|exact IH].
Qed.

Lemma wfAggregator_clearDiagnostics agg uri src :
  wfAggregator agg -> wfAggregator (clearDiagnostics agg uri src).
Proof.
  intros (Hk & Hin & Hc & Hall). unfold wfAggregator, clearDiagnostics.
  destruct src as [s|]; cbn [diagnostics collections].
  - assert (Hcs : NoDup (JsMap.keys
                     match JsMap.get source_eqb (collections agg) s with
                     | Some collection =>
                         JsMap.set source_eqb (collections agg) s
                           (smap_delete collection (fsPath uri))
                     | None => collections agg
                     end)
                  /\ (forall s0, exists c0,
                        JsMap.get source_eqb
                          match JsMap.get source_eqb (collections agg) s with
                          | Some collection =>
                              JsMap.set source_eqb (collections agg) s
                                (smap_delete collection (fsPath uri))
                          | None => collections agg
                          end s0 = Some c0)).
    { destruct (JsMap.get source_eqb (collections agg) s);
        [now apply collections_set_wf|now split]. }
    destruct Hcs as [Hc' Hall'].
    destruct (smap_get (diagnostics agg) (normalizeUri uri)) as [fd0|] eqn:Hget.
    + split; [now apply smap_set_keys_NoDup|]. split; [|now split].
      intros key fd Hfd.
      apply (jsmap_set_In_cases String.eqb String.eqb_spec) in Hfd.
      destruct Hfd as [[_ ->]|Hfd]; [|now apply (Hin key)].
      apply jsmap_delete_keys_NoDup. apply (Hin (normalizeUri uri)).
      now apply (jsmap_get_In String.eqb String.eqb_spec).
    + repeat split; assumption.
  - split; [now apply smap_delete_keys_NoDup|]. split; [|split].
    + intros key fd Hfd. apply jsmap_delete_In in Hfd. now apply (Hin key).
    + now rewrite (jsmap_map_keys (fun c => smap_delete c (fsPath uri))).
    + intros s. rewrite (jsmap_get_map source_eqb (fun c => smap_delete c (fsPath uri))).
      destruct (Hall s) as (c & ->). simpl. eauto.
Qed.

Lemma wfAggregator_clearAll agg : wfAggregator agg -> wfAggregator (clearAll agg).
Proof.
  intros (Hk & Hin & Hc & Hall). unfold wfAggregator, clearAll.
  cbn [diagnostics collections]. split; [constructor|]. split; [intros k fd []|].
  split.
  - now rewrite (jsmap_map_keys (fun _ : StrMap (list Diagnostic) => @nil (string * list Diagnostic))).
  - intros s.
    rewrite (jsmap_get_map source_eqb
               (fun _ : StrMap (list Diagnostic) => @nil (string * list Diagnostic))).
    destruct (Hall s) as (c & ->). simpl. eauto.
Qed.

Section AggregatorShape.
  Context `{PathLib}.

(** X11: the aggregator keeps its shape.  The constructor builds, and
    [setDiagnostics], [setAlphaDiagnostics], [clearDiagnostics] and
    [clearAll] keep, an aggregator that holds no file and no producer twice
    and has a collection for each of the four producers. *)
Theorem wfAggregator_preserved (idx : SymbolIndex) (agg : DiagnosticAggregator)
  (uri : Uri) (src : DiagnosticSource) (diags : list Diagnostic)
  (raws : list AlphaDiagnostic) (cleared : option DiagnosticSource) :
  wfAggregator agg ->
  wfAggregator (setDiagnostics agg uri src diags)
  /\ wfAggregator (setAlphaDiagnostics idx agg uri raws)
  /\ wfAggregator (clearDiagnostics agg uri cleared)
  /\ wfAggregator (clearAll agg).
Proof.
  intros Hwf. split; [|split; [|split]].
  - now apply wfAggregator_setDiagnostics.
  - unfold setAlphaDiagnostics. now apply wfAggregator_setDiagnostics.
  - now apply wfAggregator_clearDiagnostics.
  - now apply wfAggregator_clearAll.
Qed.
End AggregatorShape.

Lemma wfAggregator_preserved_witness :
  wfAggregator newAggregator
  /\ wfAggregator (setDiagnostics newAggregator mainUri lsp [])
  /\ wfAggregator (setAlphaDiagnostics sampleIndex newAggregator mainUri sampleRaws)
  /\ wfAggregator (clearDiagnostics newAggregator mainUri (Some lsp))
  /\ wfAggregator (clearAll newAggregator).
Proof.
  split; [exact wfAggregator_new|].
  apply (@wfAggregator_preserved identityPath sampleIndex newAggregator mainUri lsp []
           sampleRaws (Some lsp)).
  exact wfAggregator_new.
Defined.

(** ** Storing, publishing and clearing *)

Lemma toLowerCase_idem s : toLowerCase (toLowerCase s) = toLowerCase s.
Proof.
  induction s as [|c s IH]; simpl; [reflexivity|]. rewrite IH. f_equal.
  unfold lower_char.
  destruct (((65 <=? nat_of_ascii c) && (nat_of_ascii c <=? 90))%nat) eqn:E.
  - apply andb_true_iff in E. destruct E as [E1 E2].
    apply Nat.leb_le in E1, E2.
    rewrite nat_ascii_embedding by lia.
    destruct (((65 <=? nat_of_ascii c + 32) && (nat_of_ascii c + 32 <=? 90))%nat) eqn:E';
      [|reflexivity].
    apply andb_true_iff in E'. destruct E' as [_ E']. apply Nat.leb_le in E'. lia.
  - now rewrite E.
Qed.

Lemma lower_char_slash c :
  lower_char (if Ascii.eqb c "\"%char then "/"%char else c)
  = if Ascii.eqb (lower_char c) "\"%char then "/"%char else lower_char c.
Proof.
  destruct (Ascii.eqb_spec c "\"%char) as [->|Hne]; [reflexivity|].
  destruct (Ascii.eqb_spec (lower_char c) "\"%char) as [E|]; [|reflexivity].
  exfalso. unfold lower_char in E.
  destruct (((65 <=? nat_of_ascii c) && (nat_of_ascii c <=? 90))%nat) eqn:Hup;
    [|contradiction].
  apply andb_true_iff in Hup. destruct Hup as [E1 E2]. apply Nat.leb_le in E1, E2.
  apply (f_equal nat_of_ascii) in E. rewrite nat_ascii_embedding in E by lia.
  change (nat_of_ascii "\"%char) with 92 in E. lia.
Qed.

Lemma slashes_idem s :
  backslashes_to_slashes (backslashes_to_slashes s) = backslashes_to_slashes s.
Proof.
  induction s as [|c s IH]; simpl; [reflexivity|]. rewrite IH. f_equal.
  destruct (Ascii.eqb_spec c "\"%char); [reflexivity|].
  destruct (Ascii.eqb_spec c "\"%char); [contradiction|reflexivity].
Qed.

Lemma toLowerCase_slashes s :
  toLowerCase (backslashes_to_slashes s) = backslashes_to_slashes (toLowerCase s).
Proof.
  induction s as [|c s IH]; simpl; [reflexivity|].
  now rewrite IH, lower_char_slash.
Qed.

(** X12: [normalizeUri] is a normal form.  Normalizing a normalized path
    changes nothing, the result holds no backslash and no capital ASCII
    letter, and paths that differ only in letter case or in the direction
    of their slashes get the same key. *)
Theorem normalizeUri_normal_form (uri : Uri) :
  normalizeUri {| fsPath := normalizeUri uri |} = normalizeUri uri
  /\ has_char "\"%char (normalizeUri uri) = false
  /\ toLowerCase (normalizeUri uri) = normalizeUri uri
  /\ normalizeUri {| fsPath := toLowerCase (fsPath uri) |} = normalizeUri uri
  /\ normalizeUri {| fsPath := backslashes_to_slashes (fsPath uri) |}
     = normalizeUri uri.
Proof.
  unfold normalizeUri. cbn [fsPath]. repeat split.
  - now rewrite toLowerCase_slashes, toLowerCase_idem, slashes_idem.
  - generalize (toLowerCase (fsPath uri)) as s.
    induction s as [|c s IH]; simpl; [reflexivity|]. rewrite IH, orb_false_r.
    destruct (Ascii.eqb_spec c "\"%char); [reflexivity|].
    now apply Ascii.eqb_neq.
  - now rewrite toLowerCase_slashes, toLowerCase_idem.
  - now rewrite toLowerCase_idem.
  - now rewrite toLowerCase_slashes, slashes_idem.
Qed.

Lemma getDiagnosticsFromSource_key agg u u' s :
  normalizeUri u' = normalizeUri u ->
  getDiagnosticsFromSource agg u' s = getDiagnosticsFromSource agg u s.
Proof. unfold getDiagnosticsFromSource. now intros ->. Qed.

Lemma getDiagnostics_other_key agg agg' other :
  smap_get (diagnostics agg') (normalizeUri other)
  = smap_get (diagnostics agg) (normalizeUri other) ->
  getDiagnostics agg' other = getDiagnostics agg other
  /\ forall s, getDiagnosticsFromSource agg' other s
               = getDiagnosticsFromSource agg other s.
Proof.
  unfold getDiagnostics, getDiagnosticsFromSource. intros ->. now split.
Qed.

(** X13: [setDiagnostics] followed by a read gives back what was stored.
    The list can be read through any location with the same normalized
    path; it replaces what the producer had stored for the file before;
    the lists of the other producers and those of files with another
    normalized path are as they were. *)
Theorem setDiagnostics_then_get (agg : DiagnosticAggregator) (uri uri' : Uri)
  (src : DiagnosticSource) (diags : list Diagnostic) :
  normalizeUri uri' = normalizeUri uri ->
  let after := setDiagnostics agg uri src diags in
  getDiagnosticsFromSource after uri' src = diags
  /\ (forall replaced,
        getDiagnosticsFromSource (setDiagnostics after uri' src replaced) uri src
        = replaced)
  /\ (forall src', src' <> src ->
        getDiagnosticsFromSource after uri' src'
        = getDiagnosticsFromSource agg uri' src')
  /\ (forall other, normalizeUri other <> normalizeUri uri ->
        getDiagnostics after other = getDiagnostics agg other
        /\ forall s, getDiagnosticsFromSource after other s
                     = getDiagnosticsFromSource agg other s).
Proof.
  intros Hkey after. split; [|split; [|split]].
  - rewrite (getDiagnosticsFromSource_key _ uri uri') by exact Hkey.
    unfold after. rewrite getDiagnosticsFromSource_set.
    now destruct (source_eqb_spec src src).
  - intros replaced.
    rewrite <- (getDiagnosticsFromSource_key _ uri uri') by exact Hkey.
    rewrite getDiagnosticsFromSource_set. now destruct (source_eqb_spec src src).
  - intros src' Hne.
    rewrite !(getDiagnosticsFromSource_key _ uri uri') by exact Hkey.
    unfold after. rewrite getDiagnosticsFromSource_set.
    destruct (source_eqb_spec src src'); [congruence|reflexivity].
  - intros other Hne. apply getDiagnostics_other_key.
    apply diagnostics_set_other. congruence.
Qed.

Lemma setDiagnostics_then_get_witness :
  getDiagnosticsFromSource
    (setDiagnostics newAggregator upperUri lsp
       [convertAlphaDiagnostic (neverAssigned "Total")]) slashUri lsp
  = [convertAlphaDiagnostic (neverAssigned "Total")].
Proof.
  apply (setDiagnostics_then_get newAggregator upperUri slashUri lsp
           [convertAlphaDiagnostic (neverAssigned "Total")]).
  reflexivity.
Defined.

(** X14: what [setDiagnostics] stores it also publishes.  In an aggregator
    of the shape the constructor builds, the producer's collection holds,
    for the file, the list just stored; the entries of the other producers
    and of the other files are not touched. *)
Theorem setDiagnostics_publishes (agg : DiagnosticAggregator) (uri : Uri)
  (src : DiagnosticSource) (diags : list Diagnostic) :
  wfAggregator agg ->
  let after := setDiagnostics agg uri src diags in
  published after src uri = Some diags
  /\ published after src uri = Some (getDiagnosticsFromSource after uri src)
  /\ (forall src' uri',
        src' <> src \/ fsPath uri' <> fsPath uri ->
        published after src' uri' = published agg src' uri').
Proof.
  intros (_ & _ & _ & Hall) after.
  destruct (Hall src) as (collection & Hc).
  assert (Hpub : published after src uri = Some diags).
  { unfold published, after, setDiagnostics. cbn [collections]. rewrite Hc.
    rewrite (jsmap_get_set source_eqb source_eqb_spec).
    destruct (source_eqb_spec src src); [|congruence].
    now rewrite smap_get_set, String.eqb_refl. }
  split; [exact Hpub|]. split.
  - rewrite Hpub. unfold after. rewrite getDiagnosticsFromSource_set.
    now destruct (source_eqb_spec src src).
  - intros src' uri' Hother.
    unfold published, after, setDiagnostics. cbn [collections]. rewrite Hc.
    rewrite (jsmap_get_set source_eqb source_eqb_spec).
    destruct (source_eqb_spec src src') as [<-|Hne]; [|reflexivity].
    rewrite Hc, smap_get_set.
    destruct (String.eqb_spec (fsPath uri) (fsPath uri')) as [E|]; [|reflexivity].
    destruct Hother as [Hs|Hu]; [now contradiction Hs|]. symmetry in E. contradiction.
Qed.

Lemma setDiagnostics_publishes_witness :
  published (setDiagnostics newAggregator mainUri lsp
               [convertAlphaDiagnostic (neverAssigned "Total")]) lsp mainUri
  = Some [convertAlphaDiagnostic (neverAssigned "Total")].
Proof.
  apply (setDiagnostics_publishes newAggregator mainUri lsp
           [convertAlphaDiagnostic (neverAssigned "Total")]).
  exact wfAggregator_new.
Defined.

Lemma fileDiagnosticsOf_clear_source agg uri src :
  fileDiagnosticsOf (clearDiagnostics agg uri (Some src)) uri
  = JsMap.delete source_eqb (fileDiagnosticsOf agg uri) src.
Proof.
  unfold fileDiagnosticsOf, clearDiagnostics. cbn [diagnostics].
  destruct (smap_get (diagnostics agg) (normalizeUri uri)) as [fd|] eqn:Hget.
  - now rewrite smap_get_set, String.eqb_refl.
  - now rewrite Hget.
Qed.

Lemma getDiagnosticsFromSource_file agg uri s :
  getDiagnosticsFromSource agg uri s
  = get_or_nil (JsMap.get source_eqb (fileDiagnosticsOf agg uri) s).
Proof.
  unfold getDiagnosticsFromSource, fileDiagnosticsOf.
  destruct (smap_get (diagnostics agg) (normalizeUri uri)); reflexivity.
Qed.

(** X15: [clearDiagnostics] with a producer removes that producer's
    diagnostics of the file and nothing else: its list is empty afterwards,
    [getDiagnostics] returns exactly the entries of the other producers it
    returned before, and other files keep their diagnostics. *)
Theorem clearDiagnostics_source (agg : DiagnosticAggregator) (uri : Uri)
  (src : DiagnosticSource) :
  let after := clearDiagnostics agg uri (Some src) in
  getDiagnosticsFromSource after uri src = []
  /\ (forall a, In a (getDiagnostics after uri)
                <-> In a (getDiagnostics agg uri) /\ agg_source a <> src)
  /\ (forall src', src' <> src ->
        getDiagnosticsFromSource after uri src'
        = getDiagnosticsFromSource agg uri src')
  /\ (forall other, normalizeUri other <> normalizeUri uri ->
        getDiagnostics after other = getDiagnostics agg other).
Proof.
  intros after. split; [|split; [|split]].
  - unfold after. rewrite getDiagnosticsFromSource_file, fileDiagnosticsOf_clear_source.
    rewrite (jsmap_get_delete source_eqb source_eqb_spec).
    now destruct (source_eqb_spec src src).
  - intros a. unfold after. rewrite !getDiagnostics_members.
    rewrite fileDiagnosticsOf_clear_source. unfold JsMap.delete. split.
    + intros (diags & Hin & Hd & Hp). apply filter_In in Hin.
      destruct Hin as [Hin Hsrc]. cbn [fst] in Hsrc. split; [eauto|].
      apply negb_true_iff in Hsrc.
      destruct (source_eqb_spec (agg_source a) src); [discriminate|assumption].
    + intros [(diags & Hin & Hd & Hp) Hsrc]. exists diags. repeat split; auto.
      apply filter_In. split; [exact Hin|]. cbn [fst]. apply negb_true_iff.
      destruct (source_eqb_spec (agg_source a) src); [contradiction|reflexivity].
  - intros src' Hne. unfold after.
    rewrite !getDiagnosticsFromSource_file, fileDiagnosticsOf_clear_source.
    rewrite (jsmap_get_delete source_eqb source_eqb_spec).
    destruct (source_eqb_spec src src'); [congruence|reflexivity].
  - intros other Hne. apply getDiagnostics_other_key.
    unfold after, clearDiagnostics. cbn [diagnostics].
    destruct (smap_get (diagnostics agg) (normalizeUri uri)); [|reflexivity].
    rewrite smap_get_set.
    destruct (String.eqb_spec (normalizeUri uri) (normalizeUri other));
      [congruence|reflexivity].
Qed.

Lemma iterate_fold (lists : list (list Diagnostic)) : forall c,
  fold_left iterate lists c = fold_left countOne (List.concat lists) c.
Proof.
  induction lists as [|l lists IH]; intros c; simpl; [reflexivity|].
  rewrite IH. unfold iterate. now rewrite fold_left_app.
Qed.

Lemma countOne_fold l : forall c,
  totalCount (fold_left countOne l c) = totalCount c + List.length l
  /\ errors (fold_left countOne l c) = errors c + List.length (filter isError l).
Proof.
  induction l as [|d l IH]; intros c; simpl; [split; lia|].
  destruct (IH (countOne c d)) as [Ht He]. rewrite Ht, He.
  unfold countOne, isError, totalCount. destruct (severity d); simpl; split; lia.
Qed.

Lemma merged_diagnostics fd : map diagnostic (merged fd) = List.concat (JsMap.values fd).
Proof.
  unfold merged, JsMap.values. induction fd as [|[s diags] fd IH]; simpl; [reflexivity|].
  rewrite map_app, IH, map_map. simpl. now rewrite map_id.
Qed.

Lemma Permutation_filter_length {A} (p : A -> bool) l l' :
  Permutation l l' -> List.length (filter p l) = List.length (filter p l').
Proof.
  induction 1 as [|x l l' _ IH|x y l|l l' l'' _ IH1 _ IH2]; simpl.
  - reflexivity.
  - destruct (p x); simpl; now rewrite IH.
  - destruct (p x), (p y); reflexivity.
  - congruence.
Qed.

Lemma getCounts_file agg uri :
  getCounts agg (Some uri)
  = fold_left countOne (map diagnostic (merged (fileDiagnosticsOf agg uri))) noCounts.
Proof.
  unfold getCounts, fileDiagnosticsOf.
  destruct (smap_get (diagnostics agg) (normalizeUri uri)) as [fd|]; [|reflexivity].
  now rewrite iterate_fold, merged_diagnostics.
Qed.

(** X16: the counts of a file agree with its merged view.  The four
    counters of [getCounts(uri)] add up to the number of entries
    [getDiagnostics(uri)] returns, the error counter is the number of its
    entries of severity [Error], and [hasErrors] holds exactly when there
    is such an entry. *)
Theorem getCounts_matches_getDiagnostics (agg : DiagnosticAggregator) (uri : Uri) :
  totalCount (getCounts agg (Some uri)) = List.length (getDiagnostics agg uri)
  /\ errors (getCounts agg (Some uri))
     = List.length (filter (fun a => isError (diagnostic a)) (getDiagnostics agg uri))
  /\ (hasErrors agg uri = true
      <-> exists a, In a (getDiagnostics agg uri)
                    /\ severity (diagnostic a) = Error).
Proof.
  assert (Herr : errors (getCounts agg (Some uri))
     = List.length (filter (fun a => isError (diagnostic a)) (getDiagnostics agg uri))).
  { rewrite getCounts_file, getDiagnostics_eq.
    destruct (countOne_fold (map diagnostic (merged (fileDiagnosticsOf agg uri)))
                noCounts) as [_ ->].
    rewrite <- (Permutation_filter_length _ _ _ (sort_perm _)).
    simpl. generalize (merged (fileDiagnosticsOf agg uri)) as l.
    induction l as [|a l IH]; simpl; [reflexivity|].
    destruct (isError (diagnostic a)); simpl; now rewrite IH. }
  split; [|split; [exact Herr|]].
  - rewrite getCounts_file, getDiagnostics_eq.
    destruct (countOne_fold (map diagnostic (merged (fileDiagnosticsOf agg uri)))
                noCounts) as [-> _].
    rewrite length_map, <- (Permutation_length (sort_perm _)). reflexivity.
  - unfold hasErrors. rewrite Herr. split.
    + intros Hpos. apply Nat.ltb_lt in Hpos.
      destruct (filter _ (getDiagnostics agg uri)) as [|a l] eqn:Hf; [simpl in Hpos; lia|].
      assert (Hin : In a (filter (fun a => isError (diagnostic a)) (getDiagnostics agg uri)))
        by (rewrite Hf; now left).
      apply filter_In in Hin. destruct Hin as [Hin Hsev].
      exists a. split; [exact Hin|]. unfold isError in Hsev.
      now destruct (severity (diagnostic a)).
    + intros (a & Hin & Hsev). apply Nat.ltb_lt.
      assert (Hf : In a (filter (fun a => isError (diagnostic a)) (getDiagnostics agg uri))).
      { apply filter_In. split; [exact Hin|]. unfold isError. now rewrite Hsev. }
      destruct (filter _ (getDiagnostics agg uri)); [contradiction|simpl; lia].
Qed.

(** X17: clearing a file, and clearing everything.  After
    [clearDiagnostics(uri)] without a producer the file has no diagnostic,
    its counts are zero and other files keep theirs; after [clearAll] no
    file has a diagnostic, the overall counts are zero and no collection
    publishes anything. *)
Theorem clear_file_and_clearAll (agg : DiagnosticAggregator) (uri : Uri) :
  (let after := clearDiagnostics agg uri None in
   getDiagnostics after uri = []
   /\ getCounts after (Some uri) = noCounts
   /\ hasErrors after uri = false
   /\ (forall src, published after src uri = None)
   /\ (forall other, normalizeUri other <> normalizeUri uri ->
         getDiagnostics after other = getDiagnostics agg other))
  /\ (forall u, getDiagnostics (clearAll agg) u = [])
  /\ getCounts (clearAll agg) None = noCounts
  /\ (forall src u, published (clearAll agg) src u = None).
Proof.
  assert (Hnone : smap_get (diagnostics (clearDiagnostics agg uri None)) (normalizeUri uri)
                  = None).
  { unfold clearDiagnostics. cbn [diagnostics].
    now rewrite smap_get_delete, String.eqb_refl. }
  split; [|split; [|split]].
  - cbv zeta. split; [|split; [|split; [|split]]].
    + unfold getDiagnostics. now rewrite Hnone.
    + unfold getCounts. now rewrite Hnone.
    + unfold hasErrors, getCounts. now rewrite Hnone.
    + intros src. unfold published, clearDiagnostics. cbn [collections].
      rewrite (jsmap_get_map source_eqb (fun c => smap_delete c (fsPath uri))).
      destruct (JsMap.get source_eqb (collections agg) src) as [c|]; [|reflexivity].
      simpl. now rewrite smap_get_delete, String.eqb_refl.
    + intros other Hne. apply getDiagnostics_other_key.
      unfold clearDiagnostics. cbn [diagnostics]. rewrite smap_get_delete.
      destruct (String.eqb_spec (normalizeUri uri) (normalizeUri other));
        [congruence|reflexivity].
  - reflexivity.
  - reflexivity.
  - intros src u. unfold published, clearAll. cbn [collections].
    rewrite (jsmap_get_map source_eqb
               (fun _ : StrMap (list Diagnostic) => @nil (string * list Diagnostic))).
    now destruct (JsMap.get source_eqb (collections agg) src).
Qed.

(** ** Deduplication and suppression, continued *)

Lemma firstByKey_all_new l : forall seenKeys,
  NoDup (map (fun a => diagnosticKey (diagnostic a)) l) ->
  (forall a, In a l -> includes seenKeys (diagnosticKey (diagnostic a)) = false) ->
  firstByKey seenKeys l = map (fun a => (diagnosticKey (diagnostic a), diagnostic a)) l.
Proof.
  induction l as [|a l IH]; intros seenKeys Hnd Hnew; simpl; [reflexivity|].
  rewrite (Hnew a (or_introl eq_refl)).
  inversion Hnd as [|? ? Hnotin Hnd']; subst.
  rewrite IH; [reflexivity|exact Hnd'|].
  intros b Hb. rewrite includes_app, includes_single, (Hnew b (or_intror Hb)).
  simpl. apply String.eqb_neq. intros E. apply Hnotin. rewrite <- E.
  now apply (in_map (fun a => diagnosticKey (diagnostic a))).
Qed.

Lemma firstByKey_length l : forall seenKeys,
  List.length (firstByKey seenKeys l) <= List.length l.
Proof.
  induction l as [|a l IH]; intros seenKeys; simpl; [lia|].
  destruct (includes seenKeys _); simpl.
  - specialize (IH seenKeys). lia.
  - specialize (IH (seenKeys ++ [diagnosticKey (diagnostic a)])). lia.
Qed.

Lemma NoDup_map_keys {A B C} (f : A -> B) (g : A -> C) l :
  (forall x y, g x = g y -> f x = f y) ->
  NoDup (map f l) -> NoDup (map g l).
Proof.
  intros Hfg. induction l as [|x l IH]; simpl; intros Hnd; [constructor|].
  inversion Hnd as [|? ? Hnotin Hnd']; subst. constructor; [|now apply IH].
  intros Hin. apply Hnotin. apply in_map_iff in Hin.
  destruct Hin as (y & Hy & Hin). apply in_map_iff. exists y.
  split; [|exact Hin]. now apply Hfg.
Qed.

(** X18: deduplication never adds and, without a collision, never drops.
    [getDeduplicatedDiagnostics] returns at most as many diagnostics as
    [getDiagnostics], each of them one of its entries; when the entries of
    [getDiagnostics] have pairwise different (line, column, first 50
    characters) keys, it returns all of them, in the same order. *)
Theorem getDeduplicated_without_collision (agg : DiagnosticAggregator) (uri : Uri) :
  List.length (getDeduplicatedDiagnostics agg uri)
  <= List.length (getDiagnostics agg uri)
  /\ (forall d, In d (getDeduplicatedDiagnostics agg uri) ->
                In d (map diagnostic (getDiagnostics agg uri)))
  /\ (NoDup (map (fun a => keyTriple (diagnostic a)) (getDiagnostics agg uri)) ->
      getDeduplicatedDiagnostics agg uri = map diagnostic (getDiagnostics agg uri)).
Proof.
  rewrite getDeduplicated_eq. split; [|split].
  - rewrite length_map. apply firstByKey_length.
  - intros d Hd. apply in_map_iff in Hd. destruct Hd as ([k d'] & Hsnd & Hin).
    simpl in Hsnd. subst d'. apply firstByKey_first in Hin.
    destruct Hin as (_ & before & a & after & -> & <- & _).
    apply in_map, in_or_app. right. now left.
  - intros Hnd. rewrite firstByKey_all_new.
    + rewrite map_map. reflexivity.
    + revert Hnd. apply NoDup_map_keys. intros x y E. now apply diagnosticKey_inj.
    + reflexivity.
Qed.

(** X19: the key of the deduplication separates its three parts: two
    diagnostics get the same key string exactly when they start on the same
    line and column and their messages agree on the first 50 characters (so
    line 1, column 23 and line 12, column 3 never collide). *)
Theorem diagnosticKey_separates (d1 d2 : Diagnostic) :
  diagnosticKey d1 = diagnosticKey d2
  <-> line (start (range d1)) = line (start (range d2))
      /\ character (start (range d1)) = character (start (range d2))
      /\ String.substring 0 50 (message d1) = String.substring 0 50 (message d2).
Proof.
  rewrite diagnosticKey_inj. unfold keyTriple. split.
  - intros [= -> -> ->]. auto.
  - intros (-> & -> & ->). reflexivity.
Qed.

Section Retained.
  Context `{PathLib}.

(** X20: the suppression rule touches nothing else.  A raw diagnostic for
    the file is stored, converted, whenever the document has no
    wildcard-import record, or its message lacks the phrase "appears to
    never be assigned", or its message names no variable in quotes. *)
Theorem setAlphaDiagnostics_retains (idx : SymbolIndex)
  (agg : DiagnosticAggregator) (uri : Uri) (raws : list AlphaDiagnostic)
  (d : AlphaDiagnostic) :
  In d raws ->
  sameFile uri d = true ->
  (wildcardModulesOf idx uri = []
   \/ str_includes "appears to never be assigned" (a_message d) = false
   \/ match_variable (a_message d) = None) ->
  In (convertAlphaDiagnostic d)
     (getDiagnosticsFromSource (setAlphaDiagnostics idx agg uri raws) uri alpha).
Proof.
  intros Hin Hfile Hwhy. rewrite stored_alpha. apply in_map.
  apply accepted_In. split; [exact Hin|]. split; [exact Hfile|].
  unfold isWildcardImportSymbolWarning.
  destruct Hwhy as [Hnone|[Hphrase|Hvar]].
  - destruct (negb _); [reflexivity|].
    destruct (match_variable (a_message d)) as [v|]; [|reflexivity].
    destruct (isSymbolFromWildcardImport idx uri v) eqn:E; [|reflexivity].
    apply isSymbolFromWildcardImport_iff in E. destruct E as (m & Hm & _).
    rewrite Hnone in Hm. contradiction.
  - now rewrite Hphrase.
  - rewrite Hvar. now destruct (negb _).
Qed.
End Retained.

Lemma setAlphaDiagnostics_retains_witness :
  In (convertAlphaDiagnostic (neverAssigned "Sum"))
     (getDiagnosticsFromSource
        (setAlphaDiagnostics emptyIndex newAggregator mainUri sampleRaws)
        mainUri alpha).
Proof.
  apply (@setAlphaDiagnostics_retains identityPath emptyIndex newAggregator mainUri
           sampleRaws (neverAssigned "Sum")).
  - left. reflexivity.
  - reflexivity.
  - left. reflexivity.
Defined.

(* ================================================================== *)
(** * Escaping in the sidebar provider *)

Lemma replace_char_app c rep (a b : string) :
  replace_char c rep (a ++ b) = (replace_char c rep a ++ replace_char c rep b)%string.
Proof.
  induction a as [|x a IH]; simpl; [reflexivity|].
  destruct (Ascii.eqb x c); simpl; rewrite IH; [now rewrite str_app_assoc|reflexivity].
Qed.

Lemma replace_char_absent c rep s :
  has_char c s = false -> replace_char c rep s = s.
Proof.
  induction s as [|x s IH]; simpl; [reflexivity|].
  intros Hs. apply orb_false_iff in Hs. destruct Hs as [Hx Hs].
  now rewrite Hx, IH.
Qed.

Lemma has_char_replace c rep s :
  has_char c rep = false -> has_char c (replace_char c rep s) = false.
Proof.
  intros Hrep. induction s as [|x s IH]; simpl; [reflexivity|].
  destruct (Ascii.eqb x c) eqn:E.
  - now rewrite has_char_app, Hrep, IH.
  - simpl. now rewrite E, IH.
Qed.

Lemma has_char_replace_other c c' rep s :
  has_char c' rep = false -> has_char c' s = false ->
  has_char c' (replace_char c rep s) = false.
Proof.
  intros Hrep. induction s as [|x s IH]; simpl; [reflexivity|].
  intros Hs. apply orb_false_iff in Hs. destruct Hs as [Hx Hs].
  destruct (Ascii.eqb x c).
  - now rewrite has_char_app, Hrep, IH.
  - simpl. now rewrite Hx, IH.
Qed.

Lemma escapeHtml_one_pass s : escapeHtml s = escapeOnePass s.
Proof.
  unfold escapeHtml. induction s as [|c s IH]; [reflexivity|].
  cbn [replace_char escapeOnePass]. unfold htmlEntity.
  destruct (Ascii.eqb_spec c "&"%char) as [->|Hamp].
  - rewrite !replace_char_app, IH. reflexivity.
  - cbn [replace_char].
    destruct (Ascii.eqb_spec c "<"%char) as [->|Hlt].
    + rewrite replace_char_app, IH. reflexivity.
    + cbn [replace_char].
      destruct (Ascii.eqb_spec c ">"%char) as [->|Hgt].
      * now rewrite IH.
      * now rewrite IH.
Qed.

Lemma escapeOnePass_inj s1 : forall s2,
  escapeOnePass s1 = escapeOnePass s2 -> s1 = s2.
Proof.
  induction s1 as [|c1 s1 IH]; intros [|c2 s2]; cbn [escapeOnePass]; unfold htmlEntity.
  - reflexivity.
  - destruct (Ascii.eqb c2 "&"%char); [discriminate|].
    destruct (Ascii.eqb c2 "<"%char); [discriminate|].
    destruct (Ascii.eqb c2 ">"%char); discriminate.
  - destruct (Ascii.eqb c1 "&"%char); [discriminate|].
    destruct (Ascii.eqb c1 "<"%char); [discriminate|].
    destruct (Ascii.eqb c1 ">"%char); discriminate.
  - destruct (Ascii.eqb_spec c1 "&"%char) as [->|H1a];
      [|destruct (Ascii.eqb_spec c1 "<"%char) as [->|H1l];
        [|destruct (Ascii.eqb_spec c1 ">"%char) as [->|H1g]]];
    (destruct (Ascii.eqb_spec c2 "&"%char) as [->|H2a];
      [|destruct (Ascii.eqb_spec c2 "<"%char) as [->|H2l];
        [|destruct (Ascii.eqb_spec c2 ">"%char) as [->|H2g]]]);
    cbn [append]; intros E; try discriminate E;
    try (injection E as E; f_equal; now apply IH);
    try (injection E as E1 E; congruence).
    injection E as -> E. f_equal. now apply IH.
Qed.

(** X21: [escapeHtml] leaves no markup character.  Its three replacements
    amount to one pass that writes each character's entity; the result
    holds neither [<] nor [>]; different texts give different results; a
    text without [&], [<] and [>] comes back unchanged; and
    [escapeAttribute] holds no double quote either. *)
Theorem escapeHtml_removes_markup (value : string) :
  escapeHtml value = escapeOnePass value
  /\ (forall other, escapeHtml value = escapeHtml other -> value = other)
  /\ has_char "<"%char (escapeHtml value) = false
  /\ has_char ">"%char (escapeHtml value) = false
  /\ (has_char "&"%char value = false -> has_char "<"%char value = false ->
      has_char ">"%char value = false -> escapeHtml value = value)
  /\ has_char dquote (escapeAttribute value) = false
  /\ has_char "<"%char (escapeAttribute value) = false
  /\ has_char ">"%char (escapeAttribute value) = false.
Proof.
  assert (Hlt : has_char "<"%char (escapeHtml value) = false).
  { unfold escapeHtml. apply has_char_replace_other; [reflexivity|].
    now apply has_char_replace. }
  assert (Hgt : has_char ">"%char (escapeHtml value) = false).
  { unfold escapeHtml. now apply has_char_replace. }
  split; [apply escapeHtml_one_pass|].
  split; [intros other E; rewrite !escapeHtml_one_pass in E;
          now apply escapeOnePass_inj|].
  split; [exact Hlt|]. split; [exact Hgt|].
  split; [|split; [|split]].
  - intros Ha Hl Hg. unfold escapeHtml.
    now rewrite (replace_char_absent "&"%char) , (replace_char_absent "<"%char),
      (replace_char_absent ">"%char).
  - unfold escapeAttribute. now apply has_char_replace.
  - unfold escapeAttribute. now apply has_char_replace_other.
  - unfold escapeAttribute. now apply has_char_replace_other.
Qed.

(* ================================================================== *)
(** * The string helpers *)

Lemma str_length_app (a b : string) :
  String.length (a ++ b) = String.length a + String.length b.
Proof. induction a as [|c a IH]; simpl; [reflexivity|now rewrite IH]. Qed.

Lemma appendTimes_length n : forall padding padChar,
  String.length (appendTimes n padding padChar)
  = String.length padding + n * String.length padChar.
Proof.
  induction n as [|n IH]; intros padding padChar; simpl; [lia|].
  rewrite IH, str_length_app. lia.
Qed.

Lemma appendTimes_empty n : appendTimes n EmptyString EmptyString = EmptyString.
Proof. induction n as [|n IH]; simpl; auto. Qed.

Lemma Pad_long text length padChar :
  (length <= StrLen text)%Z -> Pad text length padChar = text.
Proof. intros Hle. unfold Pad. apply Z.leb_le in Hle. now rewrite Hle. Qed.

Lemma Pad_empty text length : Pad text length EmptyString = text.
Proof.
  unfold Pad. destruct (length <=? StrLen text)%Z; [reflexivity|].
  now rewrite appendTimes_empty, str_app_nil_r.
Qed.

(** X22: [Pad] only ever appends.  The text is a prefix of the result; a
    text that is long enough comes back unchanged; with a one-character
    pad the result is exactly as long as the longer of the text and the
    requested length; with an empty pad nothing is appended; and padding a
    padded text again changes nothing. *)
Theorem Pad_appends (text : string) (length : Z) (padChar : string) :
  String.prefix text (Pad text length padChar) = true
  /\ ((length <= StrLen text)%Z -> Pad text length padChar = text)
  /\ (String.length padChar = 1 ->
      StrLen (Pad text length padChar) = Z.max (StrLen text) length)
  /\ (padChar = EmptyString -> Pad text length padChar = text)
  /\ Pad (Pad text length padChar) length padChar = Pad text length padChar.
Proof.
  unfold Pad at 1 2 3 4. split; [|split; [|split; [|split]]].
  - destruct (length <=? StrLen text)%Z.
    + rewrite <- (str_app_nil_r text) at 2. apply prefix_app.
    + apply prefix_app.
  - intros Hle. apply Z.leb_le in Hle. now rewrite Hle.
  - intros Hone. unfold StrLen.
    destruct (Z.leb_spec length (Z.of_nat (String.length text))) as [Hle|Hgt]; [lia|].
    rewrite str_length_app, appendTimes_length, Hone. simpl. lia.
  - intros ->. destruct (length <=? StrLen text)%Z; [reflexivity|].
    now rewrite appendTimes_empty, str_app_nil_r.
  - destruct (Z.leb_spec length (StrLen text)) as [Hle|Hgt].
    + now rewrite !(Pad_long text length padChar Hle).
    + destruct padChar as [|c padChar].
      * now rewrite !Pad_empty.
      * apply Pad_long. unfold Pad.
        destruct (Z.leb_spec length (StrLen text)) as [Hle|_]; [lia|].
        unfold StrLen in *.
        rewrite str_length_app, appendTimes_length. simpl String.length.
        nia.
Qed.

Lemma upper_char_idem c : upper_char (upper_char c) = upper_char c.
Proof. destruct c as [[] [] [] [] [] [] [] []]; reflexivity. Qed.

Lemma lower_char_idem c : lower_char (lower_char c) = lower_char c.
Proof. destruct c as [[] [] [] [] [] [] [] []]; reflexivity. Qed.

Lemma upper_char_space c :
  Ascii.eqb (upper_char c) " "%char = Ascii.eqb c " "%char.
Proof. destruct c as [[] [] [] [] [] [] [] []]; reflexivity. Qed.

Lemma lower_char_space c :
  Ascii.eqb (lower_char c) " "%char = Ascii.eqb c " "%char.
Proof. destruct c as [[] [] [] [] [] [] [] []]; reflexivity. Qed.

Lemma lower_upper_char c : lower_char (upper_char c) = lower_char c.
Proof. destruct c as [[] [] [] [] [] [] [] []]; reflexivity. Qed.

Lemma joinStep_fold ws : forall result index,
  1 <= index ->
  fst (fold_left joinStep ws (result, index))
  = (result ++ joinFrom (index =? 1)%nat ws)%string.
Proof.
  induction ws as [|w ws IH]; intros result index Hidx; simpl.
  - now rewrite str_app_nil_r.
  - rewrite IH by lia.
    replace (S index =? 1)%nat with false by (symmetry; apply Nat.eqb_neq; lia).
    destruct (Nat.eqb_spec index 1) as [->|Hne].
    + simpl. now rewrite !str_app_assoc.
    + replace (1 <? index)%nat with true by (symmetry; apply Nat.ltb_lt; lia).
      now rewrite !str_app_assoc.
Qed.

Lemma splitSpaces_scan s :
  exists w ws,
    splitSpaces s = w :: ws
    /\ joinFrom true (capitalize w :: map capitalize ws) = titleScan true s
    /\ joinFrom true (StrLower w :: map capitalize ws) = titleScan false s.
Proof.
  induction s as [|c s (w & ws & Hsplit & Hcap & Hlow)].
  - exists EmptyString, []. repeat split.
  - cbn [splitSpaces titleScan].
    destruct (Ascii.eqb c " "%char) eqn:Hc.
    + exists EmptyString, (w :: ws). rewrite Hsplit. split; [reflexivity|].
      cbn [map joinFrom capitalize StrLower toLowerCase append] in *.
      rewrite <- Hcap. apply Ascii.eqb_eq in Hc. subst c. split; reflexivity.
    + rewrite Hsplit. exists (String c w), ws. split; [reflexivity|].
      cbn [map joinFrom capitalize StrLower StrUpper toLowerCase append] in *.
      rewrite <- Hlow. split; reflexivity.
Qed.

Lemma TitleCase_scan text : TitleCase text = titleScan true text.
Proof.
  unfold TitleCase. rewrite joinStep_fold by lia. cbn [Nat.eqb append].
  destruct text as [|c text]; [reflexivity|].
  unfold StrSplit.
  destruct (splitSpaces_scan (String c text)) as (w & ws & -> & Hcap & _).
  exact Hcap.
Qed.

Lemma titleScan_length b s : String.length (titleScan b s) = String.length s.
Proof.
  revert b. induction s as [|c s IH]; intros b; simpl; [reflexivity|].
  destruct (Ascii.eqb c " "%char); simpl; now rewrite IH.
Qed.

Lemma titleScan_idem s : forall b, titleScan b (titleScan b s) = titleScan b s.
Proof.
  induction s as [|c s IH]; intros b; [reflexivity|].
  cbn [titleScan]. destruct (Ascii.eqb c " "%char) eqn:Hc.
  - cbn [titleScan]. now rewrite Hc, IH.
  - cbn [titleScan]. destruct b.
    + now rewrite upper_char_space, Hc, upper_char_idem, IH.
    + now rewrite lower_char_space, Hc, lower_char_idem, IH.
Qed.

(** X23: [TitleCase] rewrites letters in place.  Splitting at spaces,
    capitalizing each word and joining with spaces amounts to one pass
    that puts a character in upper case when it starts the text or follows
    a space and in lower case otherwise; so the result is as long as the
    text, and applying [TitleCase] twice is the same as applying it
    once. *)
Theorem TitleCase_in_place (text : string) :
  TitleCase text = titleScan true text
  /\ StrLen (TitleCase text) = StrLen text
  /\ TitleCase (TitleCase text) = TitleCase text.
Proof.
  rewrite !TitleCase_scan. split; [reflexivity|]. split.
  - unfold StrLen. now rewrite titleScan_length.
  - apply titleScan_idem.
Qed.

Example sample_string_helpers :
  TitleCase "hello  wORLD example" = "Hello  World Example"
  /\ Pad "abc" 6 "." = "abc..."
  /\ Slugify pcre_space "  Hello, World - again!  " = "hello-world---again".
Proof. repeat split. Qed.

Lemma lower_char_slug c :
  is_word_char c || Ascii.eqb c "-"%char = true -> slug_char (lower_char c) = true.
Proof. destruct c as [[] [] [] [] [] [] [] []]; intros Hc; try reflexivity; discriminate Hc. Qed.

Lemma lower_char_hyphen c :
  Ascii.eqb (lower_char c) "-"%char = Ascii.eqb c "-"%char.
Proof. destruct c as [[] [] [] [] [] [] [] []]; reflexivity. Qed.

Lemma slug_char_fixed c :
  slug_char c = true ->
  lower_char c = c /\ is_word_char c || Ascii.eqb c "-"%char = true.
Proof.
  destruct c as [[] [] [] [] [] [] [] []]; intros Hc; try discriminate Hc;
    split; reflexivity.
Qed.

Lemma all_chars_impl (p q : ascii -> bool) s :
  (forall c, p c = true -> q c = true) ->
  all_chars p s = true -> all_chars q s = true.
Proof.
  intros Hpq. induction s as [|c s IH]; simpl; [reflexivity|].
  intros Hs. apply andb_true_iff in Hs. destruct Hs as [Hc Hs].
  now rewrite (Hpq c Hc), IH.
Qed.

Lemma trimLeft_chars p s : all_chars p s = true -> all_chars p (trimLeft s) = true.
Proof.
  induction s as [|c s IH]; simpl; [reflexivity|].
  intros Hs. destruct (Ascii.eqb c "-"%char); [|exact Hs].
  apply andb_true_iff in Hs. now apply IH.
Qed.

Lemma trimLeft_start s : starts_with_hyphen (trimLeft s) = false.
Proof.
  induction s as [|c s IH]; simpl; [reflexivity|].
  destruct (Ascii.eqb c "-"%char) eqn:E; [exact IH|]. simpl. exact E.
Qed.

Lemma trimRight_chars p s : all_chars p s = true -> all_chars p (trimRight s) = true.
Proof.
  induction s as [|c s IH]; simpl; [reflexivity|].
  intros Hs. apply andb_true_iff in Hs. destruct Hs as [Hc Hs].
  specialize (IH Hs). destruct (trimRight s) as [|d t].
  - destruct (Ascii.eqb c "-"%char); simpl; [reflexivity|now rewrite Hc].
  - cbn [all_chars] in *. now rewrite Hc, IH.
Qed.

Lemma trimRight_end s : ends_with_hyphen (trimRight s) = false.
Proof.
  induction s as [|c s IH]; simpl; [reflexivity|].
  destruct (trimRight s) as [|d t].
  - destruct (Ascii.eqb c "-"%char) eqn:E; simpl; [reflexivity|exact E].
  - exact IH.
Qed.

Lemma trimRight_start s :
  starts_with_hyphen s = false -> starts_with_hyphen (trimRight s) = false.
Proof.
  destruct s as [|c s]; simpl; [reflexivity|]. intros Hc.
  destruct (trimRight s); [now rewrite Hc|exact Hc].
Qed.

Lemma trimLeft_id s : starts_with_hyphen s = false -> trimLeft s = s.
Proof. destruct s as [|c s]; simpl; [reflexivity|]. now intros ->. Qed.

Lemma trimRight_id s : ends_with_hyphen s = false -> trimRight s = s.
Proof.
  induction s as [|c s IH]; [reflexivity|].
  destruct s as [|d s].
  - simpl. now intros ->.
  - intros He. change (ends_with_hyphen (String c (String d s)))
      with (ends_with_hyphen (String d s)) in He.
    cbn [trimRight] in *. rewrite (IH He). reflexivity.
Qed.

Lemma toLowerCase_start s :
  starts_with_hyphen (toLowerCase s) = starts_with_hyphen s.
Proof. destruct s as [|c s]; simpl; [reflexivity|apply lower_char_hyphen]. Qed.

Lemma toLowerCase_end s :
  ends_with_hyphen (toLowerCase s) = ends_with_hyphen s.
Proof.
  induction s as [|c s IH]; [reflexivity|].
  destruct s as [|d s]; [simpl; apply lower_char_hyphen|].
  exact IH.
Qed.

Lemma toLowerCase_slug s :
  all_chars (fun c => is_word_char c || Ascii.eqb c "-"%char) s = true ->
  all_chars slug_char (toLowerCase s) = true.
Proof.
  induction s as [|c s IH]; simpl; [reflexivity|].
  intros Hs. apply andb_true_iff in Hs. destruct Hs as [Hc Hs].
  now rewrite (lower_char_slug c Hc), IH.
Qed.

Lemma toLowerCase_fixed s : all_chars slug_char s = true -> toLowerCase s = s.
Proof.
  induction s as [|c s IH]; simpl; [reflexivity|].
  intros Hs. apply andb_true_iff in Hs. destruct Hs as [Hc Hs].
  destruct (slug_char_fixed c Hc) as [-> _]. now rewrite IH.
Qed.

Section SlugFacts.
  Context (is_space : ascii -> bool).

Lemma removeOthers_chars s :
  all_chars (fun c => is_word_char c || is_space c || Ascii.eqb c "-"%char)
            (removeOthers is_space s) = true.
Proof.
  induction s as [|c s IH]; simpl; [reflexivity|].
  destruct (is_word_char c || is_space c || Ascii.eqb c "-"%char) eqn:E;
    [simpl; now rewrite E|exact IH].
Qed.

Lemma collapseSpaces_chars s : forall inRun,
  all_chars (fun c => is_word_char c || is_space c || Ascii.eqb c "-"%char) s = true ->
  all_chars (fun c => is_word_char c || Ascii.eqb c "-"%char)
            (collapseSpaces is_space inRun s) = true.
Proof.
  induction s as [|c s IH]; intros inRun; simpl; [reflexivity|].
  intros Hs. apply andb_true_iff in Hs. destruct Hs as [Hc Hs].
  destruct (is_space c) eqn:Esp.
  - destruct inRun; [now apply IH|]. simpl. now apply IH.
  - simpl. rewrite orb_false_r in Hc. now rewrite Hc, IH.
Qed.

Lemma removeOthers_id s :
  all_chars slug_char s = true -> removeOthers is_space s = s.
Proof.
  induction s as [|c s IH]; simpl; [reflexivity|].
  intros Hs. apply andb_true_iff in Hs. destruct Hs as [Hc Hs].
  destruct (slug_char_fixed c Hc) as [_ Hkeep].
  replace (is_word_char c || is_space c || Ascii.eqb c "-"%char) with true.
  - now rewrite IH.
  - symmetry. destruct (is_word_char c), (is_space c), (Ascii.eqb c "-"%char);
      try reflexivity; discriminate Hkeep.
Qed.

Lemma collapseSpaces_id s :
  (forall c, is_space c = true -> is_word_char c = false /\ c <> "-"%char) ->
  all_chars slug_char s = true -> collapseSpaces is_space false s = s.
Proof.
  intros Hsp. induction s as [|c s IH]; simpl; [reflexivity|].
  intros Hs. apply andb_true_iff in Hs. destruct Hs as [Hc Hs].
  destruct (is_space c) eqn:Esp; [|now rewrite IH].
  exfalso. destruct (Hsp c Esp) as [Hw Hh].
  destruct (slug_char_fixed c Hc) as [_ Hkeep]. rewrite Hw in Hkeep.
  simpl in Hkeep. apply Ascii.eqb_eq in Hkeep. contradiction.
Qed.

(** X24: [Slugify] yields a slug.  Every character of the result is a
    digit, a small letter, an underscore or a hyphen, and the result
    neither starts nor ends with a hyphen; when no white-space character
    is a word character or a hyphen, slugifying a slug changes nothing. *)
Theorem Slugify_yields_slug (text : string) :
  all_chars slug_char (Slugify is_space text) = true
  /\ starts_with_hyphen (Slugify is_space text) = false
  /\ ends_with_hyphen (Slugify is_space text) = false
  /\ ((forall c, is_space c = true -> is_word_char c = false /\ c <> "-"%char) ->
      Slugify is_space (Slugify is_space text) = Slugify is_space text).
Proof.
  assert (Hchars : all_chars slug_char (Slugify is_space text) = true).
  { unfold Slugify, StrLower, Trim. apply toLowerCase_slug.
    apply trimRight_chars, trimLeft_chars, collapseSpaces_chars, removeOthers_chars. }
  assert (Hstart : starts_with_hyphen (Slugify is_space text) = false).
  { unfold Slugify, StrLower, Trim. rewrite toLowerCase_start.
    apply trimRight_start, trimLeft_start. }
  assert (Hend : ends_with_hyphen (Slugify is_space text) = false).
  { unfold Slugify, StrLower, Trim. rewrite toLowerCase_end. apply trimRight_end. }
  split; [exact Hchars|]. split; [exact Hstart|]. split; [exact Hend|].
  intros Hsp. unfold Slugify at 1. unfold StrLower, Trim.
  rewrite (removeOthers_id _ Hchars), (collapseSpaces_id _ Hsp Hchars).
  rewrite (trimLeft_id _ Hstart), (trimRight_id _ Hend).
  now apply toLowerCase_fixed.
Qed.
End SlugFacts.

(* ================================================================== *)
(** * The documentation header *)

Lemma splitLines_nonempty s : splitLines s <> [].
Proof.
  destruct s as [|c s]; simpl; [discriminate|].
  destruct (Ascii.eqb c newlineChar); [discriminate|].
  destruct (splitLines s); discriminate.
Qed.

Lemma splitLines_free s :
  Forall (fun l => has_char newlineChar l = false) (splitLines s).
Proof.
  induction s as [|c s IH]; simpl; [repeat constructor|].
  destruct (Ascii.eqb c newlineChar) eqn:Hc; [now constructor|].
  destruct (splitLines s) as [|l ls]; [repeat constructor; simpl; now rewrite Hc|].
  inversion IH as [|? ? Hl Hls]; subst. constructor; [|exact Hls].
  simpl. now rewrite Hc, Hl.
Qed.

Lemma splitLines_single s :
  has_char newlineChar s = false -> splitLines s = [s].
Proof.
  induction s as [|c s IH]; simpl; [reflexivity|].
  intros Hs. apply orb_false_iff in Hs. destruct Hs as [Hc Hs].
  now rewrite Hc, (IH Hs).
Qed.

Lemma splitLines_one s l : splitLines s = [l] -> l = s.
Proof.
  revert l. induction s as [|c s IH]; simpl; intros l.
  - now intros [= <-].
  - destruct (Ascii.eqb c newlineChar).
    + intros E. injection E as _ E. now apply splitLines_nonempty in E.
    + destruct (splitLines s) as [|l0 ls] eqn:Hs; [now apply splitLines_nonempty in Hs|].
      intros [= <- ->]. now rewrite (IH l0 eq_refl).
Qed.

Lemma splitLines_app a b :
  has_char newlineChar a = false ->
  splitLines (a ++ String newlineChar b) = a :: splitLines b.
Proof.
  induction a as [|c a IH]; simpl.
  - intros _. reflexivity.
  - intros Ha. apply orb_false_iff in Ha. destruct Ha as [Hc Ha].
    now rewrite Hc, (IH Ha).
Qed.

Lemma split_join ls :
  ls <> [] ->
  Forall (fun l => has_char newlineChar l = false) ls ->
  splitLines (joinLines ls) = ls.
Proof.
  induction ls as [|l ls IH]; intros Hne Hfree; [contradiction|].
  inversion Hfree as [|? ? Hl Hls]; subst.
  destruct ls as [|l2 ls]; [now apply splitLines_single|].
  cbn [joinLines]. rewrite splitLines_app by exact Hl.
  f_equal. apply IH; [discriminate|exact Hls].
Qed.

Lemma tagOrder_single_line t : In t tagOrder -> has_char newlineChar t = false.
Proof.
  assert (Hall : forallb (fun t => negb (has_char newlineChar t)) tagOrder = true)
    by reflexivity.
  intros Ht. rewrite forallb_forall in Hall. now apply negb_true_iff, Hall.
Qed.

Lemma tagLines_prefix metadata tag :
  Forall (fun l => String.prefix " * " l = true) (tagLines metadata tag).
Proof.
  unfold tagLines. destruct (smap_get metadata tag) as [[value|items]|];
    [| |constructor].
  - destruct (String.eqb value EmptyString); [constructor|].
    destruct (splitLines value) as [|first [|second rest]]; [constructor| |].
    + repeat constructor.
    + constructor; [reflexivity|]. apply Forall_forall. intros l Hl.
      apply in_map_iff in Hl. destruct Hl as (x & <- & _). apply prefix_app.
  - apply Forall_forall. intros l Hl.
    apply in_map_iff in Hl. destruct Hl as (x & <- & _). reflexivity.
Qed.

Lemma tagLines_free metadata tag :
  singleLineItems metadata -> In tag tagOrder ->
  Forall (fun l => has_char newlineChar l = false) (tagLines metadata tag).
Proof.
  intros Hitems Htag. pose proof (tagOrder_single_line tag Htag) as Ht.
  unfold tagLines. destruct (smap_get metadata tag) as [[value|items]|] eqn:Hget;
    [| |constructor].
  - destruct (String.eqb value EmptyString); [constructor|].
    pose proof (splitLines_free value) as Hfree.
    destruct (splitLines value) as [|first [|second rest]] eqn:Hs; [constructor| |].
    + apply splitLines_one in Hs. subst first.
      inversion Hfree as [|? ? Hv _]; subst. repeat constructor.
      rewrite !has_char_app, Ht, Hv. reflexivity.
    + inversion Hfree as [|? ? Hf Hrest]; subst. constructor.
      * rewrite !has_char_app, Ht, Hf. reflexivity.
      * apply Forall_forall. intros l Hl. apply in_map_iff in Hl.
        destruct Hl as (x & <- & Hx). rewrite has_char_app.
        rewrite Forall_forall in Hrest. now rewrite (Hrest x Hx).
  - apply Forall_forall. intros l Hl. apply in_map_iff in Hl.
    destruct Hl as (x & <- & Hx). rewrite !has_char_app, Ht.
    now rewrite (Hitems tag items x Hget Hx).
Qed.

Lemma flat_map_ext_in {A B} (f g : A -> list B) l :
  (forall x, In x l -> f x = g x) -> flat_map f l = flat_map g l.
Proof.
  induction l as [|x l IH]; simpl; intros Hfg; [reflexivity|].
  rewrite (Hfg x (or_introl eq_refl)), IH; auto.
Qed.

(** X25: the shape of the generated header.  Every line written for a tag
    starts with the comment leader " * "; when every array item is a single
    line, the generated text, split at line breaks, is the opening line,
    those tag lines and the closing line, so a value of several lines is
    continued with the leader on each of its lines; and a tag outside the
    fixed list of tags is never written: setting it does not change the
    header. *)
Theorem generateJSDocHeader_shape (metadata : StrMap MetaValue) :
  let body := flat_map (tagLines metadata) tagOrder in
  Forall (fun l => String.prefix " * " l = true) body
  /\ (singleLineItems metadata ->
      splitLines (generateJSDocHeader metadata) = headerOpen :: body ++ [headerClose])
  /\ (forall tag value,
        ~ In tag tagOrder ->
        generateJSDocHeader (smap_set metadata tag value)
        = generateJSDocHeader metadata).
Proof.
  intros body. split; [|split].
  - unfold body. apply Forall_flat_map. apply Forall_forall. intros t _.
    apply tagLines_prefix.
  - intros Hitems. unfold generateJSDocHeader, headerLines. fold body.
    apply split_join; [discriminate|].
    constructor; [reflexivity|]. apply Forall_app. split; [|repeat constructor].
    unfold body. apply Forall_flat_map. apply Forall_forall. intros t Ht.
    now apply tagLines_free.
  - intros tag value Hout. unfold generateJSDocHeader, headerLines. do 3 f_equal.
    apply flat_map_ext_in. intros t Ht. unfold tagLines. rewrite smap_get_set.
    destruct (String.eqb_spec tag t) as [->|]; [contradiction|reflexivity].
Qed.

Example sample_header :
  generateJSDocHeader
    [("title", MetaString "Demo"); ("custom", MetaString "dropped");
     ("link", MetaArray ["a"; "b"]); ("file", MetaString "x.ahk")]
  = joinLines [headerOpen; " * @file: x.ahk"; " * @title: Demo";
               " * @link: a"; " * @link: b"; headerClose].
Proof. reflexivity. Qed.
